(** * abbrase: the word-graph engine of the passphrase generator

    A shallow embedding of [abbrase.c]: the integer vectors, the adjacency
    codec, the construction of the word graph, the fuzzy matcher and one
    round of the passphrase generator, followed by the properties proved
    about them. *)

From Stdlib Require Import ZArith List Bool Lia Arith.
From Stdlib Require Import Sorting.Sorted.
Import ListNotations.
Open Scope Z_scope.

(* ================================================================== *)
(** * Machine integers and C strings *)

(** [int] is 32 bits wide.  Arithmetic on it is written with its
    two's-complement wrap-around ([wrap32]); where C leaves the overflow
    undefined this is the behaviour of the usual targets. *)
Definition INT_MAX : Z := 2147483647.
Definition INT_MIN : Z := -2147483648.

Definition wrap32 (z : Z) : Z := (z + 2147483648) mod 4294967296 - 2147483648.

(** [x << n] on [int]. *)
Definition shl32 (x : Z) (n : nat) : Z := wrap32 (Z.shiftl x (Z.of_nat n)).

(** A C string is held as the bytes that precede its terminating NUL, each
    an [unsigned char] value.  [char_at s i] is the read [s[i]]: a byte of
    the string, the terminator at index [strlen s], and nothing beyond. *)
Definition cstring := list Z.

Definition char_at (s : cstring) (i : nat) : option Z :=
  match nth_error s i with
  | Some c => Some c
  | None => if (i =? length s)%nat then Some 0 else None
  end.

(** How a call ends: with a value, with the process exiting through
    [err]/[errx] with a status, or with a read outside the string or the
    array that is read (the C code does not detect it). *)
Inductive outcome (A : Type) : Type :=
| Ok (a : A)
| Fatal (status : Z)
| OutOfBounds.
Arguments Ok {A} a.
Arguments Fatal {A} status.
Arguments OutOfBounds {A}.

Definition bind {A B} (m : outcome A) (k : A -> outcome B) : outcome B :=
  match m with
  | Ok a => k a
  | Fatal s => Fatal s
  | OutOfBounds => OutOfBounds
  end.

Notation "x <- m ;; k" := (bind m (fun x => k))
  (at level 61, m at next level, right associativity).
Notation "' p <- m ;; k" := (bind m (fun x => match x with p => k end))
  (at level 61, p pattern, m at next level, right associativity).

(** An array read [arr[i]]; outside the array it is undefined. *)
Definition lookup {A} (arr : list A) (i : Z) : outcome A :=
  if i <? 0 then OutOfBounds
  else match nth_error arr (Z.to_nat i) with
       | Some x => Ok x
       | None => OutOfBounds
       end.

(* ================================================================== *)
(** * struct IntVec *)

(** The vector is the list of its [len] populated cells; the capacity
    doubling of [intvec_append] is a matter of storage only. *)
Definition IntVec := list Z.

Definition intvec_alloc : IntVec := [].

Definition intvec_append (vec : IntVec) (val : Z) : IntVec := vec ++ [val].

Definition intvec_len (vec : IntVec) : Z := Z.of_nat (length vec).

Definition intvec_get (vec : IntVec) (pos : Z) : outcome Z :=
  if (pos <? 0) || (intvec_len vec <=? pos) then Fatal 10
  else Ok (nth (Z.to_nat pos) vec 0).

Definition intvec_copy (vec : IntVec) : IntVec :=
  fold_left intvec_append vec intvec_alloc.

(** [intvec_intersect]: the two cursors [ai] and [bi] are the suffixes of
    [a] and [b] still to be scanned; [diff] is an [int] subtraction. *)
Fixpoint intvec_intersect (a b : IntVec) : IntVec :=
  let fix scan (b : IntVec) : IntVec :=
    match a, b with
    | x :: a', y :: b' =>
        let diff := wrap32 (x - y) in
        if diff =? 0 then x :: intvec_intersect a' b'
        else if diff <? 0 then intvec_intersect a' b
        else scan b'
    | _, _ => []
    end
  in scan b.

(* ================================================================== *)
(** * The adjacency codec: decode *)

(** The [do ... while (val & 0x20)] loop of [decode].  [rest] is the buffer
    from [enc[enc_ind + delta_ind]] on; an empty [rest] means that the byte
    read is the terminator.  Returns [delta] and [delta_ind]. *)
Fixpoint decode_varint (rest : cstring) (delta_ind : nat) (delta : Z) : Z * nat :=
  match rest with
  | [] => (Z.lor delta (shl32 (Z.land 0 31) (5 * delta_ind)), S delta_ind)
  | val :: rest' =>
      let delta' := Z.lor delta (shl32 (Z.land val 31) (5 * delta_ind)) in
      if Z.land val 32 =? 0 then (delta', S delta_ind)
      else decode_varint rest' (S delta_ind) delta'
  end.

(** The [while (enc[enc_ind] || zero_run)] loop.  [None]: the fuel ran
    out (it never does, see [decode_loop_fuel]). *)
Fixpoint decode_loop (fuel : nat) (enc : cstring) (enc_ind : nat)
    (last_num zero_run : Z) (dec : IntVec) : option (outcome IntVec) :=
  match fuel with
  | O => None
  | S fuel' =>
      match char_at enc enc_ind with
      | None => Some OutOfBounds
      | Some c =>
          if (c =? 0) && (zero_run =? 0) then Some (Ok dec)
          else
            let '(delta, delta_ind, zero_run') :=
              if negb (zero_run =? 0) then (0, 0%nat, zero_run - 1)
              else if 96 <=? c then (0, 1%nat, Z.land c 31)
              else
                let '(d, di) := decode_varint (skipn enc_ind enc) 0 0 in
                (d, di, zero_run)
            in
            let last_num' := wrap32 (last_num + wrap32 (delta + 1)) in
            decode_loop fuel' enc (enc_ind + delta_ind) last_num' zero_run'
              (intvec_append dec last_num')
      end
  end.

(** Every iteration either uses up one pending zero or moves [enc_ind]
    forward, and a run-length byte leaves at most 31 pending zeros. *)
Definition decode_fuel (enc : cstring) : nat := S (32 * (length enc + 1)).

Definition decode (enc : cstring) : outcome IntVec :=
  match decode_loop (decode_fuel enc) enc 0 0 0 intvec_alloc with
  | Some r => r
  | None => OutOfBounds
  end.


(* ================================================================== *)
(** * struct WordGraph and wordgraph_init *)

Definition MAX_PREFIXES : Z := 1024.
Definition PREFIX_LEN : nat := 3.

(** One cell of [g->prefixes]. *)
Record Bucket : Type := {
  bucket_prefix : list Z;
  bucket_words : IntVec
}.

(** [words] and [followers_compressed] are the two arrays of [n_words]
    cells ([words[0]] is the pointer [calloc] left NULL, held here as the
    empty string); [prefixes] holds the [n_prefixes] cells in use. *)
Record WordGraph : Type := {
  words : list cstring;
  followers_compressed : list cstring;
  prefixes : list Bucket
}.

Definition n_words (g : WordGraph) : Z := Z.of_nat (length (words g)).
Definition n_prefixes (g : WordGraph) : Z := Z.of_nat (length (prefixes g)).

(** [tolower] in the C locale. *)
Definition tolower (c : Z) : Z :=
  if (65 <=? c) && (c <=? 90) then c + 32 else c.

(** The stream is the list of the lines still to be read, each without its
    newline. *)
Definition getline_trimmed (stream : list cstring)
    : outcome (cstring * list cstring) :=
  match stream with
  | [] => Fatal 1
  | line :: rest => Ok (line, rest)
  end.

(** [for (j = 0; j < PREFIX_LEN; j++) prefix[j] = tolower(word[j])].  On a
    word of fewer than two characters the loop reads past the terminator,
    into what [getline] left in its buffer, and the code goes on with the
    bytes it finds there.  The stream holds the lines and not the buffers,
    so that here there is no byte to go on with: [OutOfBounds] stands for
    such a read, and nothing in what follows is said of a corpus that has
    such a word. *)
Fixpoint extract_prefix (word : cstring) (j count : nat) : outcome (list Z) :=
  match count with
  | O => Ok []
  | S count' =>
      match char_at word j with
      | None => OutOfBounds
      | Some c =>
          rest <- extract_prefix word (S j) count' ;;
          Ok (tolower c :: rest)
      end
  end.

(** [memcmp(p, q, PREFIX_LEN) == 0] on two arrays of that size. *)
Definition prefix_eqb (p q : list Z) : bool :=
  if list_eq_dec Z.eq_dec p q then true else false.

(** The scan [for (j = 0; j <= g->n_prefixes; ++j)] over the cells from
    [j] on; [n_prefixes] is the number of cells in use. *)
Fixpoint add_to_prefix_group (n_prefixes : Z) (cells : list Bucket)
    (prefix : list Z) (i : Z) : outcome (list Bucket) :=
  match cells with
  | [] =>
      if n_prefixes =? MAX_PREFIXES then Fatal 2
      else Ok [ {| bucket_prefix := prefix;
                   bucket_words := intvec_append intvec_alloc i |} ]
  | cell :: cells' =>
      if prefix_eqb (bucket_prefix cell) prefix
      then Ok ({| bucket_prefix := bucket_prefix cell;
                  bucket_words := intvec_append (bucket_words cell) i |}
               :: cells')
      else
        cells'' <- add_to_prefix_group n_prefixes cells' prefix i ;;
        Ok (cell :: cells'')
  end.

(** [for (i = 1; i < g->n_words; i++)], with [count] iterations to go. *)
Fixpoint read_words (count : nat) (i : Z) (stream : list cstring)
    (ws : list cstring) (cells : list Bucket)
    : outcome (list cstring * list Bucket * list cstring) :=
  match count with
  | O => Ok (ws, cells, stream)
  | S count' =>
      '(word, stream') <- getline_trimmed stream ;;
      prefix <- extract_prefix word 0 PREFIX_LEN ;;
      cells' <- add_to_prefix_group (Z.of_nat (length cells)) cells prefix i ;;
      read_words count' (i + 1) stream' (ws ++ [word]) cells'
  end.

(** [for (i = 0; i < g->n_words; i++) getline_trimmed(...)]. *)
Fixpoint read_followers (count : nat) (stream : list cstring)
    : outcome (list cstring) :=
  match count with
  | O => Ok []
  | S count' =>
      '(line, stream') <- getline_trimmed stream ;;
      rest <- read_followers count' stream' ;;
      Ok (line :: rest)
  end.

(** [wordgraph_init], from the header's [n_words] and the lines after it. *)
Definition wordgraph_init (n_words : Z) (stream : list cstring)
    : outcome WordGraph :=
  '(ws, cells, stream') <-
    read_words (Z.to_nat (n_words - 1)) 1 stream [ [] ] [] ;;
  if negb (Z.of_nat (length cells) =? MAX_PREFIXES) then Fatal 3
  else
    fs <- read_followers (Z.to_nat n_words) stream' ;;
    Ok {| words := ws; followers_compressed := fs; prefixes := cells |}.

(* ================================================================== *)
(** * The fuzzy matcher *)

Definition min (a b : Z) : Z := if a <=? b then a else b.

(** [int n = strlen(a)]. *)
Definition strlen (s : cstring) : Z := wrap32 (Z.of_nat (length s)).

(** [for (i = 0; i < n + 1; ++i) cost[i] = i * insert_cost]. *)
Definition init_cost (n : Z) : list Z :=
  map (fun i => wrap32 (Z.of_nat i * 1)) (seq 0 (Z.to_nat (wrap32 (n + 1)))).

(** The loop over [j]: [a] holds [a[j-1]] and what follows it, [cost] the
    cells [cost[j]] and up, not yet overwritten, and [left] is the cell
    [cost[j-1]] as just written. *)
Fixpoint edit_inner (a : cstring) (bi : Z) (prevdiag left : Z)
    (cost : list Z) : list Z :=
  match a, cost with
  | aj :: a', cj :: cost' =>
      let ins := wrap32 (cj + 1) in
      let del := wrap32 (left + 1) in
      let sub := if negb (aj =? bi) then wrap32 (prevdiag + 1) else prevdiag in
      let new := min ins (min del sub) in
      new :: edit_inner a' bi cj new cost'
  | _, _ => []
  end.

(** The loop over [i]: [b] holds [b[i-1]] and what follows it. *)
Fixpoint edit_outer (a b : cstring) (i : Z) (cost : list Z) : list Z :=
  match b, cost with
  | bi :: b', c0 :: cost' =>
      let prevdiag := c0 in
      let c0' := wrap32 (i * 1) in
      edit_outer a b' (wrap32 (i + 1)) (c0' :: edit_inner a bi prevdiag c0' cost')
  | _, _ => cost
  end.

Definition edit_distance (a b : cstring) : Z :=
  let n := strlen a in
  let m := strlen b in
  let '(a, b, n, m) := if m <? n then (b, a, m, n) else (a, b, n, m) in
  let cost := edit_outer a b 1 (init_cost n) in
  nth (Z.to_nat n) cost 0.

(** [for (i = 1; i < g->n_words; i++)] over the cells [g->words[i]] and up. *)
Fixpoint find_word_loop (word : cstring) (ws : list cstring) (i : Z)
    (best_word best_dist : Z) : Z :=
  match ws with
  | [] => best_word
  | w :: ws' =>
      let dist := edit_distance word w in
      if dist <? best_dist
      then find_word_loop word ws' (i + 1) i dist
      else find_word_loop word ws' (i + 1) best_word best_dist
  end.

Definition wordgraph_find_word (g : WordGraph) (word : cstring) : Z :=
  find_word_loop word (tl (words g)) 1 0 10000.

(* ================================================================== *)
(** * One round of the generator (the body of [while (count--)]) *)

(** [prefixes_chosen[i] &= MAX_PREFIXES - 1] and the copy of that bucket. *)
Fixpoint choose_word_sets (g : WordGraph) (prefixes_chosen : list Z)
    : outcome (list Z * list IntVec) :=
  match prefixes_chosen with
  | [] => Ok ([], [])
  | r :: rest =>
      let p := Z.land r (MAX_PREFIXES - 1) in
      cell <- lookup (prefixes g) p ;;
      '(ps, sets) <- choose_word_sets g rest ;;
      Ok (p :: ps, intvec_copy (bucket_words cell) :: sets)
  end.

(** [for (j = 0; j < words->len; j++)]: [words] holds the cells from [j]
    on, and [word] is [intvec_get(words, j)], which is in range. *)
Fixpoint narrow (g : WordGraph) (next_words words new_words : IntVec)
    : outcome IntVec :=
  match words with
  | [] => Ok new_words
  | word :: words' =>
      enc <- lookup (followers_compressed g) word ;;
      followers <- decode enc ;;
      let intersect := intvec_intersect next_words followers in
      narrow g next_words words'
        (if negb (intvec_len intersect =? 0)
         then intvec_append new_words word else new_words)
  end.

(** The body of [for (i = length - 1; i >= 0; i--)] at one position. *)
Definition backward_step (g : WordGraph) (words : IntVec)
    (next_words : option IntVec) (mismatch : Z) : outcome (IntVec * Z) :=
  new_words <- match next_words with
               | Some nw => narrow g nw words intvec_alloc
               | None => Ok intvec_alloc
               end ;;
  if negb (intvec_len new_words =? 0)
  then Ok (new_words, mismatch)
  else Ok (words, wrap32 (mismatch + 1)).

(** The backward loop.  The positions after [i] are done first; after them
    [next_words] is the set now at position [i + 1], or NULL when [i] is
    the last position. *)
Fixpoint backward (g : WordGraph) (word_sets : list IntVec)
    : outcome (list IntVec * Z) :=
  match word_sets with
  | [] => Ok ([], 0)
  | words :: later =>
      '(later', mismatch) <- backward g later ;;
      '(set, mismatch') <- backward_step g words (hd_error later') mismatch ;;
      Ok (set :: later', mismatch')
  end.

(** The forward loop [for (i = 0; i < length; i++)]; the result is the
    list of the words printed. *)
Fixpoint forward (g : WordGraph) (last_word : Z) (word_sets : list IntVec)
    : outcome (list Z) :=
  match word_sets with
  | [] => Ok []
  | set :: later =>
      enc <- lookup (followers_compressed g) last_word ;;
      followers <- decode enc ;;
      let intersect := intvec_intersect set followers in
      last_word' <-
        intvec_get (if negb (intvec_len intersect =? 0) then intersect else set) 0 ;;
      chosen <- forward g last_word' later ;;
      Ok (last_word' :: chosen)
  end.

(** What one round yields. *)
Record Round : Type := {
  round_prefixes : list Z;
  round_word_sets : list IntVec;
  round_mismatch : Z;
  round_words : list Z
}.

Definition generate_round (g : WordGraph) (start_word : Z)
    (prefixes_chosen : list Z) : outcome Round :=
  '(ps, word_sets) <- choose_word_sets g prefixes_chosen ;;
  '(word_sets', mismatch) <- backward g word_sets ;;
  chosen <- forward g start_word word_sets' ;;
  Ok {| round_prefixes := ps; round_word_sets := word_sets';
        round_mismatch := mismatch; round_words := chosen |}.

(* ================================================================== *)
(** * The encoder of the adjacency lists *)

(** Modelled from the spec: the encoder of the corpus format (the
    [digest.py] that the comment of [decode] points to), which is not among
    the sources.  It follows the steps of the format: differences from the
    previous value (the first one from 0), one subtracted from each, runs
    of zeros contracted into run-length tokens, and the tokens written as
    bytes.  A token stands for a run of 1 to 32 zeros, so that a longer run
    takes several.  A varint byte carries five bits, low-order first, with
    bit 0x20 on every byte but the last; the last byte carries bit 0x40, as
    in the example of the comment of [decode] (["bA*B"]). *)
Inductive token : Type :=
| Run (n : Z)
| Delta (d : Z).

(** Modelled from the spec: steps 2 and 3 of the format, the differences
    from the previous value with one subtracted from each. *)
Fixpoint adjusted_deltas (prev : Z) (s : list Z) : list Z :=
  match s with
  | [] => []
  | x :: s' => (x - prev - 1) :: adjusted_deltas x s'
  end.

(** Modelled from the spec: step 4 of the format, a run of zeros ([run] of
    them pending) contracted into one token, and into one more token every
    32 zeros. *)
Definition flush_run (run : Z) : list token :=
  if run =? 0 then [] else [Run run].

Fixpoint contract (run : Z) (ds : list Z) : list token :=
  match ds with
  | [] => flush_run run
  | d :: ds' =>
      if d =? 0
      then if run =? 32 then Run 32 :: contract 1 ds' else contract (run + 1) ds'
      else flush_run run ++ Delta d :: contract 0 ds'
  end.

(** Modelled from the spec: step 5 of the format, a delta as a base-32
    varint, low-order digit first. *)
Fixpoint emit_varint (fuel : nat) (d : Z) : list Z :=
  match fuel with
  | O => []
  | S fuel' =>
      if d <? 32 then [64 + d]
      else (32 + d mod 32) :: emit_varint fuel' (d / 32)
  end.

Definition varint (d : Z) : list Z := emit_varint (S (Z.to_nat (Z.log2 d))) d.

(** Modelled from the spec: step 5 of the format, a run-length token as
    one byte of value 0x60 and up, its low five bits the length minus one. *)
Definition emit (t : token) : list Z :=
  match t with
  | Run n => [96 + (n - 1)]
  | Delta d => varint d
  end.

(** Modelled from the spec: the whole pipeline of the encoder. *)
Definition encode (s : list Z) : cstring :=
  flat_map emit (contract 0 (adjusted_deltas 0 s)).

(* ================================================================== *)
(** * The edit distance as a specification *)

(** The classic recurrence of the Levenshtein distance: an insertion, a
    deletion and a substitution cost one each. *)
Fixpoint lev (a b : cstring) : Z :=
  match a with
  | [] => Z.of_nat (length b)
  | x :: a' =>
      (fix lev_a (b : cstring) : Z :=
         match b with
         | [] => Z.of_nat (length a)
         | y :: b' =>
             Z.min (lev a' b + 1)
               (Z.min (lev_a b' + 1)
                      (lev a' b' + (if x =? y then 0 else 1)))
         end) b
  end.

(** [edits a b n]: [a] is turned into [b] by [n] single-character
    insertions, deletions and substitutions, read off an alignment of the
    two strings. *)
Inductive edits : cstring -> cstring -> Z -> Prop :=
| edits_nil : edits [] [] 0
| edits_delete x a b n : edits a b n -> edits (x :: a) b (n + 1)
| edits_insert y a b n : edits a b n -> edits a (y :: b) (n + 1)
| edits_keep x a b n : edits a b n -> edits (x :: a) (x :: b) n
| edits_substitute x y a b n :
    edits a b n -> x <> y -> edits (x :: a) (y :: b) (n + 1).

(** The word of an id. *)
Definition word_of (g : WordGraph) (i : Z) : cstring :=
  nth (Z.to_nat i) (words g) [].

(** [r] is the nearest word to [query]: the least id of [1, n_words) among
    those at the least distance. *)
Definition nearest (g : WordGraph) (query : cstring) (r : Z) : Prop :=
  1 <= r < n_words g /\
  (forall i, 1 <= i < n_words g ->
     lev query (word_of g r) <= lev query (word_of g i)) /\
  (forall i, 1 <= i < r ->
     lev query (word_of g r) < lev query (word_of g i)).

(** Strictly ascending sequences. *)
Definition ascending (s : list Z) : Prop := StronglySorted Z.lt s.

(** Every difference between a value of [a] and a value of [b] is an
    [int], in either order of subtraction. *)
Definition diff_fits (a b : IntVec) : Prop :=
  forall x y, In x a -> In y b -> -2147483648 < x - y < 2147483648.

(* ================================================================== *)
(** * Auxiliary definitions of the proofs *)

(** [count_up from n]: the [n] integers that follow [from]. *)
Fixpoint count_up (from : Z) (n : nat) : list Z :=
  match n with
  | O => []
  | S n' => (from + 1) :: count_up (from + 1) n'
  end.

(** The sequence that a list of tokens stands for, continuing from [last]. *)
Fixpoint decoded (last : Z) (ts : list token) : list Z :=
  match ts with
  | [] => []
  | Run n :: ts' => count_up last (Z.to_nat n) ++ decoded (last + n) ts'
  | Delta d :: ts' => (last + d + 1) :: decoded (last + d + 1) ts'
  end.

(** The tokens the encoder writes: runs of 1 to 32, deltas of at least 1,
    and no value beyond [INT_MAX]. *)
Fixpoint tokens_ok (last : Z) (ts : list token) : Prop :=
  match ts with
  | [] => True
  | Run n :: ts' => 1 <= n <= 32 /\ last + n <= INT_MAX /\ tokens_ok (last + n) ts'
  | Delta d :: ts' =>
      1 <= d /\ last + d + 1 <= INT_MAX /\ tokens_ok (last + d + 1) ts'
  end.

(** Strictly ascending from [prev] on, and within [int]. *)
Fixpoint ascending_from (prev : Z) (s : list Z) : Prop :=
  match s with
  | [] => True
  | x :: s' => prev < x <= INT_MAX /\ ascending_from x s'
  end.

(** What the bit tests of [decode] give on the three kinds of byte. *)
Definition byte_facts (d : Z) : bool :=
  (Z.land (64 + d) 31 =? d) && (Z.land (64 + d) 32 =? 0) &&
  (Z.land (32 + d) 31 =? d) && (Z.land (32 + d) 32 =? 32) &&
  (Z.land (96 + d) 31 =? d).

(** The cells of a row of [cost] to the right of the cell of the prefix
    [ra] of [a] (held reversed), one for each further character of [a],
    when the prefix [rb] of [b] (held reversed) has been processed. *)
Fixpoint row_from (a ra rb : cstring) : list Z :=
  match a with
  | [] => []
  | x :: a' => lev (x :: ra) rb :: row_from a' (x :: ra) rb
  end.

(* ================================================================== *)
(** * A small corpus to run the code on *)

(** The [k]-th word: three lowercase letters, different for every
    [k < 17576]. *)
Definition sample_word (k : nat) : cstring :=
  [97 + Z.of_nat (k / 676); 97 + Z.of_nat ((k / 26) mod 26);
   97 + Z.of_nat (k mod 26)].

(** A corpus file of 1024 words, one for each prefix, in which every word
    may be followed by every word: the header says [n_words = 1025], and
    every line of followers encodes 1..1024 as 32 runs of 32. *)
Definition sample_words : list cstring := map sample_word (seq 0 1024).

Definition sample_corpus : list cstring :=
  sample_words ++ repeat (encode (map Z.of_nat (seq 1 1024))) 1025.

(* ================================================================== *)
(** * The prefixes of a corpus, as a specification *)

(** The lowercase prefix of a word of at least [PREFIX_LEN] characters. *)
Definition lowercase_prefix (w : cstring) : list Z :=
  map tolower (firstn PREFIX_LEN w).

(** A word of the corpus format: at least [PREFIX_LEN] characters. *)
Definition long_enough (w : cstring) : Prop := (PREFIX_LEN <= length w)%nat.

(** The number of distinct elements of a list of prefixes. *)
Definition n_distinct (ps : list (list Z)) : nat :=
  length (nodup (list_eq_dec Z.eq_dec) ps).

(** The prefixes of the cells after the words of prefixes [ps] have been
    added to cells of prefixes [P], or [None] when a 1025th cell is asked
    for. *)
Fixpoint scan_prefixes (P ps : list (list Z)) : option (list (list Z)) :=
  match ps with
  | [] => Some P
  | p :: ps' =>
      if in_dec (list_eq_dec Z.eq_dec) p P then scan_prefixes P ps'
      else if Z.of_nat (length P) =? MAX_PREFIXES then None
      else scan_prefixes (P ++ [p]) ps'
  end.

(** A set of candidates: some ids, ascending, all of them in [1, n). *)
Definition candidates_ok (n : Z) (set : IntVec) : Prop :=
  set <> [] /\ ascending set /\ Forall (fun w => 1 <= w < n) set.

(** A cell as [wordgraph_init] fills it before it reads word [i]. *)
Definition bucket_ok (i : Z) (cell : Bucket) : Prop :=
  candidates_ok i (bucket_words cell).

(** [subseq s l]: [s] is [l] with some of its elements left out. *)
Inductive subseq : list Z -> list Z -> Prop :=
| subseq_nil : subseq [] []
| subseq_skip x s l : subseq s l -> subseq s (x :: l)
| subseq_take x s l : subseq s l -> subseq (x :: s) (x :: l).

(** The decoded followers of a word: [decode(g->followers_compressed[w])]. *)
Definition followers_of (g : WordGraph) (w : Z) : outcome IntVec :=
  enc <- lookup (followers_compressed g) w ;; decode enc.

(** The word before position [i] in the forward pass: the hook (or the
    sentinel 0) at position 0, the word chosen at [i - 1] after that. *)
Definition previous_word (start_word : Z) (chosen : list Z) (i : nat) : Z :=
  match i with
  | O => start_word
  | S j => nth j chosen 0
  end.

(** The corpus of two words of the example: "abc" (id 1), which may be
    followed by "abd" (id 2), each in the cell of its prefix. *)
Definition two_word_graph : WordGraph :=
  {| words := [ []; [97; 98; 99]; [97; 98; 100] ];
     followers_compressed := [ []; encode [2]; [] ];
     prefixes := [ {| bucket_prefix := [97; 98; 99]; bucket_words := [1] |};
                   {| bucket_prefix := [97; 98; 100]; bucket_words := [2] |} ] |}.

(** The graph that [wordgraph_init] builds from [sample_corpus]. *)
Definition sample_graph : WordGraph :=
  {| words := [] :: sample_words;
     followers_compressed := repeat (encode (map Z.of_nat (seq 1 1024))) 1025;
     prefixes :=
       map (fun k => {| bucket_prefix := sample_word k;
                        bucket_words := [Z.of_nat k + 1] |}) (seq 0 1024) |}.

(** A query of 10003 letters. *)
Definition long_query : cstring := repeat 97 (Z.to_nat 10003).

(* ================================================================== *)
(** * Auxiliary definitions of the further properties *)

(** What is left of [s] after the varint that starts at its head: the
    varint ends with the first byte whose bit 0x20 is clear.  [None]: the
    string ends before the varint does. *)
Fixpoint varint_end (s : cstring) : option cstring :=
  match s with
  | [] => None
  | c :: rest => if Z.land c 32 =? 0 then Some rest else varint_end rest
  end.

(** A scan of the bytes of a string for the shape of its tokens alone: a
    byte of 0x60 and up is a token, any other byte starts a varint.
    [ends_inside_varint false s] says that [s] ends in the middle of a
    varint ([in_varint]: the head of [s] continues one). *)
Fixpoint ends_inside_varint (in_varint : bool) (s : cstring) : bool :=
  match s with
  | [] => in_varint
  | c :: rest =>
      if in_varint then ends_inside_varint (negb (Z.land c 32 =? 0)) rest
      else if 96 <=? c then ends_inside_varint false rest
      else ends_inside_varint (negb (Z.land c 32 =? 0)) rest
  end.

(** The bytes of a C string: none is the terminator. *)
Definition c_string (s : cstring) : Prop := Forall (fun c => 0 < c < 256) s.

(** The cell holds the ids below [i] of the words of [ws] whose lowercase
    prefix, as [wordgraph_init] extracts it, is the prefix of the cell. *)
Definition cell_partition (i : Z) (ws : list cstring) (cell : Bucket) : Prop :=
  forall k, In k (bucket_words cell) <->
            1 <= k < i /\
            extract_prefix (nth (Z.to_nat k) ws []) 0 PREFIX_LEN =
              Ok (bucket_prefix cell).

(** The cells sort the ids below [i] by prefix. *)
Definition partition_inv (i : Z) (ws : list cstring) (cells : list Bucket)
    : Prop :=
  NoDup (map bucket_prefix cells) /\
  Forall (cell_partition i ws) cells /\
  (forall k, 1 <= k < i ->
     exists cell, In cell cells /\ In k (bucket_words cell)).

(** The word [w] is one of the cell sampled as [p], and [p]'s prefix is the
    lowercase prefix of [w]. *)
Definition word_matches_prefix (g : WordGraph) (w p : Z) : Prop :=
  exists cell,
    lookup (prefixes g) p = Ok cell /\ In w (bucket_words cell) /\
    1 <= w < n_words g /\
    extract_prefix (word_of g w) 0 PREFIX_LEN = Ok (bucket_prefix cell).

(** The values of the type [int]. *)
Definition is_int (x : Z) : Prop := INT_MIN <= x <= INT_MAX.





(* ================================================================== *)
(** * struct IntVec, cell by cell *)

(** The operations on [struct IntVec] as they act on the three fields and
    on the block that [data] points to.  A block is the list of its cells,
    a cell that was never written holding [None]. *)
Module Layout.

Record IntVec : Type := {
  len : Z;
  cap : Z;
  data : list (option Z)
}.

(** [malloc(sizeof(int) * n)]: a fresh block of [n] cells. *)
Definition malloc (n : Z) : list (option Z) := repeat None (Z.to_nat n).

(** [realloc(block, sizeof(int) * n)]: a block of [n] cells that keeps the
    cells of the old one.  No block is to be had for an [n] that is not
    positive (the size asked for is then beyond any memory): the result
    has no cell. *)
Definition realloc (block : list (option Z)) (n : Z) : list (option Z) :=
  firstn (Z.to_nat n) block ++ repeat None (Z.to_nat n - length block).

(** The write [block[i] = val]. *)
Definition store (block : list (option Z)) (i val : Z)
    : outcome (list (option Z)) :=
  if (i <? 0) || (Z.of_nat (length block) <=? i) then OutOfBounds
  else Ok (firstn (Z.to_nat i) block ++ Some val :: skipn (S (Z.to_nat i)) block).

(** The read [block[i]]; the read of a cell never written is as undefined
    as a read outside the block. *)
Definition load (block : list (option Z)) (i : Z) : outcome Z :=
  if i <? 0 then OutOfBounds
  else match nth_error block (Z.to_nat i) with
       | Some (Some x) => Ok x
       | _ => OutOfBounds
       end.

Definition intvec_alloc : IntVec :=
  {| len := 0; cap := 1; data := malloc 1 |}.

Definition intvec_append (vec : IntVec) (val : Z) : outcome IntVec :=
  let vec1 :=
    if len vec =? cap vec
    then {| len := len vec; cap := wrap32 (cap vec * 2);
            data := realloc (data vec) (wrap32 (cap vec * 2)) |}
    else vec in
  block <- store (data vec1) (len vec1) val ;;
  Ok {| len := wrap32 (len vec1 + 1); cap := cap vec1; data := block |}.

Definition intvec_get (vec : IntVec) (pos : Z) : outcome Z :=
  if (pos <? 0) || (len vec <=? pos) then Fatal 10
  else load (data vec) pos.

(** [for (i = 0; i < vec->len; i++) intvec_append(ret, vec->data[i])],
    with [count] iterations to go. *)
Fixpoint copy_loop (count : nat) (vec : IntVec) (i : Z) (ret : IntVec)
    : outcome IntVec :=
  match count with
  | O => Ok ret
  | S count' =>
      x <- load (data vec) i ;;
      ret' <- intvec_append ret x ;;
      copy_loop count' vec (wrap32 (i + 1)) ret'
  end.

Definition intvec_copy (vec : IntVec) : outcome IntVec :=
  copy_loop (Z.to_nat (len vec)) vec 0 intvec_alloc.

(** [while (ai < a->len && bi < b->len)].  [None]: the fuel ran out. *)
Fixpoint intersect_loop (fuel : nat) (a b : IntVec) (ai bi : Z) (ret : IntVec)
    : option (outcome IntVec) :=
  match fuel with
  | O => None
  | S fuel' =>
      if (ai <? len a) && (bi <? len b) then
        match load (data a) ai, load (data b) bi with
        | Ok x, Ok y =>
            let diff := wrap32 (x - y) in
            if diff =? 0 then
              match intvec_append ret x with
              | Ok ret' =>
                  intersect_loop fuel' a b (wrap32 (ai + 1)) (wrap32 (bi + 1)) ret'
              | Fatal s => Some (Fatal s)
              | OutOfBounds => Some OutOfBounds
              end
            else if diff <? 0 then intersect_loop fuel' a b (wrap32 (ai + 1)) bi ret
            else intersect_loop fuel' a b ai (wrap32 (bi + 1)) ret
        | _, _ => Some OutOfBounds
        end
      else Some (Ok ret)
  end.

(** Every iteration moves a cursor forward. *)
Definition intvec_intersect (a b : IntVec) : outcome IntVec :=
  match intersect_loop (S (Z.to_nat (len a) + Z.to_nat (len b))) a b 0 0
          intvec_alloc with
  | Some r => r
  | None => OutOfBounds
  end.

End Layout.

(** The vector that a struct stands for: its first [len] cells. *)
Definition cell_value (c : option Z) : Z :=
  match c with Some x => x | None => 0 end.

Definition contents (vec : Layout.IntVec) : IntVec :=
  map cell_value (firstn (Z.to_nat (Layout.len vec)) (Layout.data vec)).

(** A struct in good order: the block has [cap] cells, [cap] is a power of
    two and less than twice [len] (or 1), and the first [len] cells were
    written. *)
Definition layout_ok (vec : Layout.IntVec) : Prop :=
  0 <= Layout.len vec <= Layout.cap vec /\
  Z.of_nat (length (Layout.data vec)) = Layout.cap vec /\
  (exists k, Layout.cap vec = 2 ^ Z.of_nat k) /\
  (Layout.cap vec < 2 * Layout.len vec \/ Layout.cap vec = 1) /\
  Forall (fun c => c <> None)
    (firstn (Z.to_nat (Layout.len vec)) (Layout.data vec)).

(** The struct that the appends of the values of [l] build. *)
Definition layout_of (l : list Z) : outcome Layout.IntVec :=
  fold_left (fun acc x => vec <- acc ;; Layout.intvec_append vec x) l
    (Ok Layout.intvec_alloc).

(** Two structs to run the code on: [1; 3] in a full block of two cells,
    and [3; 4; 5] in a block of four. *)
Definition sample_vec_a : Layout.IntVec :=
  {| Layout.len := 2; Layout.cap := 2; Layout.data := [Some 1; Some 3] |}.

Definition sample_vec_b : Layout.IntVec :=
  {| Layout.len := 3; Layout.cap := 4;
     Layout.data := [Some 3; Some 4; Some 5; None] |}.

(* ================================================================== *)
(** * main: the arguments *)

(** The three variables that the arguments set: [length], [count] and
    [start_word]. *)
Record Options : Type := {
  opt_length : Z;
  opt_count : Z;
  opt_start_word : Z
}.

Section Arguments.

(** [strtol(arg, NULL, 10)] after [errno = 0]: the [long] it returns, and
    whether it set [errno]. *)
Variable strtol : cstring -> Z * bool.

(** The body of [for (i = 1; i < argc; i++)] on [argv[i]]. *)
Definition parse_arg (g : WordGraph) (o : Options) (arg : cstring) : Options :=
  if opt_length o =? 0 then
    let '(v, e) := strtol arg in
    if negb e && (0 <? v)
    then {| opt_length := v; opt_count := opt_count o;
            opt_start_word := opt_start_word o |}
    else {| opt_length := 0; opt_count := opt_count o;
            opt_start_word := wordgraph_find_word g arg |}
  else if opt_count o =? 0 then
    let '(v, e) := strtol arg in
    if negb e && (0 <? v)
    then {| opt_length := opt_length o; opt_count := v;
            opt_start_word := opt_start_word o |}
    else {| opt_length := opt_length o; opt_count := 0;
            opt_start_word := wordgraph_find_word g arg |}
  else {| opt_length := opt_length o; opt_count := opt_count o;
          opt_start_word := wordgraph_find_word g arg |}.

(** The loop over [argv[1]], ..., [argv[argc - 1]]. *)
Definition parse_args (g : WordGraph) (args : list cstring) : Options :=
  fold_left (parse_arg g) args
    {| opt_length := 0; opt_count := 0; opt_start_word := 0 |}.

(** [if (!length) length = 5; if (!count) count = 32;]. *)
Definition with_defaults (o : Options) : Options :=
  {| opt_length := if opt_length o =? 0 then 5 else opt_length o;
     opt_count := if opt_count o =? 0 then 32 else opt_count o;
     opt_start_word := opt_start_word o |}.

(** An argument that reads as a positive number. *)
Definition numeral (arg : cstring) : option Z :=
  let '(v, e) := strtol arg in
  if negb e && (0 <? v) then Some v else None.

(** The arguments before the first numeral, its value, and the arguments
    after it. *)
Fixpoint take_number (args : list cstring)
    : option (list cstring * Z * list cstring) :=
  match args with
  | [] => None
  | a :: rest =>
      match numeral a with
      | Some v => Some ([], v, rest)
      | None =>
          match take_number rest with
          | Some (before, v, after) => Some (a :: before, v, after)
          | None => None
          end
      end
  end.

(** The hook that a list of words leaves: the match of the last one. *)
Definition hook_or (g : WordGraph) (start_word : Z) (others : list cstring) : Z :=
  fold_left (fun _ w => wordgraph_find_word g w) others start_word.

End Arguments.

(* ================================================================== *)
(** * main: the password that a round prints *)

(** [printf("%.3s", prefix)] on the array of a cell: its bytes up to the
    first NUL, [n] at most. *)
Fixpoint printf_precision (n : nat) (s : list Z) : cstring :=
  match n, s with
  | S n', c :: s' => if c =? 0 then [] else c :: printf_precision n' s'
  | _, _ => []
  end.

(** The characters that the loop over the positions prints, next to its
    sampling of the cells ([choose_word_sets]). *)
Fixpoint print_password (g : WordGraph) (prefixes_chosen : list Z)
    : outcome cstring :=
  match prefixes_chosen with
  | [] => Ok []
  | r :: rest =>
      let p := Z.land r (MAX_PREFIXES - 1) in
      cell <- lookup (prefixes g) p ;;
      text <- print_password g rest ;;
      Ok (printf_precision PREFIX_LEN (bucket_prefix cell) ++ text)
  end.


(* ================================================================== *)
(** * main: the run *)

(** The arithmetic of the type [long]. *)
Definition wrap64 (z : Z) : Z :=
  (z + 9223372036854775808) mod 18446744073709551616 - 9223372036854775808.

(** [wordgraph_init] on the file: [None] when [fopen] fails, and a header
    of [None] when [fscanf] reads no number. *)
Definition wordgraph_init_file (file : option (option Z * list cstring))
    : outcome WordGraph :=
  match file with
  | None => Fatal 1
  | Some (None, _) => Fatal 1
  | Some (Some n_words, stream) => wordgraph_init n_words stream
  end.

(** What main prints, call by call: the usage line; the line that
    announces [count] passwords of [bits] bits; the line of the hook; the
    heading, padded to [pass_len], with the rule of [pass_len] and of
    [dashes] dashes under it; and the line of a round, the password and the
    words after it. *)
Inductive event : Type :=
| Usage
| Banner (count bits : Z)
| Hook (word : cstring)
| Heading (pass_len dashes : Z)
| Line (password : cstring) (mnemonic : list cstring).

(** How a run ends: the process exits with a status ([return], [exit],
    [err] or [errx]), reads outside a string or an array, or loops for
    ever. *)
Inductive ending : Type :=
| Exit (status : Z)
| Undefined
| Diverges.

Record Trace : Type := {
  printed : list event;
  ending_of : ending
}.

(** [printf("%s", g->words[w])] for each of the words [ws]. *)
Fixpoint print_words (g : WordGraph) (ws : list Z) : outcome (list cstring) :=
  match ws with
  | [] => Ok []
  | w :: rest =>
      word <- lookup (words g) w ;;
      others <- print_words g rest ;;
      Ok (word :: others)
  end.

(** The line that the body of [while (count--)] prints from the ints that
    [read] gave. *)
Definition print_round (g : WordGraph) (start_word : Z)
    (prefixes_chosen : list Z) : outcome event :=
  password <- print_password g prefixes_chosen ;;
  r <- generate_round g start_word prefixes_chosen ;;
  hook <- print_words g (if start_word =? 0 then [] else [start_word]) ;;
  mnemonic <- print_words g (round_words r) ;;
  Ok (Line password (hook ++ mnemonic)).

(** [while (count--)].  [urandom] holds what the calls of [read] give, one
    list of ints for each call; a call that gives fewer than [len] ints
    (or nothing, when the list is used up) ends the run with status 6. *)
Fixpoint rounds (g : WordGraph) (start_word : Z) (len count : nat)
    (urandom : list (list Z)) (out : list event) : Trace :=
  match count with
  | O => {| printed := out; ending_of := Exit 0 |}
  | S count' =>
      match urandom with
      | [] => {| printed := out; ending_of := Exit 6 |}
      | prefixes_chosen :: urandom' =>
          if negb (length prefixes_chosen =? len)%nat
          then {| printed := out; ending_of := Exit 6 |}
          else
            match print_round g start_word prefixes_chosen with
            | Ok line =>
                rounds g start_word len count' urandom' (out ++ [line])
            | Fatal status => {| printed := out; ending_of := Exit status |}
            | OutOfBounds => {| printed := out; ending_of := Undefined |}
            end
      end
  end.

(** [argv[1]] is ["-h"] or ["--help"]. *)
Definition is_help (args : list cstring) : bool :=
  match args with
  | [] => false
  | a :: _ =>
      (if list_eq_dec Z.eq_dec a [45; 104] then true else false) ||
      (if list_eq_dec Z.eq_dec a [45; 45; 104; 101; 108; 112] then true else false)
  end.

Section Main.

Variable strtol : cstring -> Z * bool.

(** [main] on the arguments [argv[1]], ..., the corpus file, and
    [/dev/urandom] ([None] when [open] fails).  In the rule of dashes the
    counter is an [int] compared with the [long] [length * 4]: beyond
    [INT_MAX] the loop does not end. *)
Definition main (args : list cstring)
    (file : option (option Z * list cstring))
    (urandom : option (list (list Z))) : Trace :=
  match wordgraph_init_file file with
  | Fatal status => {| printed := []; ending_of := Exit status |}
  | OutOfBounds => {| printed := []; ending_of := Undefined |}
  | Ok g =>
      if is_help args then {| printed := [Usage]; ending_of := Exit 0 |}
      else
        let o := with_defaults (parse_args strtol g args) in
        match urandom with
        | None => {| printed := []; ending_of := Exit 5 |}
        | Some reads =>
            let banner := Banner (opt_count o) (wrap64 (opt_length o * 10)) in
            match print_words g (if opt_start_word o =? 0 then []
                                 else [opt_start_word o]) with
            | Fatal status =>
                {| printed := [banner]; ending_of := Exit status |}
            | OutOfBounds => {| printed := [banner]; ending_of := Undefined |}
            | Ok hook =>
                let pass_len := wrap32 (wrap64 (opt_length o * 3)) in
                let dashes := wrap64 (opt_length o * 4) in
                if INT_MAX <? dashes
                then {| printed := banner :: map Hook hook
                                   ++ [Heading pass_len dashes];
                        ending_of := Diverges |}
                else rounds g (opt_start_word o) (Z.to_nat (opt_length o))
                       (Z.to_nat (opt_count o)) reads
                       (banner :: map Hook hook ++ [Heading pass_len dashes])
            end
        end
  end.

End Main.

(** The number of reads, among the first [count], that come before the
    first one that does not give [len] ints. *)
Fixpoint full_reads (len count : nat) (urandom : list (list Z)) : nat :=
  match count, urandom with
  | S count', r :: urandom' =>
      if (length r =? len)%nat then S (full_reads len count' urandom') else O
  | _, _ => O
  end.

(** A [strtol] for the examples: the number that the leading decimal
    digits spell, and no error. *)
Definition sample_strtol (s : cstring) : Z * bool :=
  (fst (fold_left (fun '(v, go) c =>
                     if go && (48 <=? c) && (c <=? 57)
                     then (v * 10 + (c - 48), true) else (v, false))
                  s (0, true)), false).

(* ================================================================== *)
(** * The vectors of a round, on the heap *)

(** The body of [while (count--)] with its vectors held by address, each
    call of [intvec_alloc] and of [intvec_free] in its place.  The vectors
    of the graph itself stay as they are in [WordGraph]: a round reads
    them and never frees them. *)
Module Pointers.

(** The vectors allocated so far, by address; a freed vector leaves
    [None]. *)
Definition heap : Type := list (option IntVec).

(** A computation on the heap. *)
Definition M (A : Type) : Type := heap -> outcome (A * heap).

Definition ret {A} (a : A) : M A := fun h => Ok (a, h).

Definition bindM {A B} (m : M A) (k : A -> M B) : M B :=
  fun h =>
    match m h with
    | Ok (a, h') => k a h'
    | Fatal status => Fatal status
    | OutOfBounds => OutOfBounds
    end.

Notation "x <~ m ;; k" := (bindM m (fun x => k))
  (at level 61, m at next level, right associativity).
Notation "' p <~ m ;; k" := (bindM m (fun x => match x with p => k end))
  (at level 61, p pattern, m at next level, right associativity).

(** A call that does not touch the heap. *)
Definition lift {A} (o : outcome A) : M A :=
  fun h =>
    match o with
    | Ok a => Ok (a, h)
    | Fatal status => Fatal status
    | OutOfBounds => OutOfBounds
    end.

Fixpoint update (h : heap) (p : nat) (x : option IntVec) : heap :=
  match h, p with
  | [], _ => []
  | _ :: h', O => x :: h'
  | c :: h', S p' => c :: update h' p' x
  end.

(** The use of a pointer: the vector it points to.  The use of a vector
    that was freed, or never allocated, is undefined. *)
Definition deref (p : nat) : M IntVec :=
  fun h =>
    match nth_error h p with
    | Some (Some vec) => Ok (vec, h)
    | _ => OutOfBounds
    end.

Definition assign (p : nat) (vec : IntVec) : M unit :=
  fun h =>
    match nth_error h p with
    | Some (Some _) => Ok (tt, update h p (Some vec))
    | _ => OutOfBounds
    end.

(** What a callee returns that builds a vector: the address of a fresh
    vector ([intvec_alloc]) that holds the values appended to it. *)
Definition build (vec : IntVec) : M nat :=
  fun h => Ok (length h, h ++ [Some vec]).

Definition intvec_alloc : M nat := build [].

(** A vector is freed once: to free it again is undefined. *)
Definition intvec_free (p : nat) : M unit :=
  fun h =>
    match nth_error h p with
    | Some (Some _) => Ok (tt, update h p None)
    | _ => OutOfBounds
    end.

Definition intvec_append (p : nat) (val : Z) : M unit :=
  vec <~ deref p ;; assign p (intvec_append vec val).

Definition intvec_len (p : nat) : M Z :=
  vec <~ deref p ;; ret (intvec_len vec).

Definition intvec_get (p : nat) (pos : Z) : M Z :=
  vec <~ deref p ;; lift (intvec_get vec pos).

Definition intvec_copy (vec : IntVec) : M nat := build (intvec_copy vec).

Definition intvec_intersect (a b : nat) : M nat :=
  va <~ deref a ;; vb <~ deref b ;; build (intvec_intersect va vb).

Definition decode (enc : cstring) : M nat :=
  vec <~ lift (decode enc) ;; build vec.

(** [word_sets[i] = intvec_copy(g->prefixes[prefixes_chosen[i]].words)]. *)
Fixpoint choose_word_sets (g : WordGraph) (prefixes_chosen : list Z)
    : M (list Z * list nat) :=
  match prefixes_chosen with
  | [] => ret ([], [])
  | r :: rest =>
      let p := Z.land r (MAX_PREFIXES - 1) in
      cell <~ lift (lookup (prefixes g) p) ;;
      set <~ intvec_copy (bucket_words cell) ;;
      '(ps, sets) <~ choose_word_sets g rest ;;
      ret (p :: ps, set :: sets)
  end.

(** [for (j = 0; j < words->len; j++)], with [count] iterations to go. *)
Fixpoint narrow (g : WordGraph) (next_words words new_words : nat) (j : Z)
    (count : nat) : M unit :=
  match count with
  | O => ret tt
  | S count' =>
      word <~ intvec_get words j ;;
      enc <~ lift (lookup (followers_compressed g) word) ;;
      followers <~ decode enc ;;
      intersect <~ intvec_intersect next_words followers ;;
      len <~ intvec_len intersect ;;
      _ <~ (if negb (len =? 0) then intvec_append new_words word else ret tt) ;;
      _ <~ intvec_free intersect ;;
      _ <~ intvec_free followers ;;
      narrow g next_words words new_words (j + 1) count'
  end.

(** The body of [for (i = length - 1; i >= 0; i--)] at the position whose
    set is [words]; it returns [word_sets[i]] as it leaves it. *)
Definition backward_step (g : WordGraph) (words : nat)
    (next_words : option nat) (mismatch : Z) : M (nat * Z) :=
  new_words <~ intvec_alloc ;;
  _ <~ match next_words with
       | Some nw =>
           len <~ intvec_len words ;;
           narrow g nw words new_words 0 (Z.to_nat len)
       | None => ret tt
       end ;;
  len <~ intvec_len new_words ;;
  if negb (len =? 0)
  then _ <~ intvec_free words ;; ret (new_words, mismatch)
  else _ <~ intvec_free new_words ;; ret (words, wrap32 (mismatch + 1)).

(** The backward loop, the positions after [i] first; the result is the
    array [word_sets] from [i] on, and [mismatch]. *)
Fixpoint backward (g : WordGraph) (word_sets : list nat) : M (list nat * Z) :=
  match word_sets with
  | [] => ret ([], 0)
  | words :: later =>
      '(later', mismatch) <~ backward g later ;;
      '(set, mismatch') <~ backward_step g words (hd_error later') mismatch ;;
      ret (set :: later', mismatch')
  end.

(** [for (i = 0; i < length; i++)] of the forward pass. *)
Fixpoint forward (g : WordGraph) (last_word : Z) (word_sets : list nat)
    : M (list Z) :=
  match word_sets with
  | [] => ret []
  | set :: later =>
      enc <~ lift (lookup (followers_compressed g) last_word) ;;
      followers <~ decode enc ;;
      intersect <~ intvec_intersect set followers ;;
      len <~ intvec_len intersect ;;
      last_word' <~ intvec_get (if negb (len =? 0) then intersect else set) 0 ;;
      _ <~ intvec_free followers ;;
      _ <~ intvec_free intersect ;;
      chosen <~ forward g last_word' later ;;
      ret (last_word' :: chosen)
  end.

(** [for (i = 0; i < length; i++) intvec_free(word_sets[i])]. *)
Fixpoint free_all (word_sets : list nat) : M unit :=
  match word_sets with
  | [] => ret tt
  | set :: later => _ <~ intvec_free set ;; free_all later
  end.

(** One round: the sampled cells, [mismatch], and the words printed. *)
Definition round (g : WordGraph) (start_word : Z) (prefixes_chosen : list Z)
    : M (list Z * Z * list Z) :=
  '(ps, word_sets) <~ choose_word_sets g prefixes_chosen ;;
  '(word_sets', mismatch) <~ backward g word_sets ;;
  chosen <~ forward g start_word word_sets' ;;
  _ <~ free_all word_sets' ;;
  ret (ps, mismatch, chosen).

End Pointers.

(** The vector at address [p] has not been freed, and holds [vec]. *)
Definition live (h : Pointers.heap) (p : nat) (vec : IntVec) : Prop :=
  nth_error h p = Some (Some vec).

(* ================================================================== *)
(** * Properties of the machine integers *)

Lemma wrap32_small z : -2147483648 <= z < 2147483648 -> wrap32 z = z.
Proof.
  intros H. unfold wrap32.
  rewrite Z.mod_small by lia. lia.
Qed.

Lemma min_is_Zmin a b : min a b = Z.min a b.
Proof. unfold min. destruct (Z.leb_spec a b); lia. Qed.

(* ================================================================== *)
(** * intvec_intersect *)

Section Intersect.

Lemma intersect_nil_l b : intvec_intersect [] b = [].
Proof. destruct b; reflexivity. Qed.

Lemma intersect_nil_r a : intvec_intersect a [] = [].
Proof. destruct a; reflexivity. Qed.

Lemma intersect_cons x a y b :
  intvec_intersect (x :: a) (y :: b) =
  if wrap32 (x - y) =? 0 then x :: intvec_intersect a b
  else if wrap32 (x - y) <? 0 then intvec_intersect a (y :: b)
  else intvec_intersect (x :: a) b.
Proof. reflexivity. Qed.

(** The scan by two cursors as an induction principle. *)
Lemma intersect_ind (P : IntVec -> IntVec -> IntVec -> Prop) :
  (forall b, P [] b []) ->
  (forall a, P a [] []) ->
  (forall x a y b, wrap32 (x - y) = 0 ->
     P a b (intvec_intersect a b) -> P (x :: a) (y :: b) (x :: intvec_intersect a b)) ->
  (forall x a y b, wrap32 (x - y) < 0 ->
     P a (y :: b) (intvec_intersect a (y :: b)) ->
     P (x :: a) (y :: b) (intvec_intersect a (y :: b))) ->
  (forall x a y b, 0 < wrap32 (x - y) ->
     P (x :: a) b (intvec_intersect (x :: a) b) ->
     P (x :: a) (y :: b) (intvec_intersect (x :: a) b)) ->
  forall a b, P a b (intvec_intersect a b).
Proof.
  intros Hnl Hnr Heq Hlt Hgt.
  induction a as [|x a IHa]; intros b; [rewrite intersect_nil_l; apply Hnl|].
  induction b as [|y b IHb]; [rewrite intersect_nil_r; apply Hnr|].
  rewrite intersect_cons.
  destruct (Z.eqb_spec (wrap32 (x - y)) 0) as [E|E]; [now apply Heq|].
  destruct (Z.ltb_spec (wrap32 (x - y)) 0) as [L|L].
  - now apply Hlt.
  - apply Hgt; [lia|exact IHb].
Qed.

(** Whatever the values, the result is drawn from [a], in order. *)
Lemma intersect_Forall (P : Z -> Prop) a b :
  Forall P a -> Forall P (intvec_intersect a b).
Proof.
  pattern a, b, (intvec_intersect a b). apply intersect_ind; clear a b; intros.
  - constructor.
  - constructor.
  - inversion H1; subst. constructor; auto.
  - inversion H1; subst. auto.
  - auto.
Qed.

Lemma intersect_incl_l a b z : In z (intvec_intersect a b) -> In z a.
Proof.
  pattern a, b, (intvec_intersect a b). apply intersect_ind; clear a b;
    simpl; intros; intuition.
Qed.

Lemma intersect_sorted a b : ascending a -> ascending (intvec_intersect a b).
Proof.
  unfold ascending.
  pattern a, b, (intvec_intersect a b). apply intersect_ind; clear a b; intros.
  - constructor.
  - constructor.
  - inversion H1; subst. constructor; [auto|].
    now apply intersect_Forall.
  - inversion H1; subst. auto.
  - auto.
Qed.

Lemma diff_fits_cons_l x a b : diff_fits (x :: a) b -> diff_fits a b.
Proof. intros H u v Hu Hv. apply H; simpl; auto. Qed.

Lemma diff_fits_cons_r a y b : diff_fits a (y :: b) -> diff_fits a b.
Proof. intros H u v Hu Hv. apply H; simpl; auto. Qed.

Lemma diff_fits_head x a y b :
  diff_fits (x :: a) (y :: b) -> wrap32 (x - y) = x - y.
Proof.
  intros H. apply wrap32_small.
  specialize (H x y (or_introl eq_refl) (or_introl eq_refl)). lia.
Qed.

Lemma diff_fits_sym a b : diff_fits a b -> diff_fits b a.
Proof.
  intros H y x Hy Hx. specialize (H x y Hx Hy). lia.
Qed.

Lemma ascending_head_lt x a z : ascending (x :: a) -> In z a -> x < z.
Proof.
  intros H Hz. inversion H; subst.
  rewrite Forall_forall in H3. auto.
Qed.

Lemma ascending_tail x a : ascending (x :: a) -> ascending a.
Proof. intros H. now inversion H. Qed.

Lemma intersect_complete a b :
  ascending a -> ascending b -> diff_fits a b ->
  forall z, In z a -> In z b -> In z (intvec_intersect a b).
Proof.
  pattern a, b, (intvec_intersect a b). apply intersect_ind; clear a b.
  - intros b _ _ _ z [].
  - intros a _ _ _ z _ [].
  - intros x a y b E IH Sa Sb F z Hza Hzb.
    rewrite (diff_fits_head _ _ _ _ F) in E.
    assert (x = y) by lia. subst y.
    destruct Hza as [->|Hza]; [now left|].
    destruct Hzb as [->|Hzb].
    + pose proof (ascending_head_lt _ _ _ Sa Hza). lia.
    + right. apply IH; eauto using ascending_tail, diff_fits_cons_l, diff_fits_cons_r.
  - intros x a y b L IH Sa Sb F z Hza Hzb.
    rewrite (diff_fits_head _ _ _ _ F) in L.
    destruct Hza as [->|Hza].
    + destruct Hzb as [->|Hzb]; [lia|].
      pose proof (ascending_head_lt _ _ _ Sb Hzb). lia.
    + apply IH; eauto using ascending_tail, diff_fits_cons_l.
  - intros x a y b G IH Sa Sb F z Hza Hzb.
    rewrite (diff_fits_head _ _ _ _ F) in G.
    destruct Hzb as [->|Hzb].
    + destruct Hza as [->|Hza]; [lia|].
      pose proof (ascending_head_lt _ _ _ Sa Hza). lia.
    + apply IH; eauto using ascending_tail, diff_fits_cons_r.
Qed.

Lemma intersect_incl_r a b z :
  diff_fits a b -> In z (intvec_intersect a b) -> In z b.
Proof.
  pattern a, b, (intvec_intersect a b). apply intersect_ind; clear a b.
  - intros b _ [].
  - intros a _ [].
  - intros x a y b E IH F [->|Hz].
    + rewrite (diff_fits_head _ _ _ _ F) in E. left. lia.
    + right. apply IH; eauto using diff_fits_cons_l, diff_fits_cons_r.
  - intros x a y b L IH F Hz. apply IH; eauto using diff_fits_cons_l.
  - intros x a y b G IH F Hz. right. apply IH; eauto using diff_fits_cons_r.
Qed.

Lemma intersect_comm a b :
  diff_fits a b -> intvec_intersect a b = intvec_intersect b a.
Proof.
  pattern a, b, (intvec_intersect a b). apply intersect_ind; clear a b.
  - intros b _. now rewrite intersect_nil_r.
  - intros a _. now rewrite intersect_nil_l.
  - intros x a y b E IH F.
    pose proof (diff_fits_head _ _ _ _ F) as Hxy.
    pose proof (diff_fits_head _ _ _ _ (diff_fits_sym _ _ F)) as Hyx.
    rewrite Hxy in E. assert (x = y) by lia. subst y.
    rewrite intersect_cons, Z.sub_diag. change (wrap32 0 =? 0) with true. cbv iota.
    f_equal. apply IH; eauto using diff_fits_cons_l, diff_fits_cons_r.
  - intros x a y b L IH F.
    pose proof (diff_fits_head _ _ _ _ F) as Hxy.
    pose proof (diff_fits_head _ _ _ _ (diff_fits_sym _ _ F)) as Hyx.
    rewrite Hxy in L.
    rewrite intersect_cons, Hyx.
    destruct (Z.eqb_spec (y - x) 0); [lia|].
    destruct (Z.ltb_spec (y - x) 0); [lia|].
    apply IH; eauto using diff_fits_cons_l.
  - intros x a y b G IH F.
    pose proof (diff_fits_head _ _ _ _ F) as Hxy.
    pose proof (diff_fits_head _ _ _ _ (diff_fits_sym _ _ F)) as Hyx.
    rewrite Hxy in G.
    rewrite intersect_cons, Hyx.
    destruct (Z.eqb_spec (y - x) 0); [lia|].
    destruct (Z.ltb_spec (y - x) 0); [|lia].
    apply IH; eauto using diff_fits_cons_r.
Qed.

End Intersect.

(** Where no [diff] overflows the scan is right.  For strictly ascending
    [a] and [b] whose values differ by less than 2^31 (vectors of word ids
    are such), [intvec_intersect a b] is strictly ascending, holds exactly
    the values present in both, and does not depend on the order of its
    arguments. *)
Theorem intvec_intersect_spec (a b : IntVec) :
  ascending a -> ascending b -> diff_fits a b ->
  ascending (intvec_intersect a b) /\
  (forall z, In z (intvec_intersect a b) <-> In z a /\ In z b) /\
  intvec_intersect a b = intvec_intersect b a.
Proof.
  intros Sa Sb F. split; [|split].
  - now apply intersect_sorted.
  - intros z. split.
    + intros Hz. split; [eapply intersect_incl_l | eapply intersect_incl_r]; eauto.
    + intros [Hza Hzb]. now apply intersect_complete.
  - now apply intersect_comm.
Qed.

(** C4 fails on the code.  [[INT_MIN; 5]] and [[1; 5]] are strictly
    ascending and 5 is in both.  With [[INT_MIN; 5]] first, [diff] is
    [INT_MIN - 1], which overflows to [INT_MAX]: the cursor of [b] moves
    where the cursor of [a] should, and again at [INT_MIN - 5], so that [b]
    is used up.  With [[1; 5]] first, [1 - INT_MIN] and [5 - INT_MIN]
    overflow to negative values and [a] is used up.  Either way the common
    value is missed and the result is empty. *)
Theorem intvec_intersect_misses_common :
  ascending [-2147483648; 5] /\ ascending [1; 5] /\
  In 5 [-2147483648; 5] /\ In 5 [1; 5] /\
  wrap32 (-2147483648 - 1) = INT_MAX /\
  intvec_intersect [-2147483648; 5] [1; 5] = [] /\
  intvec_intersect [1; 5] [-2147483648; 5] = [].
Proof.
  split; [unfold ascending; repeat constructor; lia|].
  split; [unfold ascending; repeat constructor; lia|].
  split; [right; now left|]. split; [right; now left|].
  split; [reflexivity|]. split; vm_compute; reflexivity.
Qed.

Lemma intvec_intersect_spec_witness :
  ascending (intvec_intersect [1; 3; 5; 7] [3; 4; 5; 8]) /\
  (forall z, In z (intvec_intersect [1; 3; 5; 7] [3; 4; 5; 8]) <->
             In z [1; 3; 5; 7] /\ In z [3; 4; 5; 8]) /\
  intvec_intersect [1; 3; 5; 7] [3; 4; 5; 8] =
  intvec_intersect [3; 4; 5; 8] [1; 3; 5; 7].
Proof.
  apply (intvec_intersect_spec [1; 3; 5; 7] [3; 4; 5; 8]).
  - unfold ascending. repeat constructor; lia.
  - unfold ascending. repeat constructor; lia.
  - intros x y Hx Hy. simpl in Hx, Hy. lia.
Defined.

(* ================================================================== *)
(** * decode *)

Section Codec.

Lemma land_disjoint acc x n :
  0 <= n -> 0 <= acc < 2 ^ n -> Z.land acc (x * 2 ^ n) = 0.
Proof.
  intros Hn Hacc. apply Z.bits_inj'. intros m Hm.
  rewrite Z.land_spec, Z.bits_0.
  destruct (Z.lt_ge_cases m n).
  - rewrite Z.mul_pow2_bits_low by lia. apply andb_false_r.
  - rewrite <- (Z.mod_small acc (2 ^ n)) by lia.
    rewrite Z.mod_pow2_bits_high by lia. reflexivity.
Qed.

Lemma lor_disjoint acc x n :
  0 <= n -> 0 <= acc < 2 ^ n -> Z.lor acc (x * 2 ^ n) = acc + x * 2 ^ n.
Proof.
  intros Hn Hacc. pose proof (Z.add_lor_land acc (x * 2 ^ n)) as H.
  rewrite land_disjoint in H by assumption. lia.
Qed.

Lemma byte_facts_all d : 0 <= d < 32 -> byte_facts d = true.
Proof.
  intros H.
  assert (A : forallb byte_facts (map Z.of_nat (seq 0 32)) = true)
    by (vm_compute; reflexivity).
  rewrite forallb_forall in A. apply A.
  rewrite <- (Z2Nat.id d) by lia. apply in_map, in_seq. lia.
Qed.

Lemma byte_bits d :
  0 <= d < 32 ->
  Z.land (64 + d) 31 = d /\ Z.land (64 + d) 32 = 0 /\
  Z.land (32 + d) 31 = d /\ Z.land (32 + d) 32 = 32 /\
  Z.land (96 + d) 31 = d.
Proof.
  intros H. pose proof (byte_facts_all d H) as B. unfold byte_facts in B.
  repeat rewrite andb_true_iff in B. repeat rewrite Z.eqb_eq in B. tauto.
Qed.

(** ** Reads of a C string *)

Lemma char_at_app pre c rest : char_at (pre ++ c :: rest) (length pre) = Some c.
Proof.
  unfold char_at. rewrite nth_error_app2 by lia.
  now rewrite Nat.sub_diag.
Qed.

Lemma char_at_end enc : char_at enc (length enc) = Some 0.
Proof.
  unfold char_at.
  destruct (nth_error enc (length enc)) eqn:E.
  - assert (nth_error enc (length enc) <> None) by congruence.
    apply nth_error_Some in H. lia.
  - now rewrite Nat.eqb_refl.
Qed.

Lemma char_at_Some enc i c : char_at enc i = Some c -> (i <= length enc)%nat.
Proof.
  unfold char_at. destruct (nth_error enc i) eqn:E.
  - intros _. assert (nth_error enc i <> None) by congruence.
    apply nth_error_Some in H. lia.
  - destruct (Nat.eqb_spec i (length enc)); [lia|discriminate].
Qed.

Lemma char_at_within enc i : (i <= length enc)%nat -> exists c, char_at enc i = Some c.
Proof.
  intros H. unfold char_at. destruct (nth_error enc i) eqn:E; [eauto|].
  apply nth_error_None in E.
  destruct (Nat.eqb_spec i (length enc)); [eauto|lia].
Qed.

Lemma skipn_length_app {A} (pre rest : list A) : skipn (length pre) (pre ++ rest) = rest.
Proof. induction pre; simpl; auto. Qed.

(** ** One iteration of the loop of [decode], case by case *)

Lemma decode_loop_stop f enc i last dec :
  char_at enc i = Some 0 ->
  decode_loop (S f) enc i last 0 dec = Some (Ok dec).
Proof. intros H. simpl. now rewrite H. Qed.

Lemma decode_loop_pending_step f enc i last zr dec :
  (i <= length enc)%nat -> zr <> 0 ->
  decode_loop (S f) enc i last zr dec =
  decode_loop f enc i (wrap32 (last + wrap32 (0 + 1))) (zr - 1)
    (dec ++ [wrap32 (last + wrap32 (0 + 1))]).
Proof.
  intros Hi Hz. destruct (char_at_within enc i Hi) as [c Hc].
  simpl. rewrite Hc.
  destruct (Z.eqb_spec zr 0); [contradiction|].
  rewrite andb_false_r. simpl. now rewrite Nat.add_0_r.
Qed.

Lemma decode_loop_run_step f enc i last dec c :
  char_at enc i = Some c -> 96 <= c ->
  decode_loop (S f) enc i last 0 dec =
  decode_loop f enc (i + 1) (wrap32 (last + wrap32 (0 + 1))) (Z.land c 31)
    (dec ++ [wrap32 (last + wrap32 (0 + 1))]).
Proof.
  intros Hc H96. simpl. rewrite Hc.
  destruct (Z.eqb_spec c 0); [lia|]. simpl.
  destruct (Z.leb_spec 96 c); [|lia]. reflexivity.
Qed.

Lemma decode_loop_varint_step f enc i last dec c d di :
  char_at enc i = Some c -> c <> 0 -> c < 96 ->
  decode_varint (skipn i enc) 0 0 = (d, di) ->
  decode_loop (S f) enc i last 0 dec =
  decode_loop f enc (i + di) (wrap32 (last + wrap32 (d + 1))) 0
    (dec ++ [wrap32 (last + wrap32 (d + 1))]).
Proof.
  intros Hc H0 H96 Hv. simpl. rewrite Hc.
  destruct (Z.eqb_spec c 0); [lia|]. simpl.
  destruct (Z.leb_spec 96 c); [lia|]. rewrite Hv. reflexivity.
Qed.

(** ** The fuel is enough *)

Lemma decode_varint_advances rest : forall k acc d di,
  decode_varint rest k acc = (d, di) -> (k < di)%nat.
Proof.
  induction rest as [|val rest IH]; simpl; intros k acc d di H.
  - inversion H. lia.
  - destruct (Z.land val 32 =? 0).
    + inversion H. lia.
    + apply IH in H. lia.
Qed.

Lemma decode_loop_mono f : forall f' enc i last zr dec r,
  decode_loop f enc i last zr dec = Some r -> (f <= f')%nat ->
  decode_loop f' enc i last zr dec = Some r.
Proof.
  induction f as [|f IH]; intros f' enc i last zr dec r H Hle; [discriminate|].
  destruct f' as [|f']; [lia|].
  simpl in *. destruct (char_at enc i) as [c|]; [|assumption].
  destruct ((c =? 0) && (zr =? 0)); [assumption|].
  destruct (if negb (zr =? 0) then (0, 0%nat, zr - 1) else _)
    as [[delta di] zr'].
  apply IH; [assumption|lia].
Qed.

Lemma land_31_range c : 0 <= Z.land c 31 <= 31.
Proof.
  change (Z.land c 31) with (Z.land c (Z.ones 5)).
  rewrite Z.land_ones by lia. change (2 ^ 5) with 32.
  pose proof (Z.mod_pos_bound c 32 ltac:(lia)). lia.
Qed.

Lemma decode_loop_fuel f : forall enc i last zr dec,
  0 <= zr <= 31 ->
  (32 * (length enc + 1 - i) + Z.to_nat zr < f)%nat ->
  decode_loop f enc i last zr dec <> None.
Proof.
  induction f as [|f IH]; intros enc i last zr dec Hz Hf; [lia|].
  simpl. destruct (char_at enc i) as [c|] eqn:Hc; [|discriminate].
  apply char_at_Some in Hc.
  destruct ((c =? 0) && (zr =? 0)); [discriminate|].
  destruct (Z.eqb_spec zr 0) as [Ez|Ez]; simpl.
  - destruct (Z.leb_spec 96 c).
    + apply IH.
      * apply land_31_range.
      * pose proof (land_31_range c). lia.
    + destruct (decode_varint (skipn i enc) 0 0) as [d di] eqn:Hv.
      apply decode_varint_advances in Hv.
      apply IH; lia.
  - apply IH; lia.
Qed.

Lemma decode_total enc : exists r, decode_loop (decode_fuel enc) enc 0 0 0 [] = Some r.
Proof.
  destruct (decode_loop (decode_fuel enc) enc 0 0 0 []) as [r|] eqn:E; [eauto|].
  exfalso. revert E. apply decode_loop_fuel; unfold decode_fuel; simpl; lia.
Qed.

(** Whatever fuel lets the loop end gives the result of [decode]. *)
Lemma decode_by_fuel enc f r :
  decode_loop f enc 0 0 0 [] = Some r -> decode enc = r.
Proof.
  intros H. unfold decode, intvec_alloc. destruct (decode_total enc) as [r' Hr'].
  rewrite Hr'.
  pose proof (decode_loop_mono _ (Nat.max f (decode_fuel enc)) _ _ _ _ _ _ H
                (Nat.le_max_l _ _)) as H1.
  pose proof (decode_loop_mono _ (Nat.max f (decode_fuel enc)) _ _ _ _ _ _ Hr'
                (Nat.le_max_r _ _)) as H2.
  congruence.
Qed.

(** ** The varint loop reads back what [emit_varint] wrote *)

Lemma pow32_succ k : 2 ^ (5 * Z.of_nat (S k)) = 32 * 2 ^ (5 * Z.of_nat k).
Proof.
  replace (5 * Z.of_nat (S k)) with (5 + 5 * Z.of_nat k) by lia.
  rewrite Z.pow_add_r by lia. reflexivity.
Qed.

Lemma shl32_small x k :
  0 <= x -> x * 2 ^ (5 * Z.of_nat k) < 2147483648 ->
  shl32 x (5 * k) = x * 2 ^ (5 * Z.of_nat k).
Proof.
  intros Hx Hb. unfold shl32.
  rewrite Z.shiftl_mul_pow2 by lia.
  replace (Z.of_nat (5 * k)) with (5 * Z.of_nat k) by lia.
  apply wrap32_small.
  assert (0 < 2 ^ (5 * Z.of_nat k)) by (apply Z.pow_pos_nonneg; lia).
  nia.
Qed.

Lemma log2_div32 d : 32 <= d -> Z.log2 (d / 32) = Z.log2 d - 5.
Proof.
  intros H. change 32 with (2 ^ 5). rewrite <- Z.shiftr_div_pow2 by lia.
  rewrite Z.log2_shiftr by lia.
  assert (5 <= Z.log2 d) by (apply Z.log2_le_pow2; [lia|exact H]).
  lia.
Qed.

Lemma decode_varint_cons val rest k acc :
  decode_varint (val :: rest) k acc =
  let delta' := Z.lor acc (shl32 (Z.land val 31) (5 * k)) in
  if Z.land val 32 =? 0 then (delta', S k)
  else decode_varint rest (S k) delta'.
Proof. reflexivity. Qed.

Lemma emit_varint_S fuel d :
  emit_varint (S fuel) d =
  if d <? 32 then [64 + d] else (32 + d mod 32) :: emit_varint fuel (d / 32).
Proof. reflexivity. Qed.

Lemma decode_varint_emit fuel : forall d rest k acc,
  (Z.to_nat (Z.log2 d) < fuel)%nat -> 0 <= d ->
  0 <= acc < 2 ^ (5 * Z.of_nat k) ->
  acc + d * 2 ^ (5 * Z.of_nat k) < 2147483648 ->
  decode_varint (emit_varint fuel d ++ rest) k acc =
  (acc + d * 2 ^ (5 * Z.of_nat k), (k + length (emit_varint fuel d))%nat).
Proof.
  induction fuel as [|fuel IH]; intros d rest k acc Hf Hd Hacc Hb; [lia|].
  assert (Hp : 0 < 2 ^ (5 * Z.of_nat k)) by (apply Z.pow_pos_nonneg; lia).
  rewrite emit_varint_S. destruct (Z.ltb_spec d 32) as [Hlt|Hge]; cbv iota.
  - destruct (byte_bits d ltac:(lia)) as (B1 & B2 & _).
    change ([64 + d] ++ rest) with ((64 + d) :: rest).
    rewrite decode_varint_cons. cbv zeta. rewrite B1, B2.
    change (0 =? 0) with true. cbv iota.
    rewrite shl32_small by nia.
    rewrite lor_disjoint by lia.
    f_equal. simpl length. lia.
  - pose proof (Z.mod_pos_bound d 32 ltac:(lia)) as Hm.
    pose proof (Z.div_mod d 32 ltac:(lia)) as Hdm.
    destruct (byte_bits (d mod 32) Hm) as (_ & _ & B3 & B4 & _).
    rewrite <- app_comm_cons.
    rewrite decode_varint_cons. cbv zeta. rewrite B3, B4.
    change (32 =? 0) with false. cbv iota.
    rewrite shl32_small by nia.
    rewrite lor_disjoint by lia.
    simpl length.
    rewrite IH.
    + f_equal; [|lia]. rewrite pow32_succ. nia.
    + rewrite log2_div32 by lia.
      assert (5 <= Z.log2 d) by (apply Z.log2_le_pow2; [lia|exact Hge]). lia.
    + apply Z.div_pos; lia.
    + rewrite pow32_succ. nia.
    + rewrite pow32_succ. nia.
Qed.

Lemma decode_varint_varint d rest :
  0 <= d < 2147483648 ->
  decode_varint (varint d ++ rest) 0 0 = (d, length (varint d)).
Proof.
  intros H. unfold varint.
  rewrite decode_varint_emit; simpl; try lia.
  f_equal. lia.
Qed.

Lemma varint_head d :
  0 <= d -> exists c tl, varint d = c :: tl /\ 32 <= c < 96.
Proof.
  intros H. unfold varint. rewrite emit_varint_S.
  destruct (Z.ltb_spec d 32).
  - exists (64 + d), []. split; [reflexivity|lia].
  - pose proof (Z.mod_pos_bound d 32 ltac:(lia)).
    exists (32 + d mod 32). eexists. split; [reflexivity|lia].
Qed.

(** ** The loop of [decode] on the tokens of the encoder *)

Lemma decode_loop_pending k : forall f enc i last dec,
  (i <= length enc)%nat -> -2147483648 <= last ->
  last + Z.of_nat k < 2147483648 ->
  decode_loop (k + f) enc i last (Z.of_nat k) dec =
  decode_loop f enc i (last + Z.of_nat k) 0 (dec ++ count_up last k).
Proof.
  induction k as [|k IH]; intros f enc i last dec Hi Hl Hb.
  - simpl. now rewrite Z.add_0_r, app_nil_r.
  - change (S k + f)%nat with (S (k + f)).
    rewrite decode_loop_pending_step by lia.
    rewrite (wrap32_small (0 + 1)) by lia.
    rewrite (wrap32_small (last + (0 + 1))) by lia.
    replace (Z.of_nat (S k) - 1) with (Z.of_nat k) by lia.
    rewrite IH by lia.
    simpl count_up. rewrite <- app_assoc. simpl app.
    replace (last + (0 + 1)) with (last + 1) by lia.
    replace (last + 1 + Z.of_nat k) with (last + Z.of_nat (S k)) by lia.
    reflexivity.
Qed.

Lemma decode_loop_tokens ts : forall pre last dec,
  0 <= last -> tokens_ok last ts ->
  exists fuel,
    decode_loop fuel (pre ++ flat_map emit ts) (length pre) last 0 dec =
    Some (Ok (dec ++ decoded last ts)).
Proof.
  induction ts as [|t ts IH]; intros pre last dec Hl Hok.
  - exists 1%nat. cbn [flat_map]. rewrite app_nil_r.
    rewrite decode_loop_stop by apply char_at_end.
    cbn [decoded]. now rewrite app_nil_r.
  - destruct t as [n|d]; cbn [tokens_ok] in Hok; destruct Hok as (Hn & Hb & Hok);
      unfold INT_MAX in Hb.
    + (* a run-length byte and its pending zeros *)
      destruct (IH (pre ++ emit (Run n)) (last + n)
                  (dec ++ count_up last (Z.to_nat n))
                  ltac:(lia) Hok) as [fuel Hfuel].
      exists (S (Z.to_nat (n - 1) + fuel)).
      cbn [flat_map emit decoded] in *.
      rewrite (decode_loop_run_step _ _ _ _ _ (96 + (n - 1)))
        by (try apply char_at_app; lia).
      destruct (byte_bits (n - 1) ltac:(lia)) as (_ & _ & _ & _ & B5).
      rewrite B5.
      rewrite (wrap32_small (0 + 1)) by lia.
      rewrite (wrap32_small (last + (0 + 1))) by lia.
      pose proof (decode_loop_pending (Z.to_nat (n - 1)) fuel
                    (pre ++ [96 + (n - 1)] ++ flat_map emit ts)
                    (length pre + 1) (last + (0 + 1))
                    (dec ++ [last + (0 + 1)])) as P.
      rewrite Z2Nat.id in P by lia.
      rewrite P; [|rewrite length_app; cbn [length app]; lia|lia|lia].
      clear P.
      rewrite <- app_assoc in Hfuel. cbn [app] in Hfuel.
      rewrite length_app in Hfuel. cbn [length] in Hfuel.
      replace (last + (0 + 1) + (n - 1)) with (last + n) by lia.
      rewrite <- app_assoc. cbn [app].
      replace ((last + (0 + 1)) :: count_up (last + (0 + 1)) (Z.to_nat (n - 1)))
        with (count_up last (Z.to_nat n)).
      * rewrite Hfuel. rewrite <- !app_assoc. reflexivity.
      * replace (Z.to_nat n) with (S (Z.to_nat (n - 1))) by lia.
        cbn [count_up]. replace (last + (0 + 1)) with (last + 1) by lia.
        reflexivity.
    + (* a varint *)
      destruct (IH (pre ++ emit (Delta d)) (last + d + 1)
                  (dec ++ [last + d + 1]) ltac:(lia) Hok) as [fuel Hfuel].
      exists (S fuel).
      cbn [flat_map emit decoded] in *.
      destruct (varint_head d ltac:(lia)) as (c & tl & Hv & Hc).
      rewrite (decode_loop_varint_step _ _ _ _ _ c d (length (varint d))).
      * rewrite (wrap32_small (d + 1)) by lia.
        rewrite (wrap32_small (last + (d + 1))) by lia.
        rewrite <- app_assoc in Hfuel. rewrite length_app in Hfuel.
        replace (last + (d + 1)) with (last + d + 1) by lia.
        rewrite Hfuel. rewrite <- app_assoc. reflexivity.
      * rewrite Hv. cbn [app]. apply char_at_app.
      * lia.
      * lia.
      * rewrite skipn_length_app. apply decode_varint_varint. lia.
Qed.

(** ** The tokens of the encoder stand for the sequence encoded *)

Lemma count_up_snoc n : forall from,
  count_up from (S n) = count_up from n ++ [from + Z.of_nat n + 1].
Proof.
  induction n as [|n IH]; intros from.
  - cbn [count_up app Z.of_nat]. now rewrite Z.add_0_r.
  - change (count_up from (S (S n)))
      with ((from + 1) :: count_up (from + 1) (S n)).
    rewrite IH. cbn [count_up app]. do 3 f_equal. lia.
Qed.

Lemma contract_decoded s : forall run last,
  0 <= run <= 32 -> 0 <= last - run -> last <= INT_MAX ->
  ascending_from last s ->
  tokens_ok (last - run) (contract run (adjusted_deltas last s)) /\
  decoded (last - run) (contract run (adjusted_deltas last s)) =
  count_up (last - run) (Z.to_nat run) ++ s.
Proof.
  induction s as [|x s IH]; intros run last Hrun Hbase Hmax Hs.
  - cbn [adjusted_deltas contract]. unfold flush_run.
    destruct (Z.eqb_spec run 0) as [->|Hr].
    + cbn. auto.
    + cbn [tokens_ok decoded]. rewrite !app_nil_r.
      repeat split; lia.
  - cbn [ascending_from] in Hs. destruct Hs as [Hx Hs].
    cbn [adjusted_deltas contract].
    destruct (Z.eqb_spec (x - last - 1) 0) as [Hd|Hd].
    + assert (x = last + 1) by lia. subst x.
      destruct (Z.eqb_spec run 32) as [->|Hr].
      * destruct (IH 1 (last + 1) ltac:(lia) ltac:(lia) ltac:(lia) Hs) as [T D].
        replace (last + 1 - 1) with (last - 32 + 32) in T, D by lia.
        cbn [tokens_ok decoded]. rewrite D.
        split; [repeat split; try lia; exact T|].
        change (Z.to_nat 1) with 1%nat. cbn [count_up app].
        do 2 f_equal. lia.
      * destruct (IH (run + 1) (last + 1) ltac:(lia) ltac:(lia) ltac:(lia) Hs)
          as [T D].
        replace (last + 1 - (run + 1)) with (last - run) in T, D by lia.
        split; [exact T|]. rewrite D.
        replace (Z.to_nat (run + 1)) with (S (Z.to_nat run)) by lia.
        rewrite count_up_snoc, <- app_assoc. cbn [app]. do 3 f_equal. lia.
    + destruct (IH 0 x ltac:(lia) ltac:(lia) ltac:(lia) Hs) as [T D].
      rewrite Z.sub_0_r in T, D. change (Z.to_nat 0) with 0%nat in D.
      cbn [count_up app] in D.
      unfold flush_run. destruct (Z.eqb_spec run 0) as [->|Hr].
      * rewrite Z.sub_0_r. cbn [app tokens_ok decoded Z.to_nat count_up].
        replace (last + (x - last - 1) + 1) with x by lia.
        rewrite D. repeat split; try lia. exact T.
      * cbn [app tokens_ok decoded].
        replace (last - run + run) with last by lia.
        replace (last + (x - last - 1) + 1) with x by lia.
        rewrite D. repeat split; try lia. exact T.
Qed.

Lemma ascending_ascending_from s : forall prev,
  ascending s -> Forall (fun x => prev < x <= INT_MAX) s ->
  ascending_from prev s.
Proof.
  induction s as [|x s IH]; intros prev Hs Hf; [exact I|].
  inversion Hs as [|? ? Hs' Hlt]; subst. inversion Hf as [|? ? Hx Hf']; subst.
  split; [exact Hx|]. apply IH; [exact Hs'|].
  rewrite Forall_forall in *. intros y Hy.
  specialize (Hlt y Hy). specialize (Hf' y Hy). lia.
Qed.

End Codec.

(** C1.  The round trip: for every strictly ascending sequence [s] of
    positive integers (of the type [int], as the vector holds them), the
    decoder gives [s] back from the encoding of [s]. *)
Theorem decode_encode_roundtrip (s : list Z) :
  ascending s -> Forall (fun x => 0 < x <= INT_MAX) s ->
  decode (encode s) = Ok s.
Proof.
  intros Hs Hf.
  pose proof (ascending_ascending_from s 0 Hs Hf) as Ha.
  destruct (contract_decoded s 0 0 ltac:(lia) ltac:(lia)
              ltac:(unfold INT_MAX; lia) Ha) as [T D].
  rewrite Z.sub_0_r in T, D. change (Z.to_nat 0) with 0%nat in D.
  cbn [count_up app] in D.
  destruct (decode_loop_tokens _ [] 0 [] ltac:(lia) T) as [fuel Hfuel].
  cbn [app length] in Hfuel. rewrite D in Hfuel.
  exact (decode_by_fuel _ _ _ Hfuel).
Qed.

Lemma decode_encode_roundtrip_witness :
  decode (encode [1; 2; 3; 5; 80]) = Ok [1; 2; 3; 5; 80].
Proof.
  apply (decode_encode_roundtrip [1; 2; 3; 5; 80]).
  - unfold ascending. repeat constructor; lia.
  - repeat constructor; unfold INT_MAX; lia.
Defined.

(** C9.  The thirty-two integers 100..131 are encoded as the varint of 99
    followed by one run-length byte for the 31 zero deltas; the decoder
    gives the thirty-two values back, the last thirty-one of them from
    that one byte. *)
Theorem decode_run_100_131 :
  contract 0 (adjusted_deltas 0 (map Z.of_nat (seq 100 32))) = [Delta 99; Run 31] /\
  encode (map Z.of_nat (seq 100 32)) = [35; 67; 126] /\
  decode [35; 67; 126] = Ok (map Z.of_nat (seq 100 32)) /\
  decode_loop 32 [35; 67; 126] 2 100 0 [100] = Some (Ok (map Z.of_nat (seq 100 32))) /\
  decode_loop 31 [35; 67; 126] 3 101 30 [100; 101] = Some (Ok (map Z.of_nat (seq 100 32))).
Proof. repeat split; vm_compute; reflexivity. Qed.

(** C6 fails on the code.  On the one-byte string [" "] (0x20, the
    continuation bit set, then the terminator at index 1) the varint loop
    takes the terminator as the last byte of the varint, [enc_ind] becomes
    2, and the loop condition reads [enc[2]], past the terminator. *)
Theorem decode_reads_past_terminator :
  char_at [32] 1 = Some 0 /\
  decode_varint (skipn 0 [32]) 0 0 = (0, 2%nat) /\
  char_at [32] 2 = None /\
  decode [32] = OutOfBounds.
Proof. repeat split; vm_compute; reflexivity. Qed.


(* ================================================================== *)
(** * The edit distance *)

Section Levenshtein.

Lemma lev_nil_l b : lev [] b = Z.of_nat (length b).
Proof. reflexivity. Qed.

Lemma lev_nil_r a : lev a [] = Z.of_nat (length a).
Proof. destruct a; reflexivity. Qed.

Lemma lev_cons x a y b :
  lev (x :: a) (y :: b) =
  Z.min (lev a (y :: b) + 1)
        (Z.min (lev (x :: a) b + 1) (lev a b + (if x =? y then 0 else 1))).
Proof. reflexivity. Qed.

(** Induction on two strings at once, as the recurrence goes. *)
Lemma two_strings_ind (P : cstring -> cstring -> Prop) :
  (forall b, P [] b) ->
  (forall a, P a []) ->
  (forall x a y b, P a (y :: b) -> P (x :: a) b -> P a b -> P (x :: a) (y :: b)) ->
  forall a b, P a b.
Proof.
  intros Hl Hr Hc. induction a as [|x a IHa]; [exact Hl|].
  induction b as [|y b IHb]; [apply Hr|]. apply Hc; auto.
Qed.

Lemma lev_nonneg a b : 0 <= lev a b.
Proof.
  revert a b. apply two_strings_ind; intros.
  - rewrite lev_nil_l. lia.
  - rewrite lev_nil_r. lia.
  - rewrite lev_cons. destruct (x =? y); lia.
Qed.

Lemma lev_le_max a b : lev a b <= Z.max (Z.of_nat (length a)) (Z.of_nat (length b)).
Proof.
  revert a b. apply two_strings_ind; intros.
  - rewrite lev_nil_l. lia.
  - rewrite lev_nil_r. lia.
  - rewrite lev_cons. cbn [length]. destruct (x =? y); lia.
Qed.

Lemma lev_refl a : lev a a = 0.
Proof.
  induction a as [|x a IH]; [reflexivity|].
  rewrite lev_cons, IH, Z.eqb_refl.
  pose proof (lev_nonneg a (x :: a)). pose proof (lev_nonneg (x :: a) a). lia.
Qed.

Lemma lev_zero a b : lev a b = 0 -> a = b.
Proof.
  revert a b. apply (two_strings_ind (fun a b => lev a b = 0 -> a = b)).
  - intros b. rewrite lev_nil_l. destruct b; cbn [length]; [reflexivity|lia].
  - intros a. rewrite lev_nil_r. destruct a; cbn [length]; [reflexivity|lia].
  - intros x a y b _ _ IH. rewrite lev_cons.
    pose proof (lev_nonneg a (y :: b)). pose proof (lev_nonneg (x :: a) b).
    pose proof (lev_nonneg a b).
    destruct (Z.eqb_spec x y); intros Hz; [|lia].
    subst y. f_equal. apply IH. lia.
Qed.

(** ** The recurrence against the edit scripts *)

Lemma lev_edits a b : edits a b (lev a b).
Proof.
  revert a b. apply (two_strings_ind (fun a b => edits a b (lev a b))).
  - induction b as [|y b IH]; [constructor|].
    rewrite lev_nil_l in *. cbn [length]. rewrite Nat2Z.inj_succ, <- Z.add_1_r.
    now constructor.
  - induction a as [|x a IH]; [constructor|].
    rewrite lev_nil_r in *. cbn [length]. rewrite Nat2Z.inj_succ, <- Z.add_1_r.
    now constructor.
  - intros x a y b Hd Hi Hs. rewrite lev_cons.
    destruct (Z.min_spec (lev a (y :: b) + 1)
                (Z.min (lev (x :: a) b + 1) (lev a b + (if x =? y then 0 else 1))))
      as [[_ ->]|[_ ->]]; [now constructor|].
    destruct (Z.min_spec (lev (x :: a) b + 1) (lev a b + (if x =? y then 0 else 1)))
      as [[_ ->]|[_ ->]]; [now constructor|].
    destruct (Z.eqb_spec x y) as [->|Hxy].
    + rewrite Z.add_0_r. now constructor.
    + now constructor.
Qed.

Lemma lev_delete_le x a b : lev (x :: a) b <= lev a b + 1.
Proof.
  destruct b as [|y b].
  - rewrite !lev_nil_r. cbn [length]. lia.
  - rewrite lev_cons. lia.
Qed.

Lemma lev_insert_le a y b : lev a (y :: b) <= lev a b + 1.
Proof.
  destruct a as [|x a].
  - rewrite !lev_nil_l. cbn [length]. lia.
  - rewrite lev_cons. lia.
Qed.

Lemma edits_lev a b n : edits a b n -> lev a b <= n.
Proof.
  induction 1.
  - reflexivity.
  - pose proof (lev_delete_le x a b). lia.
  - pose proof (lev_insert_le a y b). lia.
  - rewrite lev_cons, Z.eqb_refl. lia.
  - rewrite lev_cons. destruct (Z.eqb_spec x y); lia.
Qed.

(** [lev a b] is the length of a shortest edit script from [a] to [b]. *)
Lemma lev_least a b :
  edits a b (lev a b) /\ forall n, edits a b n -> lev a b <= n.
Proof. split; [apply lev_edits|apply edits_lev]. Qed.

Lemma edits_sym a b n : edits a b n -> edits b a n.
Proof.
  induction 1.
  - apply edits_nil.
  - now apply edits_insert.
  - now apply edits_delete.
  - now apply edits_keep.
  - apply edits_substitute; auto.
Qed.

Lemma edits_app a b n c d m :
  edits a b n -> edits c d m -> edits (a ++ c) (b ++ d) (n + m).
Proof.
  intros H Hcd. induction H; cbn [app].
  - exact Hcd.
  - replace (n + 1 + m) with (n + m + 1) by lia. now constructor.
  - replace (n + 1 + m) with (n + m + 1) by lia. now constructor.
  - now constructor.
  - replace (n + 1 + m) with (n + m + 1) by lia. now constructor.
Qed.

Lemma edits_rev a b n : edits a b n -> edits (rev a) (rev b) n.
Proof.
  induction 1; cbn [rev].
  - constructor.
  - rewrite <- (app_nil_r (rev b)).
    apply edits_app; [assumption|]. apply (edits_delete x [] [] 0). constructor.
  - rewrite <- (app_nil_r (rev a)).
    apply edits_app; [assumption|]. apply (edits_insert y [] [] 0). constructor.
  - rewrite <- (Z.add_0_r n).
    apply edits_app; [assumption|]. apply (edits_keep x [] [] 0). constructor.
  - apply edits_app; [assumption|].
    apply (edits_substitute x y [] [] 0); [constructor|assumption].
Qed.

Lemma lev_sym a b : lev a b = lev b a.
Proof.
  apply Z.le_antisymm; apply edits_lev, edits_sym, lev_edits.
Qed.

Lemma lev_rev a b : lev (rev a) (rev b) = lev a b.
Proof.
  apply Z.le_antisymm.
  - apply edits_lev, edits_rev, lev_edits.
  - rewrite <- (rev_involutive a) at 1. rewrite <- (rev_involutive b) at 1.
    apply edits_lev, edits_rev, lev_edits.
Qed.

Lemma edits_length a b n :
  edits a b n ->
  Z.of_nat (length a) - Z.of_nat (length b) <= n /\
  Z.of_nat (length b) - Z.of_nat (length a) <= n.
Proof. induction 1; cbn [length]; lia. Qed.

Lemma lev_length_diff a b :
  Z.of_nat (length a) - Z.of_nat (length b) <= lev a b.
Proof. apply (edits_length a b (lev a b)), lev_edits. Qed.

End Levenshtein.

(* ================================================================== *)
(** * edit_distance computes the Levenshtein distance *)

Section EditDistance.

Lemma lev_fits a b :
  Z.of_nat (length a) < 2147483647 -> Z.of_nat (length b) < 2147483647 ->
  0 <= lev a b < 2147483647.
Proof.
  intros Ha Hb. pose proof (lev_nonneg a b). pose proof (lev_le_max a b). lia.
Qed.

Lemma edit_inner_spec a : forall ra rb bi,
  Z.of_nat (length a) + Z.of_nat (length ra) < 2147483647 ->
  Z.of_nat (length rb) + 1 < 2147483647 ->
  edit_inner a bi (lev ra rb) (lev ra (bi :: rb)) (row_from a ra rb) =
  row_from a ra (bi :: rb).
Proof.
  induction a as [|x a IH]; intros ra rb bi Ha Hb; [reflexivity|].
  cbn [length] in Ha. cbn [row_from edit_inner].
  pose proof (lev_fits (x :: ra) rb ltac:(cbn [length]; lia) ltac:(lia)) as F1.
  pose proof (lev_fits ra (bi :: rb) ltac:(lia) ltac:(cbn [length]; lia)) as F2.
  pose proof (lev_fits ra rb ltac:(lia) ltac:(lia)) as F3.
  rewrite !wrap32_small by lia. rewrite !min_is_Zmin.
  assert (E : Z.min (lev (x :: ra) rb + 1)
                (Z.min (lev ra (bi :: rb) + 1)
                   (if negb (x =? bi) then lev ra rb + 1 else lev ra rb)) =
              lev (x :: ra) (bi :: rb)).
  { rewrite lev_cons. destruct (x =? bi); cbn [negb]; lia. }
  rewrite E. f_equal. apply IH; cbn [length]; lia.
Qed.

Lemma edit_outer_spec b : forall a rb,
  Z.of_nat (length a) < 2147483647 ->
  Z.of_nat (length b) + Z.of_nat (length rb) < 2147483647 ->
  edit_outer a b (Z.of_nat (length rb) + 1) (lev [] rb :: row_from a [] rb) =
  lev [] (rev b ++ rb) :: row_from a [] (rev b ++ rb).
Proof.
  induction b as [|bi b IH]; intros a rb Ha Hb; [reflexivity|].
  cbn [length] in Hb. cbn [edit_outer].
  rewrite !wrap32_small by lia.
  rewrite Z.mul_1_r.
  replace (Z.of_nat (length rb) + 1) with (lev [] (bi :: rb))
    by (rewrite lev_nil_l; cbn [length]; lia).
  rewrite edit_inner_spec by (cbn [length]; lia).
  replace (lev [] (bi :: rb) + 1) with (Z.of_nat (length (bi :: rb)) + 1)
    by (rewrite lev_nil_l; reflexivity).
  rewrite IH by (cbn [length]; lia).
  cbn [rev]. now rewrite <- app_assoc.
Qed.

Lemma init_cost_row a : forall ra,
  Z.of_nat (length a) + Z.of_nat (length ra) < 2147483647 ->
  map (fun i => wrap32 (Z.of_nat i * 1)) (seq (S (length ra)) (length a)) =
  row_from a ra [].
Proof.
  induction a as [|x a IH]; intros ra H; [reflexivity|].
  cbn [length] in H. cbn [length seq map row_from].
  rewrite lev_nil_r. cbn [length].
  rewrite wrap32_small by lia. rewrite Z.mul_1_r. f_equal.
  apply (IH (x :: ra)). cbn [length]. lia.
Qed.

Lemma init_cost_spec a :
  Z.of_nat (length a) < 2147483647 ->
  init_cost (strlen a) = lev [] [] :: row_from a [] [].
Proof.
  intros H. unfold init_cost, strlen.
  rewrite (wrap32_small (Z.of_nat (length a))) by lia.
  rewrite (wrap32_small (Z.of_nat (length a) + 1)) by lia.
  replace (Z.to_nat (Z.of_nat (length a) + 1)) with (S (length a)) by lia.
  cbn [seq map]. rewrite wrap32_small by lia.
  f_equal. apply (init_cost_row a []). cbn [length]. lia.
Qed.

Lemma row_last a : forall ra rb,
  nth (length a) (lev ra rb :: row_from a ra rb) 0 = lev (rev a ++ ra) rb.
Proof.
  induction a as [|x a IH]; intros ra rb; [reflexivity|].
  cbn [length row_from rev]. rewrite <- app_assoc. cbn [app].
  rewrite <- IH. reflexivity.
Qed.

(** [edit_distance] is the Levenshtein distance, for strings shorter than
    [INT_MAX]. *)
Lemma edit_distance_lev a b :
  Z.of_nat (length a) < INT_MAX -> Z.of_nat (length b) < INT_MAX ->
  edit_distance a b = lev a b.
Proof.
  unfold INT_MAX. intros Ha Hb. unfold edit_distance.
  assert (Sa : strlen a = Z.of_nat (length a))
    by (unfold strlen; apply wrap32_small; lia).
  assert (Sb : strlen b = Z.of_nat (length b))
    by (unfold strlen; apply wrap32_small; lia).
  destruct (Z.ltb_spec (strlen b) (strlen a)) as [Hlt|Hge].
  - rewrite init_cost_spec by lia.
    pose proof (edit_outer_spec a b [] ltac:(lia) ltac:(cbn [length]; lia)) as E.
    cbn [length] in E. change (Z.of_nat 0 + 1) with 1 in E. rewrite E.
    rewrite Sb, Nat2Z.id, row_last, !app_nil_r, lev_rev. apply lev_sym.
  - rewrite init_cost_spec by lia.
    pose proof (edit_outer_spec b a [] ltac:(lia) ltac:(cbn [length]; lia)) as E.
    cbn [length] in E. change (Z.of_nat 0 + 1) with 1 in E. rewrite E.
    rewrite Sa, Nat2Z.id, row_last, !app_nil_r. apply lev_rev.
Qed.

End EditDistance.

(* ================================================================== *)
(** * wordgraph_find_word *)

Section FindWord.

Variable query : cstring.

Let dist (w : cstring) : Z := edit_distance query w.

(** The scan either keeps the best so far, every word being no nearer, or
    ends on the first of the nearest words, nearer than the best so far. *)
Lemma find_word_loop_spec ws : forall i bw bd,
  (find_word_loop query ws i bw bd = bw /\
   forall k, (k < length ws)%nat -> bd <= dist (nth k ws []))
  \/
  (exists k, (k < length ws)%nat /\
     find_word_loop query ws i bw bd = i + Z.of_nat k /\
     dist (nth k ws []) < bd /\
     (forall k', (k' < length ws)%nat -> dist (nth k ws []) <= dist (nth k' ws [])) /\
     (forall k', (k' < k)%nat -> dist (nth k ws []) < dist (nth k' ws []))).
Proof.
  induction ws as [|w ws IH]; intros i bw bd.
  - left. split; [reflexivity|]. cbn [length]. intros k Hk. lia.
  - cbn [find_word_loop]. fold (dist w).
    destruct (Z.ltb_spec (dist w) bd) as [Hlt|Hge].
    + destruct (IH (i + 1) i (dist w)) as [[Hr Hall]|(k & Hk & Hr & Hd & Hmin & Hfirst)].
      * right. exists 0%nat. cbn [length nth]. repeat split.
        -- lia.
        -- rewrite Hr. lia.
        -- exact Hlt.
        -- intros [|k'] Hk'; [lia|]. apply Hall. cbn [length] in Hk'. lia.
        -- intros k' Hk'. lia.
      * right. exists (S k). cbn [length nth]. repeat split.
        -- lia.
        -- rewrite Hr. lia.
        -- lia.
        -- intros [|k'] Hk'; [lia|]. apply Hmin. cbn [length] in Hk'. lia.
        -- intros [|k'] Hk'; [lia|]. apply Hfirst. lia.
    + destruct (IH (i + 1) bw bd) as [[Hr Hall]|(k & Hk & Hr & Hd & Hmin & Hfirst)].
      * left. split; [exact Hr|].
        intros [|k'] Hk'; cbn [nth]; [exact Hge|]. apply Hall. cbn [length] in Hk'. lia.
      * right. exists (S k). cbn [length nth]. repeat split.
        -- lia.
        -- rewrite Hr. lia.
        -- exact Hd.
        -- intros [|k'] Hk'; [lia|]. apply Hmin. cbn [length] in Hk'. lia.
        -- intros [|k'] Hk'; [lia|]. apply Hfirst. lia.
Qed.

End FindWord.

Lemma word_of_tl g i :
  1 <= i -> word_of g i = nth (Z.to_nat (i - 1)) (tl (words g)) [].
Proof.
  intros H. unfold word_of.
  replace (Z.to_nat i) with (S (Z.to_nat (i - 1))) by lia.
  destruct (words g); [now destruct (Z.to_nat (i - 1))|reflexivity].
Qed.

Lemma n_words_tl g : Z.of_nat (length (tl (words g))) = Z.max 0 (n_words g - 1).
Proof. unfold n_words. destruct (words g); cbn [tl length]; lia. Qed.

Lemma words_fit g i :
  Forall (fun w => Z.of_nat (length w) < INT_MAX) (words g) ->
  Z.of_nat (length (word_of g i)) < INT_MAX.
Proof.
  intros F. unfold word_of.
  destruct (Nat.lt_ge_cases (Z.to_nat i) (length (words g))) as [Hlt|Hge].
  - rewrite Forall_forall in F. apply F. now apply nth_In.
  - rewrite nth_overflow by assumption. unfold INT_MAX. cbn [length]. lia.
Qed.

(** Where the threshold does not come into play the matcher is right.
    When some word of the dictionary is at an edit distance below 10000
    from the query, [wordgraph_find_word] returns the least id of
    [1, n_words) among those whose word is at the least Levenshtein
    distance from the query; and a query that is a word of the dictionary
    gets an id of that very word, the least one, at distance 0.  (Strings
    are shorter than [INT_MAX], as [int n = strlen(a)] needs.) *)
Theorem wordgraph_find_word_nearest (g : WordGraph) (query : cstring) :
  Z.of_nat (length query) < INT_MAX ->
  Forall (fun w => Z.of_nat (length w) < INT_MAX) (words g) ->
  (exists i, 1 <= i < n_words g /\ lev query (word_of g i) < 10000) ->
  nearest g query (wordgraph_find_word g query) /\
  (forall i, 1 <= i < n_words g -> word_of g i = query ->
     wordgraph_find_word g query <= i /\
     word_of g (wordgraph_find_word g query) = query /\
     edit_distance query (word_of g (wordgraph_find_word g query)) = 0).
Proof.
  intros Hq Hw (i0 & Hi0 & Hnear).
  assert (D : forall i, edit_distance query (word_of g i) = lev query (word_of g i)).
  { intros i. apply edit_distance_lev; [exact Hq|now apply words_fit]. }
  pose proof (n_words_tl g) as Hn.
  assert (N : nearest g query (wordgraph_find_word g query)).
  { unfold wordgraph_find_word.
    destruct (find_word_loop_spec query (tl (words g)) 1 0 10000)
      as [[_ Hall]|(k & Hk & Hr & Hd & Hmin & Hfirst)].
    - exfalso. specialize (Hall (Z.to_nat (i0 - 1)) ltac:(lia)).
      rewrite <- word_of_tl, D in Hall by lia. lia.
    - rewrite Hr. unfold nearest.
      assert (Wk : nth k (tl (words g)) [] = word_of g (1 + Z.of_nat k)).
      { rewrite word_of_tl by lia. f_equal. lia. }
      rewrite Wk in *. rewrite D in *.
      split; [lia|]. split.
      + intros i Hi. specialize (Hmin (Z.to_nat (i - 1)) ltac:(lia)).
        rewrite <- word_of_tl, D in Hmin by lia. exact Hmin.
      + intros i Hi. specialize (Hfirst (Z.to_nat (i - 1)) ltac:(lia)).
        rewrite <- word_of_tl, D in Hfirst by lia. exact Hfirst. }
  split; [exact N|].
  intros i Hi Hword. destruct N as (Hr & Hmin & Hfirst).
  specialize (Hmin i Hi). rewrite Hword, lev_refl in Hmin.
  pose proof (lev_nonneg query (word_of g (wordgraph_find_word g query))) as H0.
  assert (Z0 : lev query (word_of g (wordgraph_find_word g query)) = 0) by lia.
  repeat split.
  - destruct (Z.le_gt_cases (wordgraph_find_word g query) i) as [?|Hgt]; [assumption|].
    specialize (Hfirst i ltac:(lia)). rewrite Hword, lev_refl in Hfirst. lia.
  - symmetry. now apply lev_zero.
  - now rewrite D.
Qed.

(** A query far from every word: [best_dist] is never improved on. *)
Lemma find_word_far g query :
  Z.of_nat (length query) < INT_MAX ->
  Forall (fun w => Z.of_nat (length w) + 10000 <= Z.of_nat (length query))
         (tl (words g)) ->
  wordgraph_find_word g query = 0.
Proof.
  intros Hq Hfar. unfold wordgraph_find_word.
  destruct (find_word_loop_spec query (tl (words g)) 1 0 10000)
    as [[Hr _]|(k & Hk & _ & Hd & _)]; [exact Hr|exfalso].
  rewrite Forall_forall in Hfar.
  specialize (Hfar (nth k (tl (words g)) []) (nth_In _ _ Hk)).
  rewrite edit_distance_lev in Hd by lia.
  pose proof (lev_length_diff query (nth k (tl (words g)) [])). lia.
Qed.

(* ================================================================== *)
(** * wordgraph_init *)

Section Init.

Lemma extract_prefix_spec w :
  long_enough w -> extract_prefix w 0 PREFIX_LEN = Ok (lowercase_prefix w).
Proof.
  unfold long_enough, PREFIX_LEN, lowercase_prefix.
  destruct w as [|c0 [|c1 [|c2 w]]]; cbn [length]; intros H; try lia.
  reflexivity.
Qed.

Lemma prefix_eqb_eq p q : prefix_eqb p q = true <-> p = q.
Proof.
  unfold prefix_eqb. destruct (list_eq_dec Z.eq_dec p q); split; congruence.
Qed.

Lemma ascending_snoc l i :
  ascending l -> Forall (fun w => w < i) l -> ascending (l ++ [i]).
Proof.
  unfold ascending. induction l as [|x l IH]; intros Hs Hf; cbn [app].
  - repeat constructor.
  - inversion Hs; subst. inversion Hf; subst.
    constructor; [auto|].
    apply Forall_app. split; [assumption|]. repeat constructor. assumption.
Qed.

Lemma bucket_ok_weaken i cell : bucket_ok i cell -> bucket_ok (i + 1) cell.
Proof.
  intros (Hne & Hs & Hf). repeat split; auto.
  eapply Forall_impl; [|exact Hf]. cbv beta. intros. lia.
Qed.

Lemma bucket_ok_append i cell :
  1 <= i -> bucket_ok i cell ->
  bucket_ok (i + 1)
    {| bucket_prefix := bucket_prefix cell;
       bucket_words := intvec_append (bucket_words cell) i |}.
Proof.
  intros Hi (Hne & Hs & Hf). unfold bucket_ok, candidates_ok, intvec_append.
  cbn [bucket_words].
  repeat split.
  - destruct (bucket_words cell); discriminate.
  - apply ascending_snoc; [assumption|].
    eapply Forall_impl; [|exact Hf]. cbv beta. intros. lia.
  - apply Forall_app. split.
    + eapply Forall_impl; [|exact Hf]. cbv beta. intros. lia.
    + repeat constructor; lia.
Qed.

Lemma bucket_ok_new i p :
  1 <= i ->
  bucket_ok (i + 1)
    {| bucket_prefix := p; bucket_words := intvec_append intvec_alloc i |}.
Proof.
  intros Hi. unfold bucket_ok, candidates_ok, intvec_append, intvec_alloc, ascending.
  cbn [bucket_words app]. repeat split.
  - discriminate.
  - repeat constructor.
  - repeat constructor; lia.
Qed.

(** The scan of the cells for one word. *)
Lemma add_to_prefix_group_spec n p i cells :
  1 <= i -> Forall (bucket_ok i) cells ->
  if in_dec (list_eq_dec Z.eq_dec) p (map bucket_prefix cells) then
    exists cells',
      add_to_prefix_group n cells p i = Ok cells' /\
      map bucket_prefix cells' = map bucket_prefix cells /\
      Forall (bucket_ok (i + 1)) cells'
  else if n =? MAX_PREFIXES then add_to_prefix_group n cells p i = Fatal 2
  else
    exists cells',
      add_to_prefix_group n cells p i = Ok cells' /\
      map bucket_prefix cells' = map bucket_prefix cells ++ [p] /\
      Forall (bucket_ok (i + 1)) cells'.
Proof.
  intros Hi. induction cells as [|cell cells IH]; intros Hok.
  - cbn [map add_to_prefix_group].
    destruct (in_dec (list_eq_dec Z.eq_dec) p []) as [[]|_].
    destruct (n =? MAX_PREFIXES); [reflexivity|].
    eexists. split; [reflexivity|]. split; [reflexivity|].
    constructor; [now apply bucket_ok_new|constructor].
  - inversion Hok as [|? ? Hc Hcs]; subst. specialize (IH Hcs).
    cbn [map add_to_prefix_group].
    destruct (prefix_eqb (bucket_prefix cell) p) eqn:E.
    + apply prefix_eqb_eq in E.
      destruct (in_dec (list_eq_dec Z.eq_dec) p (bucket_prefix cell :: map bucket_prefix cells))
        as [_|Hn]; [|exfalso; apply Hn; now left].
      eexists. split; [reflexivity|]. split; [reflexivity|].
      constructor; [now apply bucket_ok_append|].
      eapply Forall_impl; [|exact Hcs]. apply bucket_ok_weaken.
    + assert (Hne : bucket_prefix cell <> p).
      { intros Heq. apply prefix_eqb_eq in Heq. congruence. }
      destruct (in_dec (list_eq_dec Z.eq_dec) p (map bucket_prefix cells)) as [Hin|Hnin].
      * destruct IH as (cells' & Hadd & Hmap & Hall).
        destruct (in_dec (list_eq_dec Z.eq_dec) p (bucket_prefix cell :: map bucket_prefix cells))
          as [_|Hn]; [|exfalso; apply Hn; now right].
        rewrite Hadd. cbn [bind]. eexists. split; [reflexivity|].
        cbn [map]. split; [now rewrite Hmap|].
        constructor; [now apply bucket_ok_weaken|assumption].
      * destruct (in_dec (list_eq_dec Z.eq_dec) p (bucket_prefix cell :: map bucket_prefix cells))
          as [[Heq|Hin]|_]; [contradiction|contradiction|].
        destruct (n =? MAX_PREFIXES).
        -- rewrite IH. reflexivity.
        -- destruct IH as (cells' & Hadd & Hmap & Hall).
           rewrite Hadd. cbn [bind]. eexists. split; [reflexivity|].
           cbn [map app]. split; [now rewrite Hmap|].
           constructor; [now apply bucket_ok_weaken|assumption].
Qed.

(** The loop over the words against the scan of their prefixes. *)
Lemma read_words_spec count : forall i stream ws cells,
  1 <= i -> Forall long_enough (firstn count stream) ->
  Forall (bucket_ok i) cells ->
  match scan_prefixes (map bucket_prefix cells)
          (map lowercase_prefix (firstn count stream)) with
  | None => read_words count i stream ws cells = Fatal 2
  | Some P =>
      if (count <=? length stream)%nat then
        exists cells',
          read_words count i stream ws cells =
            Ok (ws ++ firstn count stream, cells', skipn count stream) /\
          map bucket_prefix cells' = P /\
          Forall (bucket_ok (i + Z.of_nat count)) cells'
      else read_words count i stream ws cells = Fatal 1
  end.
Proof.
  induction count as [|count IH]; intros i stream ws cells Hi Hwf Hok.
  - cbn [firstn map scan_prefixes Nat.leb read_words skipn].
    exists cells. rewrite app_nil_r, Z.add_0_r. auto.
  - destruct stream as [|w stream].
    + cbn [firstn map scan_prefixes length Nat.leb]. reflexivity.
    + cbn [firstn] in Hwf. inversion Hwf as [|? ? Hw Hwf']; subst.
      cbn [firstn map scan_prefixes read_words getline_trimmed bind length Nat.leb skipn].
      rewrite (extract_prefix_spec w Hw). cbn [bind].
      pose proof (add_to_prefix_group_spec (Z.of_nat (length cells))
                    (lowercase_prefix w) i cells Hi Hok) as A.
      rewrite length_map.
      destruct (in_dec (list_eq_dec Z.eq_dec) (lowercase_prefix w)
                  (map bucket_prefix cells)) as [Hin|Hnin].
      * destruct A as (cells' & -> & Hmap & Hall). cbn [bind].
        specialize (IH (i + 1) stream (ws ++ [w]) cells' ltac:(lia) Hwf' Hall).
        rewrite Hmap in IH. rewrite <- app_assoc in IH. cbn [app] in IH.
        replace (i + 1 + Z.of_nat count) with (i + Z.of_nat (S count)) in IH by lia.
        exact IH.
      * destruct (Z.of_nat (length cells) =? MAX_PREFIXES).
        -- rewrite A. reflexivity.
        -- destruct A as (cells' & -> & Hmap & Hall). cbn [bind].
           specialize (IH (i + 1) stream (ws ++ [w]) cells' ltac:(lia) Hwf' Hall).
           rewrite Hmap in IH. rewrite <- app_assoc in IH. cbn [app] in IH.
           replace (i + 1 + Z.of_nat count) with (i + Z.of_nat (S count)) in IH by lia.
           exact IH.
Qed.

(** ** Counting distinct prefixes *)

Lemma n_distinct_same l1 l2 :
  (forall x, In x l1 <-> In x l2) -> n_distinct l1 = n_distinct l2.
Proof.
  intros H. unfold n_distinct.
  apply Nat.le_antisymm; apply NoDup_incl_length; try apply NoDup_nodup;
    intros x Hx; apply nodup_In; apply nodup_In in Hx; now apply H.
Qed.

Lemma n_distinct_NoDup l : NoDup l -> n_distinct l = length l.
Proof. intros H. unfold n_distinct. now rewrite nodup_fixed_point. Qed.

Lemma n_distinct_incl l1 l2 : incl l1 l2 -> (n_distinct l1 <= n_distinct l2)%nat.
Proof.
  intros H. unfold n_distinct. apply NoDup_incl_length; [apply NoDup_nodup|].
  intros x Hx. apply nodup_In. apply nodup_In in Hx. now apply H.
Qed.

Lemma NoDup_snoc (P : list (list Z)) p : NoDup P -> ~ In p P -> NoDup (P ++ [p]).
Proof.
  intros HP Hp. apply NoDup_app; [assumption|repeat constructor; auto|].
  intros x Hx [<-|[]]. contradiction.
Qed.

Lemma scan_prefixes_spec ps : forall P,
  NoDup P -> (length P <= 1024)%nat ->
  match scan_prefixes P ps with
  | Some U =>
      NoDup U /\ length U = n_distinct (P ++ ps) /\
      (forall p, In p U <-> In p (P ++ ps)) /\
      (n_distinct (P ++ ps) <= 1024)%nat
  | None => (1024 < n_distinct (P ++ ps))%nat
  end.
Proof.
  induction ps as [|p ps IH]; intros P HP Hlen.
  - cbn [scan_prefixes]. rewrite app_nil_r, n_distinct_NoDup by assumption.
    repeat split; auto.
  - cbn [scan_prefixes].
    destruct (in_dec (list_eq_dec Z.eq_dec) p P) as [Hin|Hnin].
    + assert (S : forall x, In x (P ++ ps) <-> In x (P ++ p :: ps)).
      { intros x. rewrite !in_app_iff. cbn [In]. split; [tauto|].
        intros [?|[<-|?]]; auto. }
      rewrite <- (n_distinct_same _ _ S).
      specialize (IH P HP Hlen). destruct (scan_prefixes P ps) as [U|]; [|exact IH].
      destruct IH as (H1 & H2 & H3 & H4). repeat split; auto.
      * intros HU. apply S, H3, HU.
      * intros HU. apply H3, S, HU.
    + replace (P ++ p :: ps) with ((P ++ [p]) ++ ps)
        by (rewrite <- app_assoc; reflexivity).
      unfold MAX_PREFIXES. destruct (Z.eqb_spec (Z.of_nat (length P)) 1024) as [E|E].
      * apply Nat.lt_le_trans with (length (P ++ [p])).
        -- rewrite length_app. cbn [length]. lia.
        -- rewrite <- (n_distinct_NoDup (P ++ [p])) by now apply NoDup_snoc.
           apply n_distinct_incl. intros x Hx. apply in_app_iff. now left.
      * apply IH; [now apply NoDup_snoc|].
        rewrite length_app. cbn [length]. lia.
Qed.

Lemma read_followers_spec count : forall stream,
  read_followers count stream =
  if (count <=? length stream)%nat then Ok (firstn count stream) else Fatal 1.
Proof.
  induction count as [|count IH]; intros [|line stream]; try reflexivity.
  cbn [read_followers getline_trimmed bind length firstn Nat.leb].
  rewrite IH. now destruct (count <=? length stream)%nat.
Qed.

(** ** What [wordgraph_init] returns, case by case *)

Lemma wordgraph_init_cases n stream :
  let ws := firstn (Z.to_nat (n - 1)) stream in
  let d := n_distinct (map lowercase_prefix ws) in
  Forall long_enough ws ->
  if (1024 <? d)%nat then wordgraph_init n stream = Fatal 2
  else if (length stream <? Z.to_nat (n - 1))%nat then wordgraph_init n stream = Fatal 1
  else if (d <? 1024)%nat then wordgraph_init n stream = Fatal 3
  else if (length stream <? Z.to_nat (n - 1) + Z.to_nat n)%nat
       then wordgraph_init n stream = Fatal 1
  else exists cells,
      wordgraph_init n stream =
        Ok {| words := [] :: ws;
              followers_compressed :=
                firstn (Z.to_nat n) (skipn (Z.to_nat (n - 1)) stream);
              prefixes := cells |} /\
      length cells = 1024%nat /\
      Forall (bucket_ok n) cells /\
      NoDup (map bucket_prefix cells) /\
      (forall p, In p (map bucket_prefix cells) <-> In p (map lowercase_prefix ws)).
Proof.
  intros ws d Hwf. unfold wordgraph_init.
  pose proof (read_words_spec (Z.to_nat (n - 1)) 1 stream [ [] ] []
                ltac:(lia) Hwf ltac:(constructor)) as R.
  pose proof (scan_prefixes_spec (map lowercase_prefix ws) []
                ltac:(constructor) ltac:(cbn [length]; lia)) as S.
  cbn [map] in R. fold ws in R. cbn [app] in S. fold d in S.
  destruct (scan_prefixes [] (map lowercase_prefix ws)) as [U|].
  - destruct S as (HU & HlenU & HinU & Hd).
    destruct (Nat.ltb_spec 1024 d) as [?|_]; [lia|].
    destruct (Nat.ltb_spec (length stream) (Z.to_nat (n - 1))) as [Hshort|Hlong].
    + destruct (Nat.leb_spec (Z.to_nat (n - 1)) (length stream)); [lia|].
      now rewrite R.
    + destruct (Nat.leb_spec (Z.to_nat (n - 1)) (length stream)); [|lia].
      destruct R as (cells & -> & Hmap & Hok). cbn [bind].
      assert (Hlen : length cells = d) by (rewrite <- HlenU, <- Hmap; now rewrite length_map).
      rewrite Hlen. unfold MAX_PREFIXES.
      destruct (Nat.ltb_spec d 1024) as [Hlt|Hge].
      * destruct (Z.eqb_spec (Z.of_nat d) 1024); [lia|]. reflexivity.
      * destruct (Z.eqb_spec (Z.of_nat d) 1024); [|lia]. cbn [negb].
        rewrite read_followers_spec, length_skipn.
        destruct (Nat.ltb_spec (length stream) (Z.to_nat (n - 1) + Z.to_nat n)).
        -- destruct (Nat.leb_spec (Z.to_nat n) (length stream - Z.to_nat (n - 1))); [lia|].
           reflexivity.
        -- destruct (Nat.leb_spec (Z.to_nat n) (length stream - Z.to_nat (n - 1))); [|lia].
           cbn [bind]. exists cells. split; [reflexivity|].
           assert (Hn : 1 + Z.of_nat (Z.to_nat (n - 1)) = n).
           { destruct (Z.le_gt_cases n 1); [|lia].
             exfalso. assert (d = 0)%nat; [|lia].
             subst d ws. replace (Z.to_nat (n - 1)) with 0%nat by lia.
             reflexivity. }
           rewrite Hn in Hok. rewrite Hmap. repeat split; auto; try lia; apply HinU.
  - destruct (Nat.ltb_spec 1024 d); [now rewrite R|lia].
Qed.

(** A graph that was built, whatever the corpus: 1024 cells, each with
    ascending ids of [1, n_words), and as many follower strings as words. *)
Lemma read_words_ok count : forall i stream ws cells ws' cells' stream',
  1 <= i -> Forall (bucket_ok i) cells ->
  read_words count i stream ws cells = Ok (ws', cells', stream') ->
  Forall (bucket_ok (i + Z.of_nat count)) cells' /\
  length ws' = (length ws + count)%nat.
Proof.
  induction count as [|count IH]; intros i stream ws cells ws' cells' stream' Hi Hok H.
  - cbn [read_words] in H. inversion H; subst. rewrite Z.add_0_r. auto.
  - destruct stream as [|w stream]; [discriminate|].
    cbn [read_words getline_trimmed bind] in H.
    destruct (extract_prefix w 0 PREFIX_LEN) as [p| |]; try discriminate.
    cbn [bind] in H.
    pose proof (add_to_prefix_group_spec (Z.of_nat (length cells)) p i cells Hi Hok) as A.
    destruct (add_to_prefix_group (Z.of_nat (length cells)) cells p i)
      as [cells1| |] eqn:E; try discriminate.
    cbn [bind] in H.
    assert (Hok1 : Forall (bucket_ok (i + 1)) cells1).
    { destruct (in_dec (list_eq_dec Z.eq_dec) p (map bucket_prefix cells)).
      - destruct A as (c & Hc & _ & Hall). congruence.
      - destruct (Z.of_nat (length cells) =? MAX_PREFIXES); [discriminate|].
        destruct A as (c & Hc & _ & Hall). congruence. }
    apply IH in H; [|lia|assumption]. destruct H as [H1 H2].
    split.
    + replace (i + Z.of_nat (S count)) with (i + 1 + Z.of_nat count) by lia. exact H1.
    + rewrite H2, length_app. cbn [length]. lia.
Qed.

Lemma wordgraph_init_ok n stream g :
  wordgraph_init n stream = Ok g ->
  n_words g = n /\ n_prefixes g = MAX_PREFIXES /\
  Forall (bucket_ok (n_words g)) (prefixes g) /\
  length (followers_compressed g) = length (words g).
Proof.
  unfold wordgraph_init. intros H.
  destruct (read_words (Z.to_nat (n - 1)) 1 stream [ [] ] []) as [[[ws cells] stream']| |] eqn:R;
    try discriminate.
  cbn [bind] in H.
  destruct (Z.eqb_spec (Z.of_nat (length cells)) MAX_PREFIXES) as [Hc|Hc];
    cbn [negb] in H; [|discriminate].
  rewrite read_followers_spec in H.
  destruct (Nat.leb_spec (Z.to_nat n) (length stream')); [|discriminate].
  cbn [bind] in H. inversion H; subst g; clear H.
  assert (Hn : 1 <= n).
  { destruct (Z.le_gt_cases 1 n); [assumption|exfalso].
    replace (Z.to_nat (n - 1)) with 0%nat in R by lia.
    cbn [read_words] in R. inversion R; subst.
    unfold MAX_PREFIXES in Hc. cbn [length] in Hc. lia. }
  apply read_words_ok in R; [|lia|constructor]. destruct R as [Hok Hlen].
  cbn [length] in Hlen.
  unfold n_words, n_prefixes. cbn [words prefixes followers_compressed].
  rewrite length_firstn.
  repeat split; try lia.
  replace (Z.of_nat (length ws)) with (1 + Z.of_nat (Z.to_nat (n - 1))) by lia.
  exact Hok.
Qed.

(** ** The failure at the 1025th prefix does not wait for the rest *)

Lemma read_words_split k1 : forall k2 i stream ws cells,
  read_words (k1 + k2) i stream ws cells =
  ' (ws', cells', stream') <- read_words k1 i stream ws cells ;;
  read_words k2 (i + Z.of_nat k1) stream' ws' cells'.
Proof.
  induction k1 as [|k1 IH]; intros k2 i stream ws cells.
  - cbn [Nat.add read_words bind Z.of_nat]. now rewrite Z.add_0_r.
  - cbn [Nat.add read_words].
    destruct (getline_trimmed stream) as [[w stream1]| |]; cbn [bind]; try reflexivity.
    destruct (extract_prefix w 0 PREFIX_LEN) as [p| |]; cbn [bind]; try reflexivity.
    destruct (add_to_prefix_group (Z.of_nat (length cells)) cells p i)
      as [cells1| |]; cbn [bind]; try reflexivity.
    rewrite IH. replace (i + 1 + Z.of_nat k1) with (i + Z.of_nat (S k1)) by lia.
    reflexivity.
Qed.

Lemma read_words_1025th n pre w rest :
  Z.of_nat (length pre) < n - 1 ->
  Forall long_enough (pre ++ [w]) ->
  n_distinct (map lowercase_prefix pre) = 1024%nat ->
  ~ In (lowercase_prefix w) (map lowercase_prefix pre) ->
  wordgraph_init n (pre ++ w :: rest) = Fatal 2.
Proof.
  intros Hlen Hwf Hd Hnew. unfold wordgraph_init.
  replace (Z.to_nat (n - 1))
    with (length pre + S (Z.to_nat (n - 1) - length pre - 1))%nat by lia.
  rewrite read_words_split.
  apply Forall_app in Hwf. destruct Hwf as [Hpre Hw]. inversion Hw as [|? ? Hw' _]; subst.
  pose proof (read_words_spec (length pre) 1 (pre ++ w :: rest) [ [] ] []
                ltac:(lia)) as R.
  rewrite firstn_app, firstn_all, Nat.sub_diag in R. cbn [firstn] in R.
  rewrite app_nil_r in R. specialize (R Hpre ltac:(constructor)).
  pose proof (scan_prefixes_spec (map lowercase_prefix pre) []
                ltac:(constructor) ltac:(cbn [length]; lia)) as S.
  cbn [map app] in R, S.
  destruct (scan_prefixes [] (map lowercase_prefix pre)) as [U|]; [|lia].
  destruct S as (_ & HlenU & HinU & _).
  rewrite length_app in R. cbn [length] in R.
  destruct (Nat.leb_spec (length pre) (length pre + S (length rest))); [|lia].
  destruct R as (cells & -> & Hmap & Hok). cbn [bind].
  rewrite skipn_length_app.
  cbn [read_words getline_trimmed bind].
  rewrite (extract_prefix_spec w Hw'). cbn [bind].
  pose proof (add_to_prefix_group_spec (Z.of_nat (length cells))
                (lowercase_prefix w) (1 + Z.of_nat (length pre)) cells
                ltac:(lia) Hok) as A.
  destruct (in_dec (list_eq_dec Z.eq_dec) (lowercase_prefix w)
              (map bucket_prefix cells)) as [Hin|_].
  - exfalso. apply Hnew. apply HinU. now rewrite <- Hmap.
  - assert (Hc : Z.of_nat (length cells) = MAX_PREFIXES).
    { unfold MAX_PREFIXES. rewrite <- (length_map bucket_prefix), Hmap, HlenU, Hd.
      reflexivity. }
    rewrite Hc, Z.eqb_refl in A. rewrite Hc, A. reflexivity.
Qed.

End Init.

(** C5.  On a corpus whose words have at least three characters,
    [wordgraph_init] succeeds only when the words cover exactly 1024
    distinct lowercase prefixes.  With more it fails with the
    too-many-prefixes error, and does so at the word that would open the
    1025th cell, whatever follows that word in the file; with fewer, all
    the words being there, it fails with the not-enough-prefixes error;
    with exactly 1024 and the [n_words] lines of followers it succeeds. *)
Theorem wordgraph_init_prefix_count (n : Z) (stream : list cstring) :
  let ws := firstn (Z.to_nat (n - 1)) stream in
  let d := n_distinct (map lowercase_prefix ws) in
  Forall long_enough ws ->
  (forall g, wordgraph_init n stream = Ok g -> d = 1024%nat) /\
  ((1024 < d)%nat -> wordgraph_init n stream = Fatal 2) /\
  (forall pre w rest,
     stream = pre ++ w :: rest -> Z.of_nat (length pre) < n - 1 ->
     n_distinct (map lowercase_prefix pre) = 1024%nat ->
     ~ In (lowercase_prefix w) (map lowercase_prefix pre) ->
     forall rest', wordgraph_init n (pre ++ w :: rest') = Fatal 2) /\
  ((Z.to_nat (n - 1) <= length stream)%nat -> (d < 1024)%nat ->
     wordgraph_init n stream = Fatal 3) /\
  ((Z.to_nat (n - 1) + Z.to_nat n <= length stream)%nat -> d = 1024%nat ->
     exists g, wordgraph_init n stream = Ok g /\
               words g = [] :: ws /\ n_prefixes g = 1024).
Proof.
  intros ws d Hwf.
  pose proof (wordgraph_init_cases n stream Hwf) as C. fold ws d in C. cbv zeta in C.
  repeat split.
  - intros g Hg.
    destruct (Nat.ltb_spec 1024 d); [congruence|].
    destruct (Nat.ltb_spec (length stream) (Z.to_nat (n - 1))); [congruence|].
    destruct (Nat.ltb_spec d 1024); [congruence|]. lia.
  - intros Hd. destruct (Nat.ltb_spec 1024 d); [exact C|lia].
  - intros pre w rest -> Hlen Hd Hnew rest'.
    apply read_words_1025th; try assumption.
    subst ws.
    replace (Z.to_nat (n - 1))
      with (length (pre ++ [w]) + (Z.to_nat (n - 1) - length pre - 1))%nat in Hwf
      by (rewrite length_app; cbn [length]; lia).
    replace (pre ++ w :: rest) with ((pre ++ [w]) ++ rest) in Hwf
      by (rewrite <- app_assoc; reflexivity).
    rewrite firstn_app_2 in Hwf. apply Forall_app in Hwf. tauto.
  - intros Hlen Hd.
    destruct (Nat.ltb_spec 1024 d); [lia|].
    destruct (Nat.ltb_spec (length stream) (Z.to_nat (n - 1))); [lia|].
    destruct (Nat.ltb_spec d 1024); [exact C|lia].
  - intros Hlen Hd.
    destruct (Nat.ltb_spec 1024 d); [lia|].
    destruct (Nat.ltb_spec (length stream) (Z.to_nat (n - 1))); [lia|].
    destruct (Nat.ltb_spec d 1024); [lia|].
    destruct (Nat.ltb_spec (length stream) (Z.to_nat (n - 1) + Z.to_nat n)); [lia|].
    destruct C as (cells & Hg & Hc & _). eexists. split; [exact Hg|].
    split; [reflexivity|]. unfold n_prefixes. cbn [prefixes]. lia.
Qed.

(* ================================================================== *)
(** * One round of the generator *)

Section Generator.

Variable g : WordGraph.

Lemma intvec_copy_id vec : intvec_copy vec = vec.
Proof.
  unfold intvec_copy, intvec_alloc.
  assert (H : forall acc, fold_left intvec_append vec acc = acc ++ vec).
  { induction vec as [|x vec IH]; intros acc; cbn [fold_left].
    - now rewrite app_nil_r.
    - rewrite IH. unfold intvec_append. now rewrite <- app_assoc. }
  apply H.
Qed.

Lemma intvec_get_first x vec : intvec_get (x :: vec) 0 = Ok x.
Proof.
  unfold intvec_get, intvec_len. cbn [length].
  destruct (Z.leb_spec (Z.of_nat (S (length vec))) 0); [lia|]. reflexivity.
Qed.

(** ** No call ends in [err] but the out-of-range [intvec_get] *)

Lemma decode_loop_no_fatal fuel : forall enc i last zr dec s,
  decode_loop fuel enc i last zr dec <> Some (Fatal s).
Proof.
  induction fuel as [|fuel IH]; intros enc i last zr dec s; [discriminate|].
  cbn [decode_loop]. destruct (char_at enc i) as [c|]; [|discriminate].
  destruct ((c =? 0) && (zr =? 0)); [discriminate|].
  destruct (if negb (zr =? 0) then (0, 0%nat, zr - 1) else _) as [[delta di] zr'].
  apply IH.
Qed.

Lemma decode_no_fatal enc s : decode enc <> Fatal s.
Proof.
  unfold decode.
  destruct (decode_loop (decode_fuel enc) enc 0 0 0 intvec_alloc) as [r|] eqn:E;
    [|discriminate].
  intros ->. now apply decode_loop_no_fatal in E.
Qed.

Lemma lookup_no_fatal {A} (arr : list A) i s : lookup arr i <> Fatal s.
Proof.
  unfold lookup. destruct (i <? 0); [discriminate|].
  destruct (nth_error arr (Z.to_nat i)); discriminate.
Qed.

Lemma lookup_within {A} (arr : list A) i :
  0 <= i < Z.of_nat (length arr) -> exists x, lookup arr i = Ok x /\ In x arr.
Proof.
  intros H. unfold lookup. destruct (Z.ltb_spec i 0); [lia|].
  destruct (nth_error arr (Z.to_nat i)) as [x|] eqn:E.
  - exists x. split; [reflexivity|]. eapply nth_error_In; eauto.
  - apply nth_error_None in E. lia.
Qed.

Lemma followers_of_no_fatal w s : followers_of g w <> Fatal s.
Proof.
  unfold followers_of.
  destruct (lookup (followers_compressed g) w) as [enc| |] eqn:E; cbn [bind].
  - apply decode_no_fatal.
  - now apply lookup_no_fatal in E.
  - discriminate.
Qed.

Lemma narrow_cons next_words word words new_words :
  narrow g next_words (word :: words) new_words =
  followers <- followers_of g word ;;
  narrow g next_words words
    (if negb (intvec_len (intvec_intersect next_words followers) =? 0)
     then intvec_append new_words word else new_words).
Proof.
  cbn [narrow]. unfold followers_of.
  now destruct (lookup (followers_compressed g) word).
Qed.

Lemma forward_cons last_word set later :
  forward g last_word (set :: later) =
  followers <- followers_of g last_word ;;
  last_word' <-
    intvec_get (if negb (intvec_len (intvec_intersect set followers) =? 0)
                then intvec_intersect set followers else set) 0 ;;
  chosen <- forward g last_word' later ;;
  Ok (last_word' :: chosen).
Proof.
  cbn [forward]. unfold followers_of.
  now destruct (lookup (followers_compressed g) last_word).
Qed.

(** ** Narrowing keeps some of the words, in order *)

Lemma subseq_Forall (P : Z -> Prop) s l : subseq s l -> Forall P l -> Forall P s.
Proof.
  induction 1 as [|x s l Hsub IH|x s l Hsub IH]; intros HP;
    [constructor| |]; inversion HP; subst; auto.
Qed.

Lemma subseq_ascending s l : subseq s l -> ascending l -> ascending s.
Proof.
  unfold ascending.
  induction 1 as [|x s l Hsub IH|x s l Hsub IH]; intros HP;
    [constructor| |]; inversion HP; subst; auto.
  constructor; [auto|]. eapply subseq_Forall; eauto.
Qed.

Lemma subseq_refl l : subseq l l.
Proof. induction l; [apply subseq_nil|now apply subseq_take]. Qed.

Lemma narrow_spec next_words words : forall new_words r,
  narrow g next_words words new_words = Ok r ->
  exists kept, r = new_words ++ kept /\ subseq kept words.
Proof.
  induction words as [|word words IH]; intros new_words r H.
  - cbn [narrow] in H. inversion H; subst. exists []. split.
    + now rewrite app_nil_r.
    + constructor.
  - rewrite narrow_cons in H.
    destruct (followers_of g word) as [followers| |]; cbn [bind] in H;
      try discriminate.
    apply IH in H. destruct H as (kept & -> & Hsub).
    destruct (negb (intvec_len (intvec_intersect next_words followers) =? 0)).
    + exists (word :: kept). unfold intvec_append. rewrite <- app_assoc.
      split; [reflexivity|]. now constructor.
    + exists kept. split; [reflexivity|]. now constructor.
Qed.

Lemma narrow_no_fatal next_words words : forall new_words s,
  narrow g next_words words new_words <> Fatal s.
Proof.
  induction words as [|word words IH]; intros new_words s; [discriminate|].
  rewrite narrow_cons.
  destruct (followers_of g word) as [followers| |] eqn:E; cbn [bind].
  - apply IH.
  - now apply followers_of_no_fatal in E.
  - discriminate.
Qed.

Lemma narrow_returns next_words words : forall new_words,
  (forall w, In w words -> exists f, followers_of g w = Ok f) ->
  exists r, narrow g next_words words new_words = Ok r.
Proof.
  induction words as [|word words IH]; intros new_words H.
  - eexists. reflexivity.
  - rewrite narrow_cons. destruct (H word (or_introl eq_refl)) as [f ->].
    cbn [bind]. apply IH. intros w Hw. apply H. now right.
Qed.

(** ** The backward pass *)

Lemma backward_step_spec n words next_words mismatch set mismatch' :
  candidates_ok n words ->
  backward_step g words next_words mismatch = Ok (set, mismatch') ->
  candidates_ok n set /\ subseq set words.
Proof.
  intros (Hne & Hs & Hf) H. unfold backward_step in H.
  destruct next_words as [nw|].
  - destruct (narrow g nw words intvec_alloc) as [new_words| |] eqn:E;
      cbn [bind] in H; try discriminate.
    apply narrow_spec in E. destruct E as (kept & -> & Hsub).
    unfold intvec_alloc in H. cbn [app] in H.
    destruct (intvec_len kept =? 0) eqn:Z; cbn [negb] in H; inversion H; subst.
    + split; [repeat split; assumption|apply subseq_refl].
    + split; [|assumption]. repeat split.
      * intros ->. discriminate.
      * eapply subseq_ascending; eauto.
      * eapply subseq_Forall; eauto.
  - cbn [bind] in H. unfold intvec_alloc in H.
    change (negb (intvec_len [] =? 0)) with false in H. inversion H; subst.
    split; [repeat split; assumption|apply subseq_refl].
Qed.

Lemma backward_spec n : forall word_sets word_sets' mismatch,
  Forall (candidates_ok n) word_sets ->
  backward g word_sets = Ok (word_sets', mismatch) ->
  Forall (candidates_ok n) word_sets' /\ Forall2 subseq word_sets' word_sets.
Proof.
  induction word_sets as [|words later IH]; intros word_sets' mismatch Hok H.
  - cbn [backward] in H. inversion H; subst. split; constructor.
  - inversion Hok as [|? ? Hw Hl]; subst. cbn [backward] in H.
    destruct (backward g later) as [[later' m]| |]; cbn [bind] in H;
      try discriminate.
    destruct (IH later' m Hl eq_refl) as [Hl' Hsub].
    destruct (backward_step g words (hd_error later') m) as [[set m']| |] eqn:E;
      cbn [bind] in H; try discriminate.
    inversion H; subst.
    destruct (backward_step_spec n _ _ _ _ _ Hw E).
    split; constructor; assumption.
Qed.

Lemma backward_step_no_fatal words next_words mismatch s :
  backward_step g words next_words mismatch <> Fatal s.
Proof.
  unfold backward_step. destruct next_words as [nw|].
  - destruct (narrow g nw words intvec_alloc) as [new_words| |] eqn:E; cbn [bind].
    + destruct (negb (intvec_len new_words =? 0)); discriminate.
    + now apply narrow_no_fatal in E.
    + discriminate.
  - cbn [bind]. destruct (negb (intvec_len intvec_alloc =? 0)); discriminate.
Qed.

Lemma backward_no_fatal : forall word_sets s, backward g word_sets <> Fatal s.
Proof.
  induction word_sets as [|words later IH]; intros s; [discriminate|].
  cbn [backward]. revert IH. generalize (backward g later). intros b IH.
  destruct b as [[later' m]| |]; cbn [bind].
  - destruct (backward_step g words (hd_error later') m) as [[set m']| |] eqn:E';
      cbn [bind]; try discriminate.
    now apply backward_step_no_fatal in E'.
  - exfalso. exact (IH status eq_refl).
  - discriminate.
Qed.

Lemma backward_returns : forall word_sets,
  (forall set w, In set word_sets -> In w set -> exists f, followers_of g w = Ok f) ->
  exists r, backward g word_sets = Ok r.
Proof.
  induction word_sets as [|words later IH]; intros H.
  - eexists. reflexivity.
  - cbn [backward].
    destruct IH as [[later' m] ->].
    { intros set w Hs. apply H. now right. }
    cbn [bind]. unfold backward_step.
    assert (Hw : forall w, In w words -> exists f, followers_of g w = Ok f).
    { intros w. apply H. now left. }
    destruct (hd_error later') as [nw|].
    + destruct (narrow_returns nw words intvec_alloc Hw) as [r ->]. cbn [bind].
      destruct (negb (intvec_len r =? 0)); eexists; reflexivity.
    + cbn [bind]. destruct (negb (intvec_len intvec_alloc =? 0)); eexists; reflexivity.
Qed.

(** ** The forward pass *)

Lemma forward_no_fatal : forall word_sets last_word s,
  Forall (fun set => set <> []) word_sets ->
  forward g last_word word_sets <> Fatal s.
Proof.
  induction word_sets as [|set later IH]; intros last_word s Hne; [discriminate|].
  inversion Hne as [|? ? Hset Hlater]; subst.
  rewrite forward_cons.
  destruct (followers_of g last_word) as [followers| |] eqn:E; cbn [bind].
  - assert (Hv : exists x v,
               (if negb (intvec_len (intvec_intersect set followers) =? 0)
                then intvec_intersect set followers else set) = x :: v).
    { destruct (intvec_len (intvec_intersect set followers) =? 0) eqn:Z; cbn [negb].
      - destruct set; [contradiction|eauto].
      - destruct (intvec_intersect set followers); [discriminate|eauto]. }
    destruct Hv as (x & v & ->). rewrite intvec_get_first. cbn [bind].
    destruct (forward g x later) eqn:F; cbn [bind]; try discriminate.
    now apply IH in F.
  - now apply followers_of_no_fatal in E.
  - discriminate.
Qed.

Lemma forward_returns n : forall word_sets last_word,
  (forall w, 0 <= w < n -> exists f, followers_of g w = Ok f) ->
  0 <= last_word < n ->
  Forall (candidates_ok n) word_sets ->
  exists chosen, forward g last_word word_sets = Ok chosen /\
                 length chosen = length word_sets.
Proof.
  induction word_sets as [|set later IH]; intros last_word Hdec Hlast Hok.
  - exists []. split; reflexivity.
  - inversion Hok as [|? ? (Hne & Hs & Hf) Hlater]; subst.
    rewrite forward_cons. destruct (Hdec last_word Hlast) as [followers ->].
    cbn [bind].
    assert (Hv : exists x v,
               (if negb (intvec_len (intvec_intersect set followers) =? 0)
                then intvec_intersect set followers else set) = x :: v /\
               In x set).
    { destruct (intvec_len (intvec_intersect set followers) =? 0) eqn:Z; cbn [negb].
      - destruct set as [|x v]; [contradiction|]. exists x, v. split; [reflexivity|now left].
      - destruct (intvec_intersect set followers) as [|x v] eqn:I; [discriminate|].
        exists x, v. split; [reflexivity|].
        apply (intersect_incl_l set followers). rewrite I. now left. }
    destruct Hv as (x & v & -> & Hx). rewrite intvec_get_first. cbn [bind].
    rewrite Forall_forall in Hf. specialize (Hf x Hx).
    destruct (IH x Hdec ltac:(lia) Hlater) as (chosen & -> & Hlen).
    cbn [bind]. eexists. split; [reflexivity|]. cbn [length]. lia.
Qed.

(** ** The sets sampled *)

Lemma land_1023_range r : 0 <= Z.land r (MAX_PREFIXES - 1) < 1024.
Proof.
  change (MAX_PREFIXES - 1) with (Z.ones 10).
  rewrite Z.land_ones by lia. change (2 ^ 10) with 1024.
  apply Z.mod_pos_bound. lia.
Qed.

Lemma choose_word_sets_spec n : forall prefixes_chosen,
  n_prefixes g = MAX_PREFIXES -> Forall (bucket_ok n) (prefixes g) ->
  exists ps word_sets,
    choose_word_sets g prefixes_chosen = Ok (ps, word_sets) /\
    Forall (candidates_ok n) word_sets /\
    length word_sets = length prefixes_chosen /\
    length ps = length prefixes_chosen.
Proof.
  intros prefixes_chosen Hn Hok.
  induction prefixes_chosen as [|r rest IH].
  - exists [], []. repeat split; constructor.
  - destruct IH as (ps & sets & Hc & Hsets & Hlen & Hlen').
    cbn [choose_word_sets].
    destruct (lookup_within (prefixes g) (Z.land r (MAX_PREFIXES - 1)))
      as (cell & -> & Hin).
    { pose proof (land_1023_range r). unfold n_prefixes, MAX_PREFIXES in Hn. lia. }
    cbn [bind]. rewrite Hc. cbn [bind].
    eexists _, _. split; [reflexivity|].
    rewrite intvec_copy_id. repeat split.
    + constructor; [|assumption]. rewrite Forall_forall in Hok. now apply Hok.
    + cbn [length]. lia.
    + cbn [length]. lia.
Qed.

End Generator.

(* ================================================================== *)
(** * The code on the sample corpus *)

Lemma sample_graph_built : wordgraph_init 1025 sample_corpus = Ok sample_graph.
Proof. vm_compute. reflexivity. Qed.

Lemma long_enough_forallb l :
  forallb (fun w => (PREFIX_LEN <=? length w)%nat) l = true ->
  Forall long_enough l.
Proof.
  rewrite forallb_forall, Forall_forall. intros H w Hw.
  apply Nat.leb_le. now apply H.
Qed.

Lemma wordgraph_init_prefix_count_witness :
  exists g, wordgraph_init 1025 sample_corpus = Ok g /\
            words g = [] :: firstn 1024 sample_corpus /\ n_prefixes g = 1024.
Proof.
  destruct (wordgraph_init_prefix_count 1025 sample_corpus) as (_ & _ & _ & _ & H).
  - apply long_enough_forallb. vm_compute. reflexivity.
  - apply H.
    + apply Nat.leb_le. vm_compute. reflexivity.
    + vm_compute. reflexivity.
Defined.

(* ================================================================== *)
(** * The claims on the generator and on the matcher *)

(** C10.  In a round over a graph that [wordgraph_init] has built, every
    cell of the prefix table holds an id, the set of candidates of every
    position is not empty when it is sampled and still not empty after the
    backward pass, and no call ends in a fatal error: [intvec_get] is never
    asked for an element out of range.  The round ends well when the
    follower strings of the graph decode. *)
Theorem generate_round_candidates_nonempty (n : Z) (stream : list cstring)
    (g : WordGraph) (start_word : Z) (prefixes_chosen : list Z) :
  wordgraph_init n stream = Ok g ->
  Forall (fun cell => bucket_words cell <> []) (prefixes g) /\
  (exists ps word_sets,
     choose_word_sets g prefixes_chosen = Ok (ps, word_sets) /\
     Forall (fun set => set <> []) word_sets /\
     forall word_sets' mismatch,
       backward g word_sets = Ok (word_sets', mismatch) ->
       Forall (fun set => set <> []) word_sets' /\
       forall status, forward g start_word word_sets' <> Fatal status) /\
  (forall status, generate_round g start_word prefixes_chosen <> Fatal status) /\
  ((forall w, 0 <= w < n_words g -> exists f, followers_of g w = Ok f) ->
   0 <= start_word < n_words g ->
   exists r, generate_round g start_word prefixes_chosen = Ok r /\
             length (round_words r) = length prefixes_chosen /\
             Forall (fun set => set <> []) (round_word_sets r)).
Proof.
  intros Hg. apply wordgraph_init_ok in Hg. destruct Hg as (_ & Hp & Hok & _).
  assert (Hne : forall sets, Forall (candidates_ok (n_words g)) sets ->
                             Forall (fun set : IntVec => set <> []) sets).
  { intros sets. apply Forall_impl. intros set (H & _). exact H. }
  destruct (choose_word_sets_spec g (n_words g) prefixes_chosen Hp Hok)
    as (ps & sets & Hc & Hsets & Hlen & _).
  assert (Hback : forall sets' m, backward g sets = Ok (sets', m) ->
                    Forall (candidates_ok (n_words g)) sets' /\
                    length sets' = length sets).
  { intros sets' m Hb. destruct (backward_spec g _ _ _ _ Hsets Hb) as [H1 H2].
    split; [exact H1|]. apply Forall2_length in H2. exact H2. }
  repeat split.
  - eapply Forall_impl; [|exact Hok]. intros cell (H & _). exact H.
  - exists ps, sets. split; [exact Hc|]. split; [now apply Hne|].
    intros sets' m Hb. destruct (Hback sets' m Hb) as [H1 _].
    split; [now apply Hne|]. intros status. apply forward_no_fatal. now apply Hne.
  - intros status. unfold generate_round. rewrite Hc. cbn [bind].
    destruct (backward g sets) as [[sets' m]| |] eqn:Hb; cbn [bind].
    + destruct (Hback sets' m eq_refl) as [H1 _].
      destruct (forward g start_word sets') eqn:F; cbn [bind]; try discriminate.
      apply forward_no_fatal in F; [contradiction|now apply Hne].
    + now apply backward_no_fatal in Hb.
    + discriminate.
  - intros Hdec Hstart. unfold generate_round. rewrite Hc. cbn [bind].
    destruct (backward_returns g sets) as [[sets' m] Hb].
    { intros set w Hset Hw. apply Hdec.
      rewrite Forall_forall in Hsets. destruct (Hsets set Hset) as (_ & _ & Hr).
      rewrite Forall_forall in Hr. specialize (Hr w Hw). lia. }
    rewrite Hb. cbn [bind]. destruct (Hback sets' m Hb) as [H1 H2].
    destruct (forward_returns g (n_words g) sets' start_word Hdec Hstart H1)
      as (chosen & -> & Hl).
    cbn [bind]. eexists. split; [reflexivity|]. cbn [round_words round_word_sets].
    split; [lia|now apply Hne].
Qed.

Lemma generate_round_candidates_nonempty_witness :
  wordgraph_init 1025 sample_corpus = Ok sample_graph /\
  generate_round sample_graph 0 [5; 2000; -1] <> Fatal 10.
Proof.
  split; [exact sample_graph_built|].
  apply (generate_round_candidates_nonempty 1025 sample_corpus sample_graph 0
           [5; 2000; -1] sample_graph_built).
Defined.

Lemma ascending_first_le x l w : ascending (x :: l) -> In w (x :: l) -> x <= w.
Proof.
  intros H [->|Hw]; [lia|].
  pose proof (ascending_head_lt x l w H Hw). lia.
Qed.

(** C3.  In the forward pass, with candidate sets that are not empty and
    ascending and follower strings that decode, a word is chosen at every
    position: the first element of the intersection of the candidates of
    the position with the followers of the previous word when that
    intersection is not empty, and the first candidate otherwise; it is
    the lowest id of the list it is taken from.  The previous word is the
    hook (or the sentinel 0) at position 0 and the word chosen at the
    position before after that. *)
Theorem forward_selects_first (g : WordGraph) (word_sets : list IntVec) :
  forall start_word,
  Forall (fun set => set <> [] /\ ascending set) word_sets ->
  (forall w, w = start_word \/ (exists set, In set word_sets /\ In w set) ->
     exists f, followers_of g w = Ok f) ->
  exists chosen,
    forward g start_word word_sets = Ok chosen /\
    length chosen = length word_sets /\
    forall i set, nth_error word_sets i = Some set ->
      exists followers,
        followers_of g (previous_word start_word chosen i) = Ok followers /\
        let common := intvec_intersect set followers in
        (common <> [] ->
           nth_error chosen i = hd_error common /\
           forall w, In w common -> nth i chosen 0 <= w) /\
        (common = [] ->
           nth_error chosen i = hd_error set /\
           forall w, In w set -> nth i chosen 0 <= w).
Proof.
  induction word_sets as [|set later IH]; intros start_word Hok Hdec.
  - exists []. repeat split. intros [|i] set H; discriminate.
  - inversion Hok as [|? ? [Hne Hs] Hlater]; subst.
    rewrite forward_cons.
    destruct (Hdec start_word (or_introl eq_refl)) as [followers Hf].
    rewrite Hf. cbn [bind].
    pose proof (intersect_sorted set followers Hs) as Hcs.
    assert (Hv : exists x,
               intvec_get (if negb (intvec_len (intvec_intersect set followers) =? 0)
                           then intvec_intersect set followers else set) 0 = Ok x /\
               In x set /\
               (intvec_intersect set followers <> [] ->
                  Some x = hd_error (intvec_intersect set followers) /\
                  forall w, In w (intvec_intersect set followers) -> x <= w) /\
               (intvec_intersect set followers = [] ->
                  Some x = hd_error set /\ forall w, In w set -> x <= w)).
    { destruct (intvec_intersect set followers) as [|x v] eqn:I.
      - destruct set as [|x v]; [contradiction|]. exists x.
        change (negb (intvec_len [] =? 0)) with false. cbv iota.
        rewrite intvec_get_first. repeat split; try (now left); try congruence.
        intros w Hw. now apply (ascending_first_le x v).
      - exists x.
        assert (Z : negb (intvec_len (x :: v) =? 0) = true).
        { unfold intvec_len. cbn [length].
          destruct (Z.eqb_spec (Z.of_nat (S (length v))) 0); [lia|reflexivity]. }
        rewrite Z, intvec_get_first. repeat split; try congruence.
        + apply (intersect_incl_l set followers). rewrite I. now left.
        + intros w Hw. now apply (ascending_first_le x v). }
    destruct Hv as (x & -> & Hx & Hcommon & Hnone). cbn [bind].
    destruct (IH x Hlater) as (chosen & -> & Hlen & Hpos).
    { intros w [Hw|(set' & Hset' & Hw)]; apply Hdec; right.
      - subst w. exists set. split; [now left|assumption].
      - exists set'. split; [now right|assumption]. }
    cbn [bind]. exists (x :: chosen). split; [reflexivity|].
    split; [cbn [length]; lia|].
    intros [|i] set' Hset'.
    + cbn [nth_error] in Hset'. inversion Hset'; subst set'.
      exists followers. cbn [previous_word nth_error nth]. split; [exact Hf|].
      cbv zeta. split; intros Hc.
      * destruct (Hcommon Hc) as [H1 H2]. split; [exact H1|exact H2].
      * destruct (Hnone Hc) as [H1 H2]. split; [exact H1|exact H2].
    + cbn [nth_error] in Hset'. destruct (Hpos i set' Hset') as (f' & Hf' & Hrest).
      exists f'. split; [|exact Hrest].
      destruct i; exact Hf'.
Qed.

Lemma forward_selects_first_witness :
  exists chosen,
    forward two_word_graph 1 [[1]; [2]] = Ok chosen /\
    length chosen = 2%nat /\
    forall i set, nth_error [[1]; [2]] i = Some set ->
      exists followers,
        followers_of two_word_graph (previous_word 1 chosen i) = Ok followers /\
        let common := intvec_intersect set followers in
        (common <> [] ->
           nth_error chosen i = hd_error common /\
           forall w, In w common -> nth i chosen 0 <= w) /\
        (common = [] ->
           nth_error chosen i = hd_error set /\
           forall w, In w set -> nth i chosen 0 <= w).
Proof.
  apply (forward_selects_first two_word_graph [[1]; [2]] 1).
  - unfold ascending. repeat constructor; discriminate.
  - intros w [->|(set & [<-|[<-|[]]] & [<-|[]])]; eexists; vm_compute; reflexivity.
Defined.

(** C2 fails on the code.  The body of the backward loop counts the last
    position as a mismatch, whatever its set: a chain of one position ends
    with [mismatch = 1].  On the corpus of two words, hooked at "abc" with
    the cells of "abc" and "abd" sampled, "abd" is chosen at position 1 and
    the round ends with [mismatch = 1], not 0; and so does a round on the
    sample graph, in which every word may follow every word. *)
Theorem backward_counts_last_position :
  (forall g set, backward g [set] = Ok ([set], 1)) /\
  generate_round two_word_graph 1 [0; 1] =
    Ok {| round_prefixes := [0; 1]; round_word_sets := [[1]; [2]];
          round_mismatch := 1; round_words := [1; 2] |} /\
  generate_round sample_graph 0 [5; 2000; -1] =
    Ok {| round_prefixes := [5; 976; 1023];
          round_word_sets := [[6]; [977]; [1024]];
          round_mismatch := 1; round_words := [6; 977; 1024] |}.
Proof.
  split; [intros g set; reflexivity|]. split; vm_compute; reflexivity.
Qed.

(** C8 fails on the code.  On the graph built from the sample corpus,
    whose 1024 words have three letters, a query of 10003 letters is at a
    distance of 10000 at least from every word: [best_dist] is never
    improved on and the sentinel 0 is returned. *)
Theorem find_word_returns_sentinel :
  wordgraph_init 1025 sample_corpus = Ok sample_graph /\
  n_words sample_graph = 1025 /\
  Z.of_nat (length long_query) = 10003 /\
  wordgraph_find_word sample_graph long_query = 0.
Proof.
  assert (L : Z.of_nat (length long_query) = 10003).
  { unfold long_query. rewrite repeat_length. lia. }
  split; [exact sample_graph_built|]. split; [vm_compute; reflexivity|].
  split; [exact L|].
  apply find_word_far.
  - rewrite L. unfold INT_MAX. lia.
  - cbn [sample_graph words tl]. unfold sample_words.
    rewrite Forall_map. apply Forall_forall. intros k _.
    rewrite L. cbn [sample_word length]. lia.
Qed.

(** C7 fails on the code.  On the graph built from the sample corpus, the
    word nearest to a query of 10003 letters [a] is word 1, ["aaa"], at a
    Levenshtein distance of 10000, which [edit_distance] computes; no word
    is nearer.  But [best_dist] starts at 10000 and only a smaller distance
    replaces it: the code returns the sentinel 0, which is no word. *)
Theorem find_word_misses_nearest :
  wordgraph_init 1025 sample_corpus = Ok sample_graph /\
  word_of sample_graph 1 = [97; 97; 97] /\
  edit_distance long_query (word_of sample_graph 1) = 10000 /\
  nearest sample_graph long_query 1 /\
  wordgraph_find_word sample_graph long_query = 0.
Proof.
  assert (L : Z.of_nat (length long_query) = 10003).
  { unfold long_query. rewrite repeat_length. lia. }
  assert (W : forall i, Z.of_nat (length (word_of sample_graph i)) <= 3).
  { assert (F : forall w, In w (words sample_graph) -> Z.of_nat (length w) <= 3).
    { cbn [sample_graph words]. intros w [E0|Hin];
        [rewrite <- E0; cbn [length]; lia|].
      unfold sample_words in Hin. apply in_map_iff in Hin.
      destruct Hin as (k & E0 & _). rewrite <- E0. cbn [sample_word length]. lia. }
    intros i. unfold word_of.
    destruct (nth_in_or_default (Z.to_nat i) (words sample_graph) []) as [Hin|Hd];
      [now apply F|rewrite Hd; cbn [length]; lia]. }
  assert (D : edit_distance long_query (word_of sample_graph 1) = 10000)
    by (vm_compute; reflexivity).
  assert (E : lev long_query (word_of sample_graph 1) = 10000).
  { rewrite <- edit_distance_lev; [exact D| |].
    - rewrite L. unfold INT_MAX. lia.
    - pose proof (W 1). unfold INT_MAX. lia. }
  split; [exact sample_graph_built|]. split; [vm_compute; reflexivity|].
  split; [exact D|]. split.
  - split; [vm_compute; split; congruence|]. split.
    + intros i _. rewrite E.
      pose proof (lev_length_diff long_query (word_of sample_graph i)).
      pose proof (W i). lia.
    + intros i Hi. lia.
  - apply find_word_far.
    + rewrite L. unfold INT_MAX. lia.
    + cbn [sample_graph words tl]. unfold sample_words.
      rewrite Forall_map. apply Forall_forall. intros k _.
      rewrite L. cbn [sample_word length]. lia.
Qed.

Lemma wordgraph_find_word_nearest_witness :
  nearest two_word_graph [97; 98; 100; 101]
    (wordgraph_find_word two_word_graph [97; 98; 100; 101]) /\
  wordgraph_find_word two_word_graph [97; 98; 100; 101] = 2.
Proof.
  split; [|vm_compute; reflexivity].
  apply (wordgraph_find_word_nearest two_word_graph [97; 98; 100; 101]).
  - vm_compute. reflexivity.
  - repeat constructor.
  - exists 2. split; [vm_compute; split; congruence|vm_compute; reflexivity].
Defined.

(* ================================================================== *)
(** * Further properties of the code *)

Lemma intersect_subseq a b : subseq (intvec_intersect a b) a.
Proof.
  pattern a, b, (intvec_intersect a b). apply intersect_ind; clear a b; intros.
  - constructor.
  - induction a; constructor; auto.
  - now apply subseq_take.
  - now apply subseq_skip.
  - assumption.
Qed.

(** Whatever the values of [a] and [b], also when [diff] overflows,
    [intvec_intersect a b] is [a] with some elements left out, so that it
    is ascending when [a] is. *)
Theorem intvec_intersect_subsequence (a b : IntVec) :
  subseq (intvec_intersect a b) a /\
  (forall z, In z (intvec_intersect a b) -> In z a) /\
  (ascending a -> ascending (intvec_intersect a b)).
Proof.
  split; [apply intersect_subseq|]. split.
  - intros z. apply intersect_incl_l.
  - apply intersect_sorted.
Qed.

(** The loop of [decode] ends on every string: the fuel of [decode] is
    never used up. *)
Theorem decode_terminates (enc : cstring) :
  exists r,
    decode_loop (decode_fuel enc) enc 0 0 0 intvec_alloc = Some r /\
    decode enc = r.
Proof.
  destruct (decode_total enc) as [r Hr]. exists r. split; [exact Hr|].
  exact (decode_by_fuel enc _ r Hr).
Qed.

(** [edit_distance] is the Levenshtein distance of its arguments: the
    length of a shortest script of insertions, deletions and substitutions
    of one character that turns the one into the other. *)
Theorem edit_distance_levenshtein (a b : cstring) :
  Z.of_nat (length a) < INT_MAX -> Z.of_nat (length b) < INT_MAX ->
  edit_distance a b = lev a b /\
  edits a b (edit_distance a b) /\
  (forall n, edits a b n -> edit_distance a b <= n) /\
  edit_distance a b = edit_distance b a.
Proof.
  intros Ha Hb. rewrite (edit_distance_lev a b Ha Hb), (edit_distance_lev b a Hb Ha).
  split; [reflexivity|]. split; [apply lev_edits|].
  split; [apply edits_lev|apply lev_sym].
Qed.

Lemma edit_distance_levenshtein_witness :
  edit_distance [107; 105; 116; 116; 101; 110] [115; 105; 116; 116; 105; 110; 103] = 3 /\
  edits [107; 105; 116; 116; 101; 110] [115; 105; 116; 116; 105; 110; 103]
    (edit_distance [107; 105; 116; 116; 101; 110] [115; 105; 116; 116; 105; 110; 103]).
Proof.
  split; [vm_compute; reflexivity|].
  apply (edit_distance_levenshtein [107; 105; 116; 116; 101; 110]
           [115; 105; 116; 116; 105; 110; 103]); vm_compute; reflexivity.
Defined.

(** A graph that [wordgraph_init] returns has the [n_words] of the header,
    1024 cells, each with some ids of [1, n_words) in ascending order, and
    one follower string for each of the [n_words] ids. *)
Theorem wordgraph_init_invariants (n : Z) (stream : list cstring) (g : WordGraph) :
  wordgraph_init n stream = Ok g ->
  n_words g = n /\ n_prefixes g = MAX_PREFIXES /\
  Forall (bucket_ok (n_words g)) (prefixes g) /\
  length (followers_compressed g) = length (words g).
Proof. apply wordgraph_init_ok. Qed.

Lemma wordgraph_init_invariants_witness :
  n_words sample_graph = 1025 /\ n_prefixes sample_graph = MAX_PREFIXES /\
  Forall (bucket_ok (n_words sample_graph)) (prefixes sample_graph) /\
  length (followers_compressed sample_graph) = length (words sample_graph).
Proof.
  apply (wordgraph_init_invariants 1025 sample_corpus sample_graph).
  exact sample_graph_built.
Defined.

Lemma backward_step_subseq g words next_words mismatch set mismatch' :
  backward_step g words next_words mismatch = Ok (set, mismatch') ->
  subseq set words /\
  (mismatch' = mismatch \/ mismatch' = wrap32 (mismatch + 1)) /\
  (next_words = None -> set = words /\ mismatch' = wrap32 (mismatch + 1)).
Proof.
  intros H. unfold backward_step in H. destruct next_words as [nw|].
  - destruct (narrow g nw words intvec_alloc) as [new_words| |] eqn:E;
      cbn [bind] in H; try discriminate.
    apply narrow_spec in E. destruct E as (kept & -> & Hsub).
    unfold intvec_alloc in H. cbn [app] in H.
    destruct (intvec_len kept =? 0); cbn [negb] in H; inversion H; subst.
    + split; [apply subseq_refl|]. split; [now right|discriminate].
    + split; [assumption|]. split; [now left|discriminate].
  - cbn [bind] in H. unfold intvec_alloc in H.
    change (negb (intvec_len [] =? 0)) with false in H. inversion H; subst.
    split; [apply subseq_refl|]. split; [now right|]. auto.
Qed.

(** The backward pass, on any chain of at least one position: every set
    is the sampled one with some words left out, the last set is left as
    it was, and the counter ends at 1 at least, the last position being
    counted. *)
Theorem backward_mismatch_at_least_one (g : WordGraph) (word_sets : list IntVec) :
  forall word_sets' mismatch,
  word_sets <> [] -> Z.of_nat (length word_sets) < INT_MAX ->
  backward g word_sets = Ok (word_sets', mismatch) ->
  Forall2 subseq word_sets' word_sets /\
  last word_sets' [] = last word_sets [] /\
  1 <= mismatch <= Z.of_nat (length word_sets).
Proof.
  unfold INT_MAX.
  induction word_sets as [|words later IH]; intros word_sets' mismatch Hne Hlen H;
    [contradiction|].
  cbn [backward] in H.
  destruct (backward g later) as [[later' m]| |] eqn:B; cbn [bind] in H;
    try discriminate.
  destruct (backward_step g words (hd_error later') m) as [[set m']| |] eqn:E;
    cbn [bind] in H; try discriminate.
  inversion H; subst word_sets' mismatch. clear H.
  apply backward_step_subseq in E. destruct E as (Hsub & Hm & Hnone).
  cbn [length] in Hlen.
  destruct later as [|words2 later].
  - cbn [backward] in B. inversion B; subst later' m.
    destruct (Hnone eq_refl) as [-> ->].
    split; [repeat constructor; apply subseq_refl|]. split; [reflexivity|].
    cbn [length]. rewrite wrap32_small; lia.
  - destruct (IH later' m ltac:(discriminate) ltac:(lia) eq_refl) as (F & L & M).
    split; [constructor; assumption|].
    assert (later' <> []) by (intros ->; inversion F).
    split.
    + destruct later' as [|s later']; [contradiction|]. exact L.
    + cbn [length] in M, Hlen |- *. destruct Hm as [->| ->].
      * lia.
      * rewrite wrap32_small by lia. lia.
Qed.

Lemma backward_mismatch_at_least_one_witness :
  Forall2 subseq [[1]; [2]] [[1]; [2]] /\
  last [[1]; [2]] [] = last [[1]; [2]] [] /\
  1 <= 1 <= Z.of_nat (length [[1]; [2]]).
Proof.
  apply (backward_mismatch_at_least_one two_word_graph [[1]; [2]] [[1]; [2]] 1).
  - discriminate.
  - vm_compute. reflexivity.
  - vm_compute. reflexivity.
Defined.

Lemma emit_varint_printable fuel : forall d,
  0 <= d -> Forall (fun c => 32 <= c < 96) (emit_varint fuel d).
Proof.
  induction fuel as [|fuel IH]; intros d Hd; [constructor|].
  rewrite emit_varint_S. destruct (Z.ltb_spec d 32).
  - repeat constructor; lia.
  - pose proof (Z.mod_pos_bound d 32 ltac:(lia)).
    constructor; [lia|]. apply IH. apply Z.div_pos; lia.
Qed.

Lemma tokens_printable ts : forall last,
  tokens_ok last ts -> Forall (fun c => 32 <= c < 128) (flat_map emit ts).
Proof.
  induction ts as [|[n|d] ts IH]; intros last Hok; cbn [flat_map emit tokens_ok] in *.
  - constructor.
  - destruct Hok as (Hn & _ & Hok). constructor; [lia|eauto].
  - destruct Hok as (Hd & _ & Hok). apply Forall_app. split; [|eauto].
    eapply Forall_impl; [|apply emit_varint_printable; lia].
    cbv beta. intros. lia.
Qed.

(** The encoding of a strictly ascending sequence of positive [int]s is
    a C string of bytes from 0x20 to 0x7f: no byte of it is the
    terminator, and [decode] does not read past its terminator. *)
Theorem encode_is_a_string (s : list Z) :
  ascending s -> Forall (fun x => 0 < x <= INT_MAX) s ->
  Forall (fun c => 32 <= c < 128) (encode s) /\
  decode (encode s) <> OutOfBounds.
Proof.
  intros Hs Hf.
  pose proof (ascending_ascending_from s 0 Hs Hf) as Ha.
  destruct (contract_decoded s 0 0 ltac:(lia) ltac:(lia)
              ltac:(unfold INT_MAX; lia) Ha) as [T D].
  rewrite Z.sub_0_r in T, D.
  split; [exact (tokens_printable _ _ T)|].
  destruct (decode_loop_tokens _ [] 0 [] ltac:(lia) T) as [fuel Hfuel].
  cbn [app length] in Hfuel. unfold encode.
  rewrite (decode_by_fuel _ _ _ Hfuel). discriminate.
Qed.

Lemma encode_is_a_string_witness :
  encode [1; 2; 3; 5; 80] = [98; 65; 42; 66] /\
  Forall (fun c => 32 <= c < 128) (encode [1; 2; 3; 5; 80]) /\
  decode (encode [1; 2; 3; 5; 80]) <> OutOfBounds.
Proof.
  split; [vm_compute; reflexivity|].
  apply (encode_is_a_string [1; 2; 3; 5; 80]).
  - unfold ascending. repeat constructor; lia.
  - repeat constructor; unfold INT_MAX; lia.
Defined.

(* ================================================================== *)
(** * More on the matcher *)

(** Whatever the graph and the query, [wordgraph_find_word] returns an
    index of the arrays of the graph, and it returns the sentinel 0
    exactly when no word is at a distance below 10000; any other result is
    the first of the words at the least distance.  (Distances are those
    that [edit_distance] computes; no bound on the strings is needed.) *)
Theorem wordgraph_find_word_range (g : WordGraph) (query : cstring) :
  0 <= wordgraph_find_word g query < Z.max 1 (n_words g) /\
  (wordgraph_find_word g query = 0 <->
   forall i, 1 <= i < n_words g -> 10000 <= edit_distance query (word_of g i)) /\
  (wordgraph_find_word g query <> 0 ->
   edit_distance query (word_of g (wordgraph_find_word g query)) < 10000 /\
   (forall i, 1 <= i < n_words g ->
      edit_distance query (word_of g (wordgraph_find_word g query)) <=
      edit_distance query (word_of g i)) /\
   (forall i, 1 <= i < wordgraph_find_word g query ->
      edit_distance query (word_of g (wordgraph_find_word g query)) <
      edit_distance query (word_of g i))).
Proof.
  pose proof (n_words_tl g) as Hn. unfold wordgraph_find_word.
  destruct (find_word_loop_spec query (tl (words g)) 1 0 10000)
    as [[Hr Hall]|(k & Hk & Hr & Hd & Hmin & Hfirst)]; rewrite Hr.
  - split; [lia|]. split; [|congruence].
    split; [|reflexivity]. intros _ i Hi.
    specialize (Hall (Z.to_nat (i - 1)) ltac:(lia)).
    now rewrite <- word_of_tl in Hall by lia.
  - assert (Wk : nth k (tl (words g)) [] = word_of g (1 + Z.of_nat k)).
    { rewrite word_of_tl by lia. f_equal. lia. }
    rewrite Wk in *.
    split; [lia|]. split.
    + split; [lia|]. intros Hall. specialize (Hall (1 + Z.of_nat k) ltac:(lia)). lia.
    + intros _. split; [exact Hd|]. split.
      * intros i Hi. specialize (Hmin (Z.to_nat (i - 1)) ltac:(lia)).
        now rewrite <- word_of_tl in Hmin by lia.
      * intros i Hi. specialize (Hfirst (Z.to_nat (i - 1)) ltac:(lia)).
        now rewrite <- word_of_tl in Hfirst by lia.
Qed.

(** ** Edit scripts compose *)

Lemma edits_nonneg a b n : edits a b n -> 0 <= n.
Proof. induction 1; lia. Qed.

Lemma edits_trans a b n :
  edits a b n -> forall c m, edits b c m -> exists k, k <= n + m /\ edits a c k.
Proof.
  induction 1 as [|x a b n H IH|y a b n H IH|x a b n H IH|x y a b n H IH Hxy].
  - intros c m Hc. exists m. split; [lia|assumption].
  - intros c m Hc. destruct (IH c m Hc) as (k & Hk & He).
    exists (k + 1). split; [lia|now apply edits_delete].
  - intros c m Hc. remember (y :: b) as b0 eqn:Eb. revert Eb.
    induction Hc as [|x' b1 c m Hc IHc|z b1 c m Hc IHc|x' b1 c m Hc IHc
                     |x' z b1 c m Hc IHc Hne]; intros Eb.
    + discriminate.
    + inversion Eb; subst. destruct (IH c m Hc) as (k & Hk & He).
      exists k. split; [lia|assumption].
    + destruct (IHc Eb) as (k & Hk & He).
      exists (k + 1). split; [lia|now apply edits_insert].
    + inversion Eb; subst. destruct (IH c m Hc) as (k & Hk & He).
      exists (k + 1). split; [lia|now apply edits_insert].
    + inversion Eb; subst. destruct (IH c m Hc) as (k & Hk & He).
      exists (k + 1). split; [lia|now apply edits_insert].
  - intros c m Hc. remember (x :: b) as b0 eqn:Eb. revert Eb.
    induction Hc as [|x' b1 c m Hc IHc|z b1 c m Hc IHc|x' b1 c m Hc IHc
                     |x' z b1 c m Hc IHc Hne]; intros Eb.
    + discriminate.
    + inversion Eb; subst. destruct (IH c m Hc) as (k & Hk & He).
      exists (k + 1). split; [lia|now apply edits_delete].
    + destruct (IHc Eb) as (k & Hk & He).
      exists (k + 1). split; [lia|now apply edits_insert].
    + inversion Eb; subst. destruct (IH c m Hc) as (k & Hk & He).
      exists k. split; [lia|now apply edits_keep].
    + inversion Eb; subst. destruct (IH c m Hc) as (k & Hk & He).
      exists (k + 1). split; [lia|now apply edits_substitute].
  - intros c m Hc. remember (y :: b) as b0 eqn:Eb. revert Eb.
    induction Hc as [|x' b1 c m Hc IHc|z b1 c m Hc IHc|x' b1 c m Hc IHc
                     |x' z b1 c m Hc IHc Hne]; intros Eb.
    + discriminate.
    + inversion Eb; subst. destruct (IH c m Hc) as (k & Hk & He).
      exists (k + 1). split; [lia|now apply edits_delete].
    + destruct (IHc Eb) as (k & Hk & He).
      exists (k + 1). split; [lia|now apply edits_insert].
    + inversion Eb; subst. destruct (IH c m Hc) as (k & Hk & He).
      exists (k + 1). split; [lia|now apply edits_substitute].
    + inversion Eb; subst. destruct (IH c m Hc) as (k & Hk & He).
      destruct (Z.eq_dec x z) as [->|Hxz].
      * exists k. split; [lia|now apply edits_keep].
      * exists (k + 1). split; [lia|now apply edits_substitute].
Qed.

Lemma lev_triangle a b c : lev a c <= lev a b + lev b c.
Proof.
  destruct (edits_trans a b (lev a b) (lev_edits a b) c (lev b c) (lev_edits b c))
    as (k & Hk & He).
  apply edits_lev in He. lia.
Qed.

(** [edit_distance] is a metric on the strings shorter than [INT_MAX]: it
    is 0 on equal strings only, it satisfies the triangle inequality, and
    it lies between the difference and the greater of the two lengths. *)
Theorem edit_distance_metric (a b c : cstring) :
  Z.of_nat (length a) < INT_MAX -> Z.of_nat (length b) < INT_MAX ->
  Z.of_nat (length c) < INT_MAX ->
  (edit_distance a b = 0 <-> a = b) /\
  edit_distance a c <= edit_distance a b + edit_distance b c /\
  Z.abs (Z.of_nat (length a) - Z.of_nat (length b)) <= edit_distance a b /\
  edit_distance a b <= Z.max (Z.of_nat (length a)) (Z.of_nat (length b)).
Proof.
  intros Ha Hb Hc.
  rewrite (edit_distance_lev a b Ha Hb), (edit_distance_lev a c Ha Hc),
    (edit_distance_lev b c Hb Hc).
  split; [|split; [|split]].
  - split; [apply lev_zero|intros ->; apply lev_refl].
  - apply lev_triangle.
  - pose proof (lev_length_diff a b). pose proof (lev_length_diff b a).
    rewrite (lev_sym b a) in *. lia.
  - apply lev_le_max.
Qed.

Lemma edit_distance_metric_witness :
  (edit_distance [97; 98] [97; 99] = 0 <-> [97; 98] = [97; 99]) /\
  edit_distance [97; 98] [98] <=
    edit_distance [97; 98] [97; 99] + edit_distance [97; 99] [98] /\
  Z.abs (Z.of_nat (length [97; 98]) - Z.of_nat (length [97; 99])) <=
    edit_distance [97; 98] [97; 99] /\
  edit_distance [97; 98] [97; 99] <=
    Z.max (Z.of_nat (length [97; 98])) (Z.of_nat (length [97; 99])).
Proof.
  apply (edit_distance_metric [97; 98] [97; 99] [98]); vm_compute; reflexivity.
Defined.

(* ================================================================== *)
(** * More on decode *)

Section DecodeBounds.

Lemma ends_inside_varint_end s :
  ends_inside_varint true s =
  match varint_end s with
  | Some rest => ends_inside_varint false rest
  | None => true
  end.
Proof.
  induction s as [|c s IH]; [reflexivity|].
  cbn [ends_inside_varint varint_end].
  destruct (Z.land c 32 =? 0); cbn [negb]; [reflexivity|exact IH].
Qed.

Lemma decode_varint_end s : forall k acc d di,
  decode_varint s k acc = (d, di) ->
  match varint_end s with
  | Some rest => rest = skipn (di - k) s /\ (k < di <= k + length s)%nat
  | None => di = (k + length s + 1)%nat
  end.
Proof.
  induction s as [|c s IH]; intros k acc d di H.
  - cbn [decode_varint] in H. inversion H. cbn [varint_end length]. lia.
  - rewrite decode_varint_cons in H. cbv zeta in H. cbn [varint_end].
    destruct (Z.land c 32 =? 0).
    + inversion H; subst. replace (S k - k)%nat with 1%nat by lia.
      cbn [skipn length]. split; [reflexivity|lia].
    + apply IH in H. destruct (varint_end s) as [rest|].
      * destruct H as [-> Hdi]. cbn [length].
        replace (di - k)%nat with (S (di - S k)) by lia.
        split; [reflexivity|lia].
      * cbn [length]. lia.
Qed.

Lemma skipn_cons_nth (s : cstring) i c :
  nth_error s i = Some c -> skipn i s = c :: skipn (S i) s.
Proof.
  revert i. induction s as [|x s IH]; intros [|i] H; try discriminate.
  - inversion H. reflexivity.
  - cbn [nth_error] in H. cbn [skipn]. rewrite (IH i H). reflexivity.
Qed.

Lemma char_at_c_string enc i c :
  c_string enc -> char_at enc i = Some c ->
  (c = 0 /\ i = length enc) \/ (c <> 0 /\ nth_error enc i = Some c).
Proof.
  unfold c_string, char_at. intros Hs H.
  destruct (nth_error enc i) as [x|] eqn:E.
  - inversion H; subst. right. split; [|reflexivity].
    rewrite Forall_forall in Hs. apply nth_error_In in E. specialize (Hs c E). lia.
  - destruct (Nat.eqb_spec i (length enc)); [|discriminate].
    inversion H. now left.
Qed.

(** Where the loop of [decode] ends, from any of its states. *)
Lemma decode_loop_scan fuel : forall enc i last zr dec r,
  c_string enc -> (i <= length enc)%nat ->
  decode_loop fuel enc i last zr dec = Some r ->
  (r = OutOfBounds <-> ends_inside_varint false (skipn i enc) = true).
Proof.
  induction fuel as [|fuel IH]; intros enc i last zr dec r Hs Hi H; [discriminate|].
  cbn [decode_loop] in H.
  destruct (char_at_within enc i Hi) as [c Hc]. rewrite Hc in H.
  destruct (char_at_c_string enc i c Hs Hc) as [[-> ->]|[Hc0 Hnth]].
  - rewrite skipn_all. cbn [ends_inside_varint].
    destruct (Z.eqb_spec zr 0) as [Hz|Hz]; cbn [Z.eqb andb negb] in H.
    + inversion H. split; discriminate.
    + apply IH in H; [|assumption|lia].
      rewrite Nat.add_0_r, skipn_all in H. exact H.
  - destruct (Z.eqb_spec c 0) as [?|_]; [contradiction|].
    cbn [andb] in H.
    destruct (Z.eqb_spec zr 0) as [Hz|Hz]; cbn [negb] in H.
    + assert (Hlt : (i < length enc)%nat).
      { apply nth_error_Some. congruence. }
      rewrite (skipn_cons_nth enc i c Hnth). cbn [ends_inside_varint].
      destruct (Z.leb_spec 96 c) as [H96|H96].
      * apply IH in H; [|assumption|lia].
        now rewrite Nat.add_1_r in H.
      * destruct (decode_varint (skipn i enc) 0 0) as [d di] eqn:Hv.
        apply decode_varint_end in Hv.
        rewrite (skipn_cons_nth enc i c Hnth) in Hv. cbn [varint_end] in Hv.
        rewrite Nat.sub_0_r in Hv.
        destruct (Z.land c 32 =? 0); cbn [negb].
        -- destruct Hv as [Hrest Hdi].
           apply IH in H; [|assumption|cbn [length] in Hdi; rewrite length_skipn in Hdi; lia].
           rewrite <- (skipn_cons_nth enc i c Hnth) in Hrest.
           rewrite skipn_skipn in Hrest.
           rewrite (Nat.add_comm i di), <- Hrest in H. exact H.
        -- rewrite ends_inside_varint_end.
           destruct (varint_end (skipn (S i) enc)) as [rest|].
           ++ destruct Hv as [Hrest Hdi].
              apply IH in H; [|assumption|cbn [length] in Hdi; rewrite length_skipn in Hdi; lia].
              rewrite <- (skipn_cons_nth enc i c Hnth) in Hrest.
              rewrite skipn_skipn in Hrest.
              rewrite (Nat.add_comm i di), <- Hrest in H. exact H.
           ++ cbn [length] in Hv. rewrite length_skipn in Hv.
              split; [reflexivity|intros _].
              destruct fuel as [|fuel']; [discriminate|].
              cbn [decode_loop] in H.
              assert (N : char_at enc (i + di) = None).
              { unfold char_at.
                destruct (nth_error enc (i + di)) eqn:E.
                - assert (nth_error enc (i + di) <> None) by congruence.
                  apply nth_error_Some in H0. lia.
                - destruct (Nat.eqb_spec (i + di) (length enc)); [lia|reflexivity]. }
              rewrite N in H. now inversion H.
    + apply IH in H; [|assumption|lia].
      now rewrite Nat.add_0_r in H.
Qed.

(** How much the loop of [decode] appends, and what. *)
Lemma decode_loop_size fuel : forall enc i last zr dec v,
  0 <= zr <= 31 ->
  decode_loop fuel enc i last zr dec = Some (Ok v) ->
  Z.of_nat (length v) <=
    Z.of_nat (length dec) + zr + 32 * Z.of_nat (length enc - i) /\
  (Forall (fun x => INT_MIN <= x <= INT_MAX) dec ->
   Forall (fun x => INT_MIN <= x <= INT_MAX) v).
Proof.
  induction fuel as [|fuel IH]; intros enc i last zr dec v Hz H; [discriminate|].
  cbn [decode_loop] in H.
  destruct (char_at enc i) as [c|] eqn:Hc; [|discriminate].
  pose proof (char_at_Some enc i c Hc) as Hi.
  assert (Hc0 : c <> 0 -> (i < length enc)%nat).
  { intros Hne. destruct (Nat.eq_dec i (length enc)) as [->|]; [|lia].
    rewrite char_at_end in Hc. congruence. }
  assert (Hr : forall x, INT_MIN <= wrap32 x <= INT_MAX).
  { intros x. unfold INT_MIN, INT_MAX, wrap32.
    pose proof (Z.mod_pos_bound (x + 2147483648) 4294967296 ltac:(lia)). lia. }
  destruct (Z.eqb_spec c 0) as [Ec|Ec]; cbn [andb] in H.
  - destruct (Z.eqb_spec zr 0) as [Ez|Ez]; cbn [negb] in H.
    + inversion H; subst. split; [lia|auto].
    + apply IH in H; [|lia]. destruct H as [H1 H2].
      unfold intvec_append in *. rewrite length_app in H1. cbn [length] in H1.
      rewrite Nat.add_0_r in H1. split; [lia|].
      intros Hd. apply H2. apply Forall_app. split; [assumption|].
      repeat constructor; apply Hr.
  - specialize (Hc0 Ec).
    destruct (Z.eqb_spec zr 0) as [Ez|Ez]; cbn [negb] in H.
    + destruct (Z.leb_spec 96 c).
      * apply IH in H; [|apply land_31_range]. destruct H as [H1 H2].
        pose proof (land_31_range c).
        unfold intvec_append in *. rewrite length_app in H1. cbn [length] in H1.
        split; [lia|].
        intros Hd. apply H2. apply Forall_app. split; [assumption|].
        repeat constructor; apply Hr.
      * destruct (decode_varint (skipn i enc) 0 0) as [d di] eqn:Hv.
        apply decode_varint_advances in Hv.
        apply IH in H; [|lia]. destruct H as [H1 H2].
        unfold intvec_append in *. rewrite length_app in H1. cbn [length] in H1.
        split; [lia|].
        intros Hd. apply H2. apply Forall_app. split; [assumption|].
        repeat constructor; apply Hr.
    + apply IH in H; [|lia]. destruct H as [H1 H2].
      unfold intvec_append in *. rewrite length_app in H1. cbn [length] in H1.
      rewrite Nat.add_0_r in H1. split; [lia|].
      intros Hd. apply H2. apply Forall_app. split; [assumption|].
      repeat constructor; apply Hr.
Qed.


End DecodeBounds.

(** On a C string, [decode] reads past the terminator exactly when the
    string ends in the middle of a varint; otherwise it returns a vector,
    of at most 32 values for each byte of the string, all of them [int]s.
    It never ends the process. *)
Theorem decode_bounds (enc : cstring) :
  c_string enc ->
  (decode enc = OutOfBounds <-> ends_inside_varint false enc = true) /\
  (ends_inside_varint false enc = false -> exists v, decode enc = Ok v) /\
  (forall v, decode enc = Ok v ->
     Z.of_nat (length v) <= 32 * Z.of_nat (length enc) /\
     Forall (fun x => INT_MIN <= x <= INT_MAX) v) /\
  (forall status, decode enc <> Fatal status).
Proof.
  intros Hs. destruct (decode_total enc) as [r Hr].
  pose proof (decode_by_fuel enc _ r Hr) as E.
  pose proof (decode_loop_scan _ enc 0 0 0 [] r Hs ltac:(lia) Hr) as S.
  cbn [skipn] in S. rewrite E.
  split; [exact S|]. split; [|split].
  - intros Hn. destruct r as [v| |]; [eauto| |].
    + exfalso. rewrite <- E in *. now apply decode_no_fatal in E.
    + destruct S as [S _]. rewrite S in Hn by reflexivity. discriminate.
  - intros v ->. apply decode_loop_size in Hr; [|lia]. destruct Hr as [H1 H2].
    cbn [length] in H1. rewrite Nat.sub_0_r in H1. split; [lia|].
    apply H2. constructor.
  - intros status ->. rewrite <- E in *. now apply decode_no_fatal in E.
Qed.

Lemma decode_bounds_witness :
  ends_inside_varint false [98; 65; 42; 66] = false /\
  exists v, decode [98; 65; 42; 66] = Ok v.
Proof.
  split; [reflexivity|].
  apply (decode_bounds [98; 65; 42; 66]).
  - unfold c_string. repeat constructor.
  - reflexivity.
Defined.

(* ================================================================== *)
(** * The cells sort the words by prefix *)

Section Partition.

Lemma add_to_prefix_group_shape n p i : forall cells cells',
  add_to_prefix_group n cells p i = Ok cells' ->
  (exists pre cell post,
     cells = pre ++ cell :: post /\ bucket_prefix cell = p /\
     Forall (fun c => bucket_prefix c <> p) pre /\
     cells' = pre ++ {| bucket_prefix := p;
                        bucket_words := bucket_words cell ++ [i] |} :: post) \/
  (Forall (fun c => bucket_prefix c <> p) cells /\
   cells' = cells ++ [ {| bucket_prefix := p; bucket_words := [i] |} ]).
Proof.
  induction cells as [|c cells IH]; intros cells' H; cbn [add_to_prefix_group] in H.
  - destruct (n =? MAX_PREFIXES); [discriminate|]. inversion H.
    right. split; [constructor|reflexivity].
  - unfold prefix_eqb in H.
    destruct (list_eq_dec Z.eq_dec (bucket_prefix c) p) as [E|E].
    + inversion H. left. exists [], c, cells. rewrite E.
      repeat split; constructor.
    + destruct (add_to_prefix_group n cells p i) as [cells''| |] eqn:A;
        cbn [bind] in H; try discriminate.
      inversion H; subst.
      destruct (IH _ eq_refl) as [(pre & cell & post & -> & Hp & Hpre & ->)|[Hall ->]].
      * left. exists (c :: pre), cell, post. repeat split; auto.
      * right. split; [constructor; auto|reflexivity].
Qed.

Lemma nth_snoc_old (ws : list cstring) w k :
  (k < length ws)%nat -> nth k (ws ++ [w]) [] = nth k ws [].
Proof. intros H. now rewrite app_nth1. Qed.

Lemma nth_snoc_new (ws : list cstring) w :
  nth (length ws) (ws ++ [w]) [] = w.
Proof. rewrite app_nth2, Nat.sub_diag by lia. reflexivity. Qed.

Lemma cell_partition_other i ws w p cell :
  1 <= i -> length ws = Z.to_nat i ->
  extract_prefix w 0 PREFIX_LEN = Ok p ->
  bucket_prefix cell <> p ->
  cell_partition i ws cell -> cell_partition (i + 1) (ws ++ [w]) cell.
Proof.
  intros Hi Hlen Hw Hne Hc k. rewrite (Hc k). split.
  - intros [Hk Hp]. split; [lia|]. rewrite nth_snoc_old by lia. exact Hp.
  - intros [Hk Hp]. destruct (Z.eq_dec k i) as [->|Hki].
    + rewrite <- Hlen, nth_snoc_new in Hp. congruence.
    + split; [lia|]. rewrite nth_snoc_old in Hp by lia. exact Hp.
Qed.

Lemma cell_partition_same i ws w cell :
  1 <= i -> length ws = Z.to_nat i ->
  extract_prefix w 0 PREFIX_LEN = Ok (bucket_prefix cell) ->
  cell_partition i ws cell ->
  cell_partition (i + 1) (ws ++ [w])
    {| bucket_prefix := bucket_prefix cell;
       bucket_words := bucket_words cell ++ [i] |}.
Proof.
  intros Hi Hlen Hw Hc k. cbn [bucket_words bucket_prefix].
  rewrite in_app_iff, (Hc k). cbn [In]. split.
  - intros [[Hk Hp]|[<-|[]]].
    + split; [lia|]. rewrite nth_snoc_old by lia. exact Hp.
    + split; [lia|]. rewrite <- Hlen, nth_snoc_new. exact Hw.
  - intros [Hk Hp]. destruct (Z.eq_dec k i) as [->|Hki]; [now right; left|].
    left. split; [lia|]. rewrite nth_snoc_old in Hp by lia. exact Hp.
Qed.

Lemma partition_inv_step n i ws w p cells cells' :
  1 <= i -> length ws = Z.to_nat i ->
  extract_prefix w 0 PREFIX_LEN = Ok p ->
  add_to_prefix_group n cells p i = Ok cells' ->
  partition_inv i ws cells -> partition_inv (i + 1) (ws ++ [w]) cells'.
Proof.
  intros Hi Hlen Hw Hadd (Hnd & Hcells & Hcov).
  apply add_to_prefix_group_shape in Hadd.
  destruct Hadd as [(pre & cell & post & -> & Hp & Hpre & ->)|[Hall ->]].
  - rewrite map_app in Hnd. cbn [map] in Hnd.
    apply Forall_app in Hcells. destruct Hcells as [Hc1 Hc2].
    inversion Hc2 as [|? ? Hcell Hc3]; subst.
    assert (Hpost : Forall (fun c => bucket_prefix c <> bucket_prefix cell) post).
    { apply Forall_forall. intros c Hc E.
      apply NoDup_remove_2 in Hnd. apply Hnd. apply in_or_app. right.
      rewrite <- E. now apply in_map. }
    split; [|split].
    + rewrite map_app. cbn [map bucket_prefix]. exact Hnd.
    + apply Forall_app. split.
      * rewrite Forall_forall in *. intros c Hc.
        apply (cell_partition_other i ws w (bucket_prefix cell)); auto.
      * constructor.
        -- now apply cell_partition_same.
        -- rewrite Forall_forall in *. intros c Hc.
           apply (cell_partition_other i ws w (bucket_prefix cell)); auto.
    + intros k Hk. destruct (Z.eq_dec k i) as [->|Hki].
      * eexists. split; [apply in_or_app; right; left; reflexivity|].
        cbn [bucket_words]. apply in_or_app. right. now left.
      * destruct (Hcov k ltac:(lia)) as (c & Hc & Hin).
        apply in_app_or in Hc. destruct Hc as [Hc|[<-|Hc]].
        -- exists c. split; [apply in_or_app; now left|assumption].
        -- eexists. split; [apply in_or_app; right; left; reflexivity|].
           cbn [bucket_words]. apply in_or_app. now left.
        -- exists c. split; [apply in_or_app; right; now right|assumption].
  - split; [|split].
    + rewrite map_app. cbn [map bucket_prefix].
      apply NoDup_snoc; [assumption|]. intros Hin. apply in_map_iff in Hin.
      destruct Hin as (c & E & Hc). rewrite Forall_forall in Hall.
      now apply (Hall c Hc).
    + apply Forall_app. split.
      * rewrite Forall_forall in *. intros c Hc.
        apply (cell_partition_other i ws w p); auto.
      * constructor; [|constructor]. intros k. cbn [bucket_words bucket_prefix In].
        split.
        -- intros [<-|[]]. split; [lia|]. rewrite <- Hlen, nth_snoc_new. exact Hw.
        -- intros [Hk Hp]. destruct (Z.eq_dec k i) as [->|Hki]; [now left|].
           exfalso. destruct (Hcov k ltac:(lia)) as (c & Hc & Hin).
           rewrite Forall_forall in Hcells, Hall.
           apply (Hcells c Hc) in Hin. destruct Hin as [_ Hpc].
           rewrite nth_snoc_old in Hp by lia. apply (Hall c Hc). congruence.
    + intros k Hk. destruct (Z.eq_dec k i) as [->|Hki].
      * eexists. split; [apply in_or_app; right; left; reflexivity|]. now left.
      * destruct (Hcov k ltac:(lia)) as (c & Hc & Hin).
        exists c. split; [apply in_or_app; now left|assumption].
Qed.

Lemma read_words_partition count : forall i stream ws cells ws' cells' stream',
  1 <= i -> length ws = Z.to_nat i -> partition_inv i ws cells ->
  read_words count i stream ws cells = Ok (ws', cells', stream') ->
  partition_inv (i + Z.of_nat count) ws' cells'.
Proof.
  induction count as [|count IH]; intros i stream ws cells ws' cells' stream' Hi Hlen Hinv H.
  - cbn [read_words] in H. inversion H; subst. now rewrite Z.add_0_r.
  - cbn [read_words] in H. destruct stream as [|w stream]; [discriminate|].
    cbn [getline_trimmed bind] in H.
    destruct (extract_prefix w 0 PREFIX_LEN) as [p| |] eqn:Hp; cbn [bind] in H;
      try discriminate.
    destruct (add_to_prefix_group (Z.of_nat (length cells)) cells p i)
      as [cells1| |] eqn:Hadd; cbn [bind] in H; try discriminate.
    apply IH in H.
    + replace (i + Z.of_nat (S count)) with (i + 1 + Z.of_nat count) by lia. exact H.
    + lia.
    + rewrite length_app. cbn [length]. lia.
    + now apply (partition_inv_step (Z.of_nat (length cells)) i ws w p cells cells1).
Qed.

Lemma wordgraph_init_partition_inv n stream g :
  wordgraph_init n stream = Ok g ->
  partition_inv (n_words g) (words g) (prefixes g).
Proof.
  intros H. pose proof (wordgraph_init_ok n stream g H) as (Hn & _).
  unfold wordgraph_init in H.
  destruct (read_words (Z.to_nat (n - 1)) 1 stream [[]] [])
    as [[[ws cells] stream']| |] eqn:R; cbn [bind] in H; try discriminate.
  destruct (negb (Z.of_nat (length cells) =? MAX_PREFIXES)); [discriminate|].
  destruct (read_followers (Z.to_nat n) stream') as [fs| |]; cbn [bind] in H;
    try discriminate.
  inversion H; subst g. clear H. cbn [words prefixes] in *.
  unfold n_words in *. cbn [words] in *.
  pose proof (read_words_ok (Z.to_nat (n - 1)) 1 stream [[]] [] ws cells stream'
                ltac:(lia) (Forall_nil _) R) as [_ Hl].
  cbn [length] in Hl.
  apply read_words_partition in R.
  - replace (Z.of_nat (length ws)) with (1 + Z.of_nat (Z.to_nat (n - 1))) by lia.
    exact R.
  - lia.
  - reflexivity.
  - split; [constructor|]. split; [constructor|]. intros k Hk. lia.
Qed.

End Partition.

(** In every graph that [wordgraph_init] returns, the cells sort the
    words by their lowercase prefix: no two cells have the same prefix,
    an id is in a cell exactly when the prefix of its word is the prefix of
    the cell, and every id is in a cell. *)
Theorem wordgraph_init_partition (n : Z) (stream : list cstring) (g : WordGraph) :
  wordgraph_init n stream = Ok g ->
  NoDup (map bucket_prefix (prefixes g)) /\
  (forall cell i, In cell (prefixes g) ->
     (In i (bucket_words cell) <->
      1 <= i < n_words g /\
      extract_prefix (word_of g i) 0 PREFIX_LEN = Ok (bucket_prefix cell))) /\
  (forall i, 1 <= i < n_words g ->
     exists cell, In cell (prefixes g) /\ In i (bucket_words cell)).
Proof.
  intros H. apply wordgraph_init_partition_inv in H.
  destruct H as (Hnd & Hcells & Hcov).
  split; [assumption|]. split; [|assumption].
  intros cell i Hc. rewrite Forall_forall in Hcells. apply (Hcells cell Hc).
Qed.

Lemma wordgraph_init_partition_witness :
  NoDup (map bucket_prefix (prefixes sample_graph)) /\
  (forall cell i, In cell (prefixes sample_graph) ->
     (In i (bucket_words cell) <->
      1 <= i < n_words sample_graph /\
      extract_prefix (word_of sample_graph i) 0 PREFIX_LEN =
        Ok (bucket_prefix cell))) /\
  (forall i, 1 <= i < n_words sample_graph ->
     exists cell, In cell (prefixes sample_graph) /\ In i (bucket_words cell)).
Proof.
  apply (wordgraph_init_partition 1025 sample_corpus sample_graph).
  exact sample_graph_built.
Defined.

(* ================================================================== *)
(** * The words of a round *)

Section Rounds.

Variable g : WordGraph.

Lemma choose_word_sets_cells : forall pc ps sets,
  choose_word_sets g pc = Ok (ps, sets) ->
  ps = map (fun r => Z.land r (MAX_PREFIXES - 1)) pc /\
  Forall2 (fun p set => exists cell,
             lookup (prefixes g) p = Ok cell /\ set = bucket_words cell) ps sets.
Proof.
  induction pc as [|r pc IH]; intros ps sets H; cbn [choose_word_sets] in H.
  - inversion H. split; [reflexivity|constructor].
  - cbv zeta in H.
    destruct (lookup (prefixes g) (Z.land r (MAX_PREFIXES - 1))) as [cell| |] eqn:L;
      cbn [bind] in H; try discriminate.
    destruct (choose_word_sets g pc) as [[ps0 sets0]| |] eqn:C; cbn [bind] in H;
      try discriminate.
    inversion H; subst. destruct (IH _ _ eq_refl) as [-> F].
    split; [reflexivity|]. constructor; [|assumption].
    exists cell. split; [assumption|apply intvec_copy_id].
Qed.

Lemma lookup_In {A} (arr : list A) i x : lookup arr i = Ok x -> In x arr.
Proof.
  unfold lookup. destruct (i <? 0); [discriminate|].
  destruct (nth_error arr (Z.to_nat i)) eqn:E; [|discriminate].
  intros H. inversion H; subst. now apply nth_error_In in E.
Qed.

Lemma backward_subseq : forall sets sets' m,
  backward g sets = Ok (sets', m) -> Forall2 subseq sets' sets.
Proof.
  induction sets as [|words later IH]; intros sets' m H; cbn [backward] in H.
  - inversion H. constructor.
  - destruct (backward g later) as [[later' m0]| |] eqn:B; cbn [bind] in H;
      try discriminate.
    destruct (backward_step g words (hd_error later') m0) as [[set m']| |] eqn:E;
      cbn [bind] in H; try discriminate.
    inversion H; subst. apply backward_step_subseq in E.
    constructor; [apply E|eauto].
Qed.

Lemma subseq_In s l w : subseq s l -> In w s -> In w l.
Proof.
  induction 1 as [|x s l Hsub IH|x s l Hsub IH]; cbn [In]; intuition.
Qed.

Lemma intvec_get_0_In v w : intvec_get v 0 = Ok w -> In w v.
Proof.
  destruct v as [|x v]; [discriminate|].
  rewrite intvec_get_first. intros H. inversion H. now left.
Qed.

Lemma forward_pick set followers w :
  intvec_get (if negb (intvec_len (intvec_intersect set followers) =? 0)
              then intvec_intersect set followers else set) 0 = Ok w ->
  In w set /\
  (intvec_intersect set followers <> [] -> In w (intvec_intersect set followers)).
Proof.
  intros H. unfold intvec_len in H.
  destruct (intvec_intersect set followers) as [|x common] eqn:E.
  - cbn [length Z.of_nat Z.eqb negb] in H. split; [now apply intvec_get_0_In|].
    congruence.
  - replace (Z.of_nat (length (x :: common)) =? 0) with false in H
      by (symmetry; apply Z.eqb_neq; cbn [length]; lia).
    cbn [negb] in H. apply intvec_get_0_In in H. split; [|auto].
    apply (intersect_incl_l set followers). now rewrite E.
Qed.

Lemma forward_members : forall sets lw chosen,
  forward g lw sets = Ok chosen -> Forall2 (fun w set => In w set) chosen sets.
Proof.
  induction sets as [|set later IH]; intros lw chosen H.
  - cbn [forward] in H. inversion H. constructor.
  - rewrite forward_cons in H.
    destruct (followers_of g lw) as [f| |]; cbn [bind] in H; try discriminate.
    destruct (intvec_get _ 0) as [w| |] eqn:G; cbn [bind] in H; try discriminate.
    destruct (forward g w later) as [rest| |] eqn:F; cbn [bind] in H;
      try discriminate.
    inversion H; subst. constructor; [|eauto].
    now apply forward_pick in G.
Qed.

(** ** Links *)

Lemma wrap32_is_int x : is_int (wrap32 x).
Proof.
  unfold is_int, INT_MIN, INT_MAX, wrap32.
  pose proof (Z.mod_pos_bound (x + 2147483648) 4294967296 ltac:(lia)). lia.
Qed.











End Rounds.

Lemma Forall2_compose {A B C} (P : A -> B -> Prop) (Q : B -> C -> Prop)
    (R : A -> C -> Prop) :
  (forall a b c, P a b -> Q b c -> R a c) ->
  forall la lb lc, Forall2 P la lb -> Forall2 Q lb lc -> Forall2 R la lc.
Proof.
  intros HR la lb lc HP. revert lc.
  induction HP as [|a b la lb Hab HP IH]; intros lc HQ; inversion HQ; subst;
    constructor; eauto.
Qed.

Lemma Forall2_flip {A B} (P : A -> B -> Prop) la lb :
  Forall2 P la lb -> Forall2 (fun b a => P a b) lb la.
Proof. induction 1; constructor; auto. Qed.

Lemma generate_round_matches (n : Z) (stream : list cstring)
    (g : WordGraph) (start_word : Z) (prefixes_chosen : list Z) (r : Round) :
  wordgraph_init n stream = Ok g ->
  generate_round g start_word prefixes_chosen = Ok r ->
  round_prefixes r = map (fun x => Z.land x (MAX_PREFIXES - 1)) prefixes_chosen /\
  Forall (fun p => 0 <= p < MAX_PREFIXES) (round_prefixes r) /\
  Forall2 (word_matches_prefix g) (round_words r) (round_prefixes r).
Proof.
  intros Hg H. pose proof (wordgraph_init_partition_inv n stream g Hg) as (_ & Hcells & _).
  unfold generate_round in H.
  destruct (choose_word_sets g prefixes_chosen) as [[ps sets]| |] eqn:C;
    cbn [bind] in H; try discriminate.
  destruct (backward g sets) as [[sets' m]| |] eqn:B; cbn [bind] in H;
    try discriminate.
  destruct (forward g start_word sets') as [chosen| |] eqn:F; cbn [bind] in H;
    try discriminate.
  inversion H; subst r. clear H. cbn [round_prefixes round_words].
  apply choose_word_sets_cells in C. destruct C as [Hps Hsets].
  apply backward_subseq in B. apply forward_members in F.
  split; [assumption|]. split.
  - rewrite Hps. apply Forall_forall. intros p Hp. apply in_map_iff in Hp.
    destruct Hp as (x & <- & _). apply land_1023_range.
  - assert (F' : Forall2 (fun w set => In w set) chosen sets).
    { apply (Forall2_compose (fun w set => In w set) subseq _) with (lb := sets');
        [|assumption|assumption].
      intros w s l Hin Hsub. now apply (subseq_In s l). }
    apply (Forall2_compose (fun w set => In w set)
             (fun set p => exists cell,
                lookup (prefixes g) p = Ok cell /\ set = bucket_words cell) _)
      with (lb := sets); [|assumption|now apply Forall2_flip].
    intros w set p Hin (cell & L & ->). exists cell.
    rewrite Forall_forall in Hcells.
    pose proof (Hcells cell (lookup_In _ _ _ L) w) as Hw.
    apply Hw in Hin. destruct Hin as [Hr Hp].
    repeat split; try assumption; try lia. now apply Hw.
Qed.

(** In every round on a graph that
    [wordgraph_init] returned, the sampled cells are the random ints
    masked to 10 bits, and the word printed at each position is a word of
    the cell sampled there, the prefix printed for the cell being the
    lowercase prefix of that word. *)
Theorem round_words_match_prefixes (n : Z) (stream : list cstring)
    (g : WordGraph) (start_word : Z) (prefixes_chosen : list Z) (r : Round) :
  wordgraph_init n stream = Ok g ->
  generate_round g start_word prefixes_chosen = Ok r ->
  round_prefixes r = map (fun x => Z.land x (MAX_PREFIXES - 1)) prefixes_chosen /\
  Forall (fun p => 0 <= p < MAX_PREFIXES) (round_prefixes r) /\
  Forall2 (word_matches_prefix g) (round_words r) (round_prefixes r).
Proof. apply generate_round_matches. Qed.

Lemma round_words_match_prefixes_witness :
  Forall2 (word_matches_prefix sample_graph) [6; 977; 1024] [5; 976; 1023].
Proof.
  apply (round_words_match_prefixes 1025 sample_corpus sample_graph 0 [5; 2000; -1]
           {| round_prefixes := [5; 976; 1023];
              round_word_sets := [[6]; [977]; [1024]];
              round_mismatch := 1; round_words := [6; 977; 1024] |}).
  - exact sample_graph_built.
  - vm_compute. reflexivity.
Defined.



(* ================================================================== *)
(** * The struct behind the vectors *)

Section LayoutProofs.

Lemma contents_len vec :
  layout_ok vec -> intvec_len (contents vec) = Layout.len vec.
Proof.
  intros (Hl & Hd & _). unfold intvec_len, contents.
  rewrite length_map, length_firstn. lia.
Qed.

Lemma store_within block i x :
  0 <= i < Z.of_nat (length block) ->
  exists block',
    Layout.store block i x = Ok block' /\
    length block' = length block /\
    firstn (S (Z.to_nat i)) block' = firstn (Z.to_nat i) block ++ [Some x] /\
    skipn (S (Z.to_nat i)) block' = skipn (S (Z.to_nat i)) block.
Proof.
  intros Hi. unfold Layout.store.
  destruct (Z.ltb_spec i 0); [lia|].
  destruct (Z.leb_spec (Z.of_nat (length block)) i); [lia|].
  cbn [orb]. eexists. split; [reflexivity|].
  set (n := Z.to_nat i). assert (Hn : (n < length block)%nat) by lia.
  assert (Hf : length (firstn n block) = n) by (rewrite length_firstn; lia).
  split; [|split].
  - rewrite length_app, Hf. cbn [length]. rewrite length_skipn. lia.
  - rewrite firstn_app, Hf.
    rewrite (@firstn_all2 _ (S n) (firstn n block)) by lia.
    replace (S n - n)%nat with 1%nat by lia. reflexivity.
  - rewrite skipn_app, Hf.
    rewrite (@skipn_all2 _ (S n) (firstn n block)) by lia.
    replace (S n - n)%nat with 1%nat by lia. reflexivity.
Qed.

Lemma pow2_pos k : 1 <= 2 ^ Z.of_nat k.
Proof. pose proof (Z.pow_pos_nonneg 2 (Z.of_nat k)). lia. Qed.

Lemma layout_append_step vec val :
  layout_ok vec -> Layout.len vec < 1073741824 ->
  exists vec',
    Layout.intvec_append vec val = Ok vec' /\ layout_ok vec' /\
    contents vec' = intvec_append (contents vec) val /\
    Layout.len vec' = Layout.len vec + 1 /\
    Layout.cap vec' =
      (if Layout.len vec =? Layout.cap vec then 2 * Layout.cap vec
       else Layout.cap vec).
Proof.
  destruct vec as [l c d]. unfold layout_ok, contents, intvec_append.
  cbn [Layout.len Layout.cap Layout.data].
  intros (Hlc & Hd & [k Hk] & Hdbl & Hinit) Hlt.
  pose proof (pow2_pos k) as Hpos.
  unfold Layout.intvec_append. cbn [Layout.len Layout.cap Layout.data].
  destruct (Z.eqb_spec l c) as [->|Hne].
  - cbn [Layout.len Layout.cap Layout.data].
    rewrite (wrap32_small (c * 2)) by lia.
    assert (Hre : Layout.realloc d (c * 2) = d ++ repeat None (Z.to_nat c)).
    { unfold Layout.realloc. rewrite firstn_all2 by lia.
      f_equal. f_equal. lia. }
    rewrite Hre.
    destruct (store_within (d ++ repeat None (Z.to_nat c)) c val)
      as (block & -> & Hlen & Hfirst & _).
    { rewrite length_app, repeat_length. lia. }
    cbn [bind]. rewrite (wrap32_small (c + 1)) by lia.
    eexists. split; [reflexivity|].
    cbn [Layout.len Layout.cap Layout.data].
    assert (Hfd : firstn (Z.to_nat c) (d ++ repeat None (Z.to_nat c)) = d).
    { rewrite firstn_app. replace (Z.to_nat c - length d)%nat with 0%nat by lia.
      rewrite firstn_all2 by lia. cbn [firstn]. apply app_nil_r. }
    rewrite firstn_all2 in Hinit by lia.
    replace (Z.to_nat (c + 1)) with (S (Z.to_nat c)) by lia.
    rewrite Hfirst, Hfd.
    split; [|split; [|split; [lia|lia]]].
    + split; [lia|]. split.
      * rewrite Hlen, length_app, repeat_length. lia.
      * split.
        -- exists (S k). rewrite Nat2Z.inj_succ, Z.pow_succ_r by lia. lia.
        -- split; [left; lia|].
           apply Forall_app. split; [assumption|].
           constructor; [discriminate|constructor].
    + rewrite map_app. rewrite (@firstn_all2 _ (Z.to_nat c) d) by lia.
      reflexivity.
  - cbn [Layout.len Layout.cap Layout.data].
    destruct (store_within d l val) as (block & -> & Hlen & Hfirst & _); [lia|].
    cbn [bind]. rewrite (wrap32_small (l + 1)) by lia.
    eexists. split; [reflexivity|].
    cbn [Layout.len Layout.cap Layout.data].
    replace (Z.to_nat (l + 1)) with (S (Z.to_nat l)) by lia.
    rewrite Hfirst.
    split; [|split; [|split; [lia|reflexivity]]].
    + split; [lia|]. split; [lia|]. split; [now exists k|].
      split; [lia|].
      apply Forall_app. split; [assumption|].
      constructor; [discriminate|constructor].
    + rewrite map_app. reflexivity.
Qed.

Lemma layout_alloc_ok :
  layout_ok Layout.intvec_alloc /\ contents Layout.intvec_alloc = intvec_alloc.
Proof.
  split; [|reflexivity]. unfold layout_ok. cbn.
  split; [lia|]. split; [reflexivity|]. split; [now exists 0%nat|].
  split; [now right|constructor].
Qed.

Lemma layout_load vec i :
  layout_ok vec -> 0 <= i < Layout.len vec ->
  exists x, Layout.load (Layout.data vec) i = Ok x /\
            nth_error (contents vec) (Z.to_nat i) = Some x.
Proof.
  intros (Hlc & Hd & _ & _ & Hinit) Hi. unfold Layout.load, contents.
  destruct (Z.ltb_spec i 0); [lia|].
  rewrite nth_error_map.
  assert (E : nth_error (firstn (Z.to_nat (Layout.len vec)) (Layout.data vec))
                (Z.to_nat i) = nth_error (Layout.data vec) (Z.to_nat i)).
  { rewrite nth_error_firstn.
    destruct (Nat.ltb_spec (Z.to_nat i) (Z.to_nat (Layout.len vec)));
      [reflexivity|lia]. }
  destruct (nth_error (firstn (Z.to_nat (Layout.len vec)) (Layout.data vec))
              (Z.to_nat i)) as [c|] eqn:N.
  - pose proof (nth_error_In _ _ N) as Hin.
    rewrite Forall_forall in Hinit. specialize (Hinit c Hin).
    rewrite <- E. destruct c as [x|]; [|congruence]. exists x. split; reflexivity.
  - apply nth_error_None in N. rewrite length_firstn in N. lia.
Qed.

Lemma layout_get vec pos :
  layout_ok vec -> Layout.intvec_get vec pos = intvec_get (contents vec) pos.
Proof.
  intros Hok. unfold Layout.intvec_get, intvec_get.
  rewrite (contents_len vec Hok).
  destruct (Z.ltb_spec pos 0); [reflexivity|].
  destruct (Z.leb_spec (Layout.len vec) pos); [reflexivity|]. cbn [orb].
  destruct (layout_load vec pos Hok ltac:(lia)) as (x & -> & Hx).
  f_equal. symmetry. now apply nth_error_nth.
Qed.

Lemma layout_copy_loop count : forall vec i ret,
  layout_ok vec -> layout_ok ret -> 0 <= i ->
  i + Z.of_nat count = Layout.len vec -> Layout.len ret = i ->
  Layout.len vec <= 1073741824 ->
  exists r,
    Layout.copy_loop count vec i ret = Ok r /\ layout_ok r /\
    contents r = contents ret ++ skipn (Z.to_nat i) (contents vec).
Proof.
  induction count as [|count IH]; intros vec i ret Hv Hr Hi Hsum Hlen Hmax.
  - cbn [Layout.copy_loop]. exists ret. split; [reflexivity|]. split; [assumption|].
    rewrite skipn_all2, app_nil_r; [reflexivity|].
    pose proof (contents_len vec Hv) as L. unfold intvec_len in L. lia.
  - cbn [Layout.copy_loop].
    destruct (layout_load vec i Hv ltac:(lia)) as (x & -> & Hx). cbn [bind].
    destruct (layout_append_step ret x Hr ltac:(lia))
      as (ret' & -> & Hr' & Hc & Hl & _).
    cbn [bind]. rewrite (wrap32_small (i + 1)) by lia.
    destruct (IH vec (i + 1) ret' Hv Hr' ltac:(lia) ltac:(lia) ltac:(lia) Hmax)
      as (r & -> & Hok & Hcr).
    exists r. split; [reflexivity|]. split; [assumption|].
    rewrite Hcr, Hc. unfold intvec_append. rewrite <- app_assoc. f_equal.
    rewrite (skipn_cons_nth (contents vec) (Z.to_nat i) x Hx). cbn [app].
    do 2 f_equal. lia.
Qed.

Lemma layout_intersect_loop fuel : forall a b ai bi ret,
  layout_ok a -> layout_ok b -> layout_ok ret ->
  0 <= ai <= Layout.len a -> 0 <= bi <= Layout.len b ->
  Layout.len ret <= ai ->
  Layout.len a <= 1073741824 -> Layout.len b <= 1073741824 ->
  (Z.to_nat (Layout.len a - ai) + Z.to_nat (Layout.len b - bi) < fuel)%nat ->
  exists r,
    Layout.intersect_loop fuel a b ai bi ret = Some (Ok r) /\ layout_ok r /\
    contents r =
      contents ret ++
      intvec_intersect (skipn (Z.to_nat ai) (contents a))
                       (skipn (Z.to_nat bi) (contents b)).
Proof.
  induction fuel as [|fuel IH]; intros a b ai bi ret Ha Hb Hr Hai Hbi Hlen Hma Hmb Hf;
    [lia|].
  cbn [Layout.intersect_loop].
  pose proof (contents_len a Ha) as La. pose proof (contents_len b Hb) as Lb.
  unfold intvec_len in La, Lb.
  destruct (Z.ltb_spec ai (Layout.len a)) as [Hlta|Hgea]; cbn [andb].
  2:{ exists ret. split; [reflexivity|]. split; [assumption|].
      rewrite (@skipn_all2 _ (Z.to_nat ai) (contents a)) by lia.
      now rewrite intersect_nil_l, app_nil_r. }
  destruct (Z.ltb_spec bi (Layout.len b)) as [Hltb|Hgeb].
  2:{ exists ret. split; [reflexivity|]. split; [assumption|].
      rewrite (@skipn_all2 _ (Z.to_nat bi) (contents b)) by lia.
      now rewrite intersect_nil_r, app_nil_r. }
  destruct (layout_load a ai Ha ltac:(lia)) as (x & -> & Hx).
  destruct (layout_load b bi Hb ltac:(lia)) as (y & -> & Hy).
  rewrite (skipn_cons_nth (contents a) (Z.to_nat ai) x Hx).
  rewrite (skipn_cons_nth (contents b) (Z.to_nat bi) y Hy).
  rewrite intersect_cons. cbv zeta.
  rewrite (wrap32_small (ai + 1)) by lia. rewrite (wrap32_small (bi + 1)) by lia.
  replace (S (Z.to_nat ai)) with (Z.to_nat (ai + 1)) by lia.
  replace (S (Z.to_nat bi)) with (Z.to_nat (bi + 1)) by lia.
  destruct (wrap32 (x - y) =? 0).
  - destruct (layout_append_step ret x Hr ltac:(lia))
      as (ret' & -> & Hr' & Hc & Hl & _).
    destruct (IH a b (ai + 1) (bi + 1) ret' Ha Hb Hr' ltac:(lia) ltac:(lia)
                ltac:(lia) Hma Hmb ltac:(lia)) as (r & -> & Hok & Hcr).
    exists r. split; [reflexivity|]. split; [assumption|].
    rewrite Hcr, Hc. unfold intvec_append. now rewrite <- app_assoc.
  - destruct (wrap32 (x - y) <? 0).
    + destruct (IH a b (ai + 1) bi ret Ha Hb Hr ltac:(lia) ltac:(lia)
                  ltac:(lia) Hma Hmb ltac:(lia)) as (r & -> & Hok & Hcr).
      exists r. split; [reflexivity|]. split; [assumption|].
      rewrite Hcr. rewrite (skipn_cons_nth (contents b) (Z.to_nat bi) y Hy).
      replace (S (Z.to_nat bi)) with (Z.to_nat (bi + 1)) by lia. reflexivity.
    + destruct (IH a b ai (bi + 1) ret Ha Hb Hr ltac:(lia) ltac:(lia)
                  ltac:(lia) Hma Hmb ltac:(lia)) as (r & -> & Hok & Hcr).
      exists r. split; [reflexivity|]. split; [assumption|].
      rewrite Hcr. rewrite (skipn_cons_nth (contents a) (Z.to_nat ai) x Hx).
      replace (S (Z.to_nat ai)) with (Z.to_nat (ai + 1)) by lia. reflexivity.
Qed.

Lemma layout_of_snoc l x :
  layout_of (l ++ [x]) = vec <- layout_of l ;; Layout.intvec_append vec x.
Proof. unfold layout_of. now rewrite fold_left_app. Qed.

Lemma layout_of_ok l :
  Z.of_nat (length l) <= 1073741824 ->
  exists vec, layout_of l = Ok vec /\ layout_ok vec /\ contents vec = l /\
              Layout.len vec = Z.of_nat (length l).
Proof.
  induction l as [|x l IH] using rev_ind; intros Hl.
  - exists Layout.intvec_alloc. split; [reflexivity|].
    split; [apply layout_alloc_ok|]. split; reflexivity.
  - rewrite length_app in Hl. cbn [length] in Hl.
    destruct (IH ltac:(lia)) as (vec & E & Hok & Hc & Hn).
    rewrite layout_of_snoc, E. cbn [bind].
    destruct (layout_append_step vec x Hok ltac:(lia))
      as (vec' & -> & Hok' & Hc' & Hn' & _).
    exists vec'. split; [reflexivity|]. split; [assumption|].
    split; [now rewrite Hc', Hc|].
    rewrite Hn', Hn, length_app. cbn [length]. lia.
Qed.

End LayoutProofs.

(** [intvec_append] on the struct: on a struct in good order that holds
    fewer than 2^30 values, the write stays within the block (which is
    doubled when it is full), the struct stays in good order, and the
    vector it stands for is the old one with the value at its end. *)
Theorem layout_append_refines (vec : Layout.IntVec) (val : Z) :
  layout_ok vec -> Layout.len vec < 1073741824 ->
  exists vec',
    Layout.intvec_append vec val = Ok vec' /\ layout_ok vec' /\
    contents vec' = intvec_append (contents vec) val /\
    Layout.len vec' = Layout.len vec + 1 /\
    Layout.cap vec' =
      (if Layout.len vec =? Layout.cap vec then 2 * Layout.cap vec
       else Layout.cap vec).
Proof. apply layout_append_step. Qed.

Lemma layout_append_refines_witness :
  exists vec',
    Layout.intvec_append sample_vec_a 7 = Ok vec' /\ layout_ok vec' /\
    contents vec' = intvec_append (contents sample_vec_a) 7 /\
    Layout.len vec' = Layout.len sample_vec_a + 1 /\
    Layout.cap vec' =
      (if Layout.len sample_vec_a =? Layout.cap sample_vec_a
       then 2 * Layout.cap sample_vec_a
       else Layout.cap sample_vec_a).
Proof.
  apply (layout_append_refines sample_vec_a 7).
  - unfold layout_ok, sample_vec_a. cbn.
    split; [lia|]. split; [reflexivity|]. split; [now exists 1%nat|].
    split; [left; lia|]. repeat constructor; discriminate.
  - cbn. lia.
Defined.

(** The vectors of the program are built by [intvec_alloc] and
    [intvec_append] alone: for every list of at most 2^30 values the
    appends go through, and the struct they build is in good order and
    stands for the list.  On such a struct [intvec_get] is the read of the
    list (with its exit on a bad index), and [intvec_copy] builds a struct
    in good order that stands for the same list. *)
Theorem layout_get_copy_refine (l : list Z) :
  Z.of_nat (length l) <= 1073741824 ->
  exists vec,
    layout_of l = Ok vec /\ layout_ok vec /\ contents vec = l /\
    (forall pos, Layout.intvec_get vec pos = intvec_get l pos) /\
    exists copy,
      Layout.intvec_copy vec = Ok copy /\ layout_ok copy /\
      contents copy = intvec_copy l.
Proof.
  intros Hl. destruct (layout_of_ok l Hl) as (vec & E & Hok & Hc & Hn).
  exists vec. split; [assumption|]. split; [assumption|]. split; [assumption|].
  split.
  - intros pos. rewrite <- Hc. now apply layout_get.
  - unfold Layout.intvec_copy.
    destruct (layout_copy_loop (Z.to_nat (Layout.len vec)) vec 0 Layout.intvec_alloc
                Hok (proj1 layout_alloc_ok) ltac:(lia) ltac:(lia) eq_refl ltac:(lia))
      as (r & -> & Hr & Hcr).
    exists r. split; [reflexivity|]. split; [assumption|].
    rewrite Hcr, intvec_copy_id, Hc. reflexivity.
Qed.

Lemma layout_get_copy_refine_witness :
  exists vec,
    layout_of [3; 1; 4] = Ok vec /\ layout_ok vec /\ contents vec = [3; 1; 4] /\
    (forall pos, Layout.intvec_get vec pos = intvec_get [3; 1; 4] pos) /\
    exists copy,
      Layout.intvec_copy vec = Ok copy /\ layout_ok copy /\
      contents copy = intvec_copy [3; 1; 4].
Proof.
  apply (layout_get_copy_refine [3; 1; 4]). cbn [length]. lia.
Defined.

(** [intvec_intersect] on the structs: on two structs in good order of at
    most 2^30 values each, the loop over the two cursors ends, reads and
    writes within the blocks only, and builds a struct in good order that
    stands for the intersection, as the scan of the two lists computes it,
    of the vectors they stand for. *)
Theorem layout_intersect_refines (a b : Layout.IntVec) :
  layout_ok a -> layout_ok b ->
  Layout.len a <= 1073741824 -> Layout.len b <= 1073741824 ->
  exists r,
    Layout.intvec_intersect a b = Ok r /\ layout_ok r /\
    contents r = intvec_intersect (contents a) (contents b).
Proof.
  intros Ha Hb Hma Hmb. unfold Layout.intvec_intersect.
  pose proof Ha as (Hla & _). pose proof Hb as (Hlb & _).
  destruct (layout_intersect_loop
              (S (Z.to_nat (Layout.len a) + Z.to_nat (Layout.len b)))
              a b 0 0 Layout.intvec_alloc Ha Hb (proj1 layout_alloc_ok)
              ltac:(lia) ltac:(lia) ltac:(cbn; lia) Hma Hmb ltac:(lia))
    as (r & -> & Hr & Hcr).
  exists r. split; [reflexivity|]. split; [assumption|]. exact Hcr.
Qed.

Lemma layout_intersect_refines_witness :
  exists r,
    Layout.intvec_intersect sample_vec_a sample_vec_b = Ok r /\
    layout_ok r /\
    contents r = intvec_intersect (contents sample_vec_a) (contents sample_vec_b).
Proof.
  apply (layout_intersect_refines sample_vec_a sample_vec_b).
  - unfold layout_ok, sample_vec_a. cbn.
    split; [lia|]. split; [reflexivity|]. split; [now exists 1%nat|].
    split; [left; lia|]. repeat constructor; discriminate.
  - unfold layout_ok, sample_vec_b. cbn.
    split; [lia|]. split; [reflexivity|]. split; [now exists 2%nat|].
    split; [left; lia|]. repeat constructor; discriminate.
  - cbn. lia.
  - cbn. lia.
Defined.

(* ================================================================== *)
(** * The arguments of main *)

Section ArgumentProofs.

Variable strtol : cstring -> Z * bool.
Variable g : WordGraph.

Lemma numeral_pos a v : numeral strtol a = Some v -> 0 < v.
Proof.
  unfold numeral. destruct (strtol a) as [x e].
  destruct (Z.ltb_spec 0 x); destruct e; cbn [negb andb]; intros E;
    inversion E; subst; lia.
Qed.

Lemma parse_arg_numeral_length a v o :
  opt_length o = 0 -> numeral strtol a = Some v ->
  parse_arg strtol g o a =
    {| opt_length := v; opt_count := opt_count o;
       opt_start_word := opt_start_word o |}.
Proof.
  unfold parse_arg, numeral. intros -> H. cbn [Z.eqb].
  destruct (strtol a) as [x e].
  destruct (negb e && (0 <? x)); inversion H; subst. reflexivity.
Qed.

Lemma parse_arg_word_length a o :
  opt_length o = 0 -> numeral strtol a = None ->
  parse_arg strtol g o a =
    {| opt_length := 0; opt_count := opt_count o;
       opt_start_word := wordgraph_find_word g a |}.
Proof.
  unfold parse_arg, numeral. intros -> H. cbn [Z.eqb].
  destruct (strtol a) as [x e].
  destruct (negb e && (0 <? x)); [discriminate|reflexivity].
Qed.

Lemma parse_arg_numeral_count a v o :
  opt_length o <> 0 -> opt_count o = 0 -> numeral strtol a = Some v ->
  parse_arg strtol g o a =
    {| opt_length := opt_length o; opt_count := v;
       opt_start_word := opt_start_word o |}.
Proof.
  unfold parse_arg, numeral. intros Hl -> H.
  destruct (Z.eqb_spec (opt_length o) 0); [contradiction|]. cbn [Z.eqb].
  destruct (strtol a) as [x e].
  destruct (negb e && (0 <? x)); inversion H; subst. reflexivity.
Qed.

Lemma parse_arg_word_count a o :
  opt_length o <> 0 -> opt_count o = 0 -> numeral strtol a = None ->
  parse_arg strtol g o a =
    {| opt_length := opt_length o; opt_count := 0;
       opt_start_word := wordgraph_find_word g a |}.
Proof.
  unfold parse_arg, numeral. intros Hl -> H.
  destruct (Z.eqb_spec (opt_length o) 0); [contradiction|]. cbn [Z.eqb].
  destruct (strtol a) as [x e].
  destruct (negb e && (0 <? x)); [discriminate|reflexivity].
Qed.

Lemma parse_arg_hook a o :
  opt_length o <> 0 -> opt_count o <> 0 ->
  parse_arg strtol g o a =
    {| opt_length := opt_length o; opt_count := opt_count o;
       opt_start_word := wordgraph_find_word g a |}.
Proof.
  unfold parse_arg. intros Hl Hc.
  destruct (Z.eqb_spec (opt_length o) 0); [contradiction|].
  destruct (Z.eqb_spec (opt_count o) 0); [contradiction|]. reflexivity.
Qed.

(** Once both numbers are set every argument is a hook. *)
Lemma parse_hooks args : forall l c s,
  l <> 0 -> c <> 0 ->
  fold_left (parse_arg strtol g) args
    {| opt_length := l; opt_count := c; opt_start_word := s |} =
  {| opt_length := l; opt_count := c; opt_start_word := hook_or g s args |}.
Proof.
  induction args as [|a args IH]; intros l c s Hl Hc; [reflexivity|].
  cbn [fold_left]. rewrite parse_arg_hook by assumption.
  cbn [opt_length opt_count]. rewrite IH by assumption. reflexivity.
Qed.

Lemma hook_or_app s a b : hook_or g s (a ++ b) = hook_or g (hook_or g s a) b.
Proof. unfold hook_or. apply fold_left_app. Qed.

(** With the length set, the count is the first numeral. *)
Lemma parse_count args : forall l s,
  l <> 0 ->
  fold_left (parse_arg strtol g) args
    {| opt_length := l; opt_count := 0; opt_start_word := s |} =
  match take_number strtol args with
  | None => {| opt_length := l; opt_count := 0;
               opt_start_word := hook_or g s args |}
  | Some (before, c, after) =>
      {| opt_length := l; opt_count := c;
         opt_start_word := hook_or g s (before ++ after) |}
  end.
Proof.
  induction args as [|a args IH]; intros l s Hl; [reflexivity|].
  cbn [fold_left take_number].
  destruct (numeral strtol a) as [v|] eqn:N.
  - rewrite (parse_arg_numeral_count a v) by (assumption || reflexivity).
    cbn [opt_length opt_start_word].
    apply parse_hooks; [assumption|]. apply numeral_pos in N. lia.
  - rewrite parse_arg_word_count by (assumption || reflexivity).
    cbn [opt_length]. rewrite IH by assumption.
    destruct (take_number strtol args) as [[[before c] after]|]; reflexivity.
Qed.

(** The length is the first numeral. *)
Lemma parse_length args : forall c s,
  fold_left (parse_arg strtol g) args
    {| opt_length := 0; opt_count := c; opt_start_word := s |} =
  match take_number strtol args with
  | None => {| opt_length := 0; opt_count := c;
               opt_start_word := hook_or g s args |}
  | Some (before, l, after) =>
      fold_left (parse_arg strtol g) after
        {| opt_length := l; opt_count := c;
           opt_start_word := hook_or g s before |}
  end.
Proof.
  induction args as [|a args IH]; intros c s; [reflexivity|].
  cbn [fold_left take_number].
  destruct (numeral strtol a) as [v|] eqn:N.
  - rewrite (parse_arg_numeral_length a v) by (assumption || reflexivity).
    reflexivity.
  - rewrite parse_arg_word_length by (assumption || reflexivity).
    cbn [opt_count]. rewrite IH.
    destruct (take_number strtol args) as [[[before l] after]|]; reflexivity.
Qed.

Lemma take_number_pos args before v after :
  take_number strtol args = Some (before, v, after) -> 0 < v.
Proof.
  revert before. induction args as [|a args IH]; intros before H; [discriminate|].
  cbn [take_number] in H. destruct (numeral strtol a) as [x|] eqn:N.
  - inversion H; subst. now apply numeral_pos in N.
  - destruct (take_number strtol args) as [[[b x] r]|]; [|discriminate].
    inversion H; subst. now apply (IH b).
Qed.

Lemma hook_or_range s others :
  0 <= s < Z.max 1 (n_words g) ->
  0 <= hook_or g s others < Z.max 1 (n_words g).
Proof.
  unfold hook_or. revert s. induction others as [|w others IH]; intros s Hs;
    [assumption|].
  cbn [fold_left]. apply IH.
  pose proof (n_words_tl g) as Hn. unfold wordgraph_find_word.
  destruct (find_word_loop_spec w (tl (words g)) 1 0 10000)
    as [[Hr _]|(k & Hk & Hr & _)]; rewrite Hr; lia.
Qed.

End ArgumentProofs.

(** How main reads its arguments: the length is the first argument that
    reads as a positive number, the count the first such argument after
    it, and the hook is the match of the last of all the other arguments
    (which may be numbers: a zero, or any number after the count), or 0
    when there is none.  After the defaults, the length and the count are
    positive and the hook is an index of the arrays of the graph. *)
Theorem parse_args_reading (strtol : cstring -> Z * bool) (g : WordGraph)
    (args : list cstring) :
  parse_args strtol g args =
    match take_number strtol args with
    | None => {| opt_length := 0; opt_count := 0;
                 opt_start_word := hook_or g 0 args |}
    | Some (before, l, after) =>
        match take_number strtol after with
        | None => {| opt_length := l; opt_count := 0;
                     opt_start_word := hook_or g 0 (before ++ after) |}
        | Some (between, c, rest) =>
            {| opt_length := l; opt_count := c;
               opt_start_word := hook_or g 0 (before ++ between ++ rest) |}
        end
    end /\
  0 < opt_length (with_defaults (parse_args strtol g args)) /\
  0 < opt_count (with_defaults (parse_args strtol g args)) /\
  0 <= opt_start_word (with_defaults (parse_args strtol g args))
    < Z.max 1 (n_words g) /\
  with_defaults (parse_args strtol g []) =
    {| opt_length := 5; opt_count := 32; opt_start_word := 0 |}.
Proof.
  assert (E : parse_args strtol g args =
    match take_number strtol args with
    | None => {| opt_length := 0; opt_count := 0;
                 opt_start_word := hook_or g 0 args |}
    | Some (before, l, after) =>
        match take_number strtol after with
        | None => {| opt_length := l; opt_count := 0;
                     opt_start_word := hook_or g 0 (before ++ after) |}
        | Some (between, c, rest) =>
            {| opt_length := l; opt_count := c;
               opt_start_word := hook_or g 0 (before ++ between ++ rest) |}
        end
    end).
  { unfold parse_args. rewrite parse_length.
    destruct (take_number strtol args) as [[[before l] after]|] eqn:T1;
      [|reflexivity].
    apply take_number_pos in T1.
    rewrite parse_count by lia.
    destruct (take_number strtol after) as [[[between c] rest]|];
      now rewrite !hook_or_app. }
  split; [exact E|]. rewrite E.
  assert (R : forall others, 0 <= hook_or g 0 others < Z.max 1 (n_words g)).
  { intros others. apply hook_or_range. lia. }
  split; [|split; [|split; [|reflexivity]]].
  - destruct (take_number strtol args) as [[[before l] after]|] eqn:T1;
      [|cbn; lia].
    apply take_number_pos in T1.
    destruct (take_number strtol after) as [[[between c] rest]|];
      unfold with_defaults; cbn [opt_length];
      destruct (Z.eqb_spec l 0); lia.
  - destruct (take_number strtol args) as [[[before l] after]|] eqn:T1;
      [|cbn; lia].
    destruct (take_number strtol after) as [[[between c] rest]|] eqn:T2;
      [|cbn; lia].
    apply take_number_pos in T2.
    unfold with_defaults; cbn [opt_count]. destruct (Z.eqb_spec c 0); lia.
  - destruct (take_number strtol args) as [[[before l] after]|];
      [|apply R].
    destruct (take_number strtol after) as [[[between c] rest]|]; apply R.
Qed.

(* ================================================================== *)
(** * The password of a round *)

Section Password.

Variable g : WordGraph.
Variable n : Z.
Variable stream : list cstring.
Hypothesis Hbuilt : wordgraph_init n stream = Ok g.
Hypothesis Hlong : Forall long_enough (tl (words g)).
Hypothesis Hbytes : Forall c_string (tl (words g)).













End Password.





(* ================================================================== *)
(** * The run of main *)

Section MainProofs.

Variable strtol : cstring -> Z * bool.
Variable g : WordGraph.
Variable n : Z.
Variable stream : list cstring.
Hypothesis Hbuilt : wordgraph_init n stream = Ok g.
Hypothesis Hdecodes : forall w, 0 <= w < n_words g -> exists f, followers_of g w = Ok f.

Lemma find_word_range w : 0 <= wordgraph_find_word g w < Z.max 1 (n_words g).
Proof.
  pose proof (n_words_tl g) as Hn. unfold wordgraph_find_word.
  destruct (find_word_loop_spec w (tl (words g)) 1 0 10000)
    as [[Hr _]|(k & Hk & Hr & _)]; rewrite Hr; lia.
Qed.

Lemma parse_arg_keeps o a :
  0 <= opt_length o /\ 0 <= opt_count o /\
  0 <= opt_start_word o < Z.max 1 (n_words g) ->
  0 <= opt_length (parse_arg strtol g o a) /\
  0 <= opt_count (parse_arg strtol g o a) /\
  0 <= opt_start_word (parse_arg strtol g o a) < Z.max 1 (n_words g).
Proof.
  intros (Hl & Hc & Hs). pose proof (find_word_range a) as Hf.
  unfold parse_arg. destruct (strtol a) as [v e].
  destruct (opt_length o =? 0); [|destruct (opt_count o =? 0)];
    try (destruct e; cbn [negb andb]; [|destruct (Z.ltb_spec 0 v)]);
    cbn [opt_length opt_count opt_start_word]; lia.
Qed.

Lemma parse_args_keeps args :
  let o := with_defaults (parse_args strtol g args) in
  0 < opt_length o /\ 0 < opt_count o /\
  0 <= opt_start_word o < Z.max 1 (n_words g).
Proof.
  assert (K : forall o,
             0 <= opt_length o /\ 0 <= opt_count o /\
             0 <= opt_start_word o < Z.max 1 (n_words g) ->
             0 <= opt_length (fold_left (parse_arg strtol g) args o) /\
             0 <= opt_count (fold_left (parse_arg strtol g) args o) /\
             0 <= opt_start_word (fold_left (parse_arg strtol g) args o)
               < Z.max 1 (n_words g)).
  { induction args as [|a args IH]; intros o Ho; [exact Ho|].
    cbn [fold_left]. apply IH. now apply parse_arg_keeps. }
  cbv zeta. unfold parse_args, with_defaults.
  destruct (K {| opt_length := 0; opt_count := 0; opt_start_word := 0 |})
    as (Hl & Hc & Hs); [cbn [opt_length opt_count opt_start_word]; lia|].
  cbn [opt_length opt_count opt_start_word].
  destruct (Z.eqb_spec (opt_length (fold_left (parse_arg strtol g) args
              {| opt_length := 0; opt_count := 0; opt_start_word := 0 |})) 0);
  destruct (Z.eqb_spec (opt_count (fold_left (parse_arg strtol g) args
              {| opt_length := 0; opt_count := 0; opt_start_word := 0 |})) 0);
  lia.
Qed.

Lemma lookup_word w :
  0 <= w < n_words g -> lookup (words g) w = Ok (word_of g w).
Proof.
  intros Hw. unfold lookup, word_of, n_words in *.
  destruct (Z.ltb_spec w 0); [lia|].
  destruct (nth_error (words g) (Z.to_nat w)) as [x|] eqn:E.
  - f_equal. symmetry. now apply nth_error_nth.
  - apply nth_error_None in E. lia.
Qed.

Lemma print_words_returns ws :
  Forall (fun w => 0 <= w < n_words g) ws ->
  print_words g ws = Ok (map (word_of g) ws).
Proof.
  induction 1 as [|w ws Hw _ IH]; [reflexivity|].
  cbn [print_words map]. rewrite (lookup_word w Hw). cbn [bind].
  rewrite IH. reflexivity.
Qed.

Lemma print_password_returns pc :
  exists text, print_password g pc = Ok text.
Proof.
  pose proof (wordgraph_init_ok n stream g Hbuilt) as (_ & Hnp & _).
  induction pc as [|r pc [text IH]]; [now exists []|].
  cbn [print_password]. cbv zeta.
  destruct (lookup_within (prefixes g) (Z.land r (MAX_PREFIXES - 1)))
    as (cell & -> & _).
  { unfold n_prefixes in Hnp. rewrite Hnp. apply land_1023_range. }
  cbn [bind]. rewrite IH. cbn [bind]. eauto.
Qed.

Lemma generate_round_returns start_word pc :
  0 <= start_word < n_words g ->
  exists r, generate_round g start_word pc = Ok r.
Proof.
  intros Hs.
  pose proof (wordgraph_init_ok n stream g Hbuilt) as (_ & Hnp & Hb & _).
  destruct (choose_word_sets_spec g (n_words g) pc Hnp Hb)
    as (ps & sets & Hc & Hsets & _).
  unfold generate_round. rewrite Hc. cbn [bind].
  destruct (backward_returns g sets) as [[sets' m] B].
  { intros set w Hset Hw. apply Hdecodes.
    rewrite Forall_forall in Hsets. destruct (Hsets set Hset) as (_ & _ & Hr).
    rewrite Forall_forall in Hr. specialize (Hr w Hw). lia. }
  rewrite B. cbn [bind].
  destruct (backward_spec g (n_words g) sets sets' m Hsets B) as [Hok _].
  destruct (forward_returns g (n_words g) sets' start_word Hdecodes Hs Hok)
    as (chosen & -> & _).
  cbn [bind]. eauto.
Qed.

Lemma print_round_returns start_word pc :
  0 <= start_word < n_words g ->
  exists password r,
    print_password g pc = Ok password /\
    generate_round g start_word pc = Ok r /\
    print_round g start_word pc =
      Ok (Line password
            (map (word_of g) ((if start_word =? 0 then [] else [start_word])
                              ++ round_words r))).
Proof.
  intros Hs. destruct (print_password_returns pc) as [password P].
  destruct (generate_round_returns start_word pc Hs) as [r R].
  exists password, r. split; [assumption|]. split; [assumption|].
  unfold print_round. rewrite P, R. cbn [bind].
  rewrite print_words_returns.
  2:{ destruct (start_word =? 0); repeat constructor; lia. }
  cbn [bind]. rewrite print_words_returns.
  2:{ destruct (generate_round_matches n stream g start_word pc r Hbuilt R)
        as (_ & _ & F).
      clear R. induction F as [|w p ws ps (cell & _ & _ & Hw & _) F IH];
        constructor; [lia|assumption]. }
  cbn [bind]. now rewrite map_app.
Qed.

Lemma rounds_spec start_word len :
  0 <= start_word < n_words g ->
  forall count urandom out,
  exists lines,
    rounds g start_word len count urandom out =
      {| printed := out ++ lines;
         ending_of :=
           Exit (if (full_reads len count urandom =? count)%nat then 0 else 6) |} /\
    Forall2 (fun line pc => print_round g start_word pc = Ok line)
      lines (firstn (full_reads len count urandom) urandom).
Proof.
  intros Hs. induction count as [|count IH]; intros urandom out.
  - exists []. cbn [rounds full_reads Nat.eqb firstn]. rewrite app_nil_r.
    split; [reflexivity|constructor].
  - destruct urandom as [|pc urandom].
    + exists []. cbn [rounds full_reads Nat.eqb firstn]. rewrite app_nil_r.
      split; [reflexivity|constructor].
    + cbn [rounds full_reads]. destruct (length pc =? len)%nat; cbn [negb].
      * destruct (print_round_returns start_word pc Hs) as (pw & r & _ & _ & P).
        rewrite P. destruct (IH urandom (out ++ [Line pw
                    (map (word_of g) ((if start_word =? 0 then [] else [start_word])
                                      ++ round_words r))]))
          as (lines & -> & F).
        eexists (_ :: lines). rewrite <- app_assoc. cbn [app Nat.eqb firstn].
        split; [reflexivity|]. constructor; assumption.
      * exists []. cbn [Nat.eqb firstn]. rewrite app_nil_r.
        split; [reflexivity|constructor].
Qed.

Lemma n_words_pos : 1 <= n_words g.
Proof.
  clear Hdecodes. pose proof (n_words_tl g). unfold n_words.
  destruct (words g) eqn:E.
  - pose proof (wordgraph_init_ok n stream g Hbuilt) as (_ & Hnp & Hb & _).
    unfold n_prefixes, MAX_PREFIXES in Hnp.
    destruct (prefixes g) as [|cell cells]; [cbn in Hnp; lia|].
    inversion Hb as [|? ? (Hne & _ & Hr) _]; subst.
    destruct (bucket_words cell) as [|i ids]; [congruence|].
    inversion Hr; subst. unfold n_words in *. rewrite E in *. cbn [length] in *. lia.
  - cbn [length]. lia.
Qed.

End MainProofs.

Lemma wrap64_small z :
  -9223372036854775808 <= z < 9223372036854775808 -> wrap64 z = z.
Proof. intros H. unfold wrap64. rewrite Z.mod_small by lia. lia. Qed.

Lemma sample_graph_decodes w :
  0 <= w < n_words sample_graph -> exists f, followers_of sample_graph w = Ok f.
Proof.
  intros Hw. unfold followers_of.
  destruct (lookup_within (followers_compressed sample_graph) w) as (enc & -> & Hin).
  { cbn [sample_graph followers_compressed]. rewrite repeat_length.
    change (n_words sample_graph) with 1025 in Hw. lia. }
  cbn [bind]. cbn [sample_graph followers_compressed] in Hin.
  apply repeat_spec in Hin. subst enc. eexists. vm_compute. reflexivity.
Qed.

(** What a run of main does, on a corpus that [wordgraph_init] accepts
    and whose follower strings decode: with [-h] or [--help] first it
    prints the usage and exits with 0; otherwise, when [/dev/urandom]
    cannot be opened it exits with 5 before it prints anything; otherwise
    (for a length of which four times fits an [int]) it prints the
    announcement, the hook if there is one, the heading, and one line for
    each call of [read] that gives [length] ints, [count] lines at most:
    it exits with 0 after [count] lines, and with 6 at the first [read]
    that gives less.  It never exits through the check of [intvec_get] and
    never reads outside a string or an array. *)
Theorem main_prints_count_passwords (strtol : cstring -> Z * bool)
    (args : list cstring) (n : Z) (stream : list cstring) (g : WordGraph)
    (urandom : option (list (list Z))) :
  wordgraph_init n stream = Ok g ->
  (forall w, 0 <= w < n_words g -> exists f, followers_of g w = Ok f) ->
  let run := main strtol args (Some (Some n, stream)) urandom in
  let o := with_defaults (parse_args strtol g args) in
  (is_help args = true ->
     run = {| printed := [Usage]; ending_of := Exit 0 |}) /\
  (is_help args = false -> urandom = None ->
     run = {| printed := []; ending_of := Exit 5 |}) /\
  (is_help args = false -> opt_length o * 4 <= INT_MAX ->
   forall reads, urandom = Some reads ->
   let k := full_reads (Z.to_nat (opt_length o)) (Z.to_nat (opt_count o)) reads in
   exists lines,
     printed run =
       Banner (opt_count o) (opt_length o * 10) ::
       (if opt_start_word o =? 0 then []
        else [Hook (word_of g (opt_start_word o))]) ++
       Heading (opt_length o * 3) (opt_length o * 4) :: lines /\
     Forall2 (fun line pc => print_round g (opt_start_word o) pc = Ok line)
       lines (firstn k reads) /\
     ending_of run = Exit (if (k =? Z.to_nat (opt_count o))%nat then 0 else 6)).
Proof.
  intros Hg Hdec. cbv zeta. unfold main. cbn [wordgraph_init_file]. rewrite Hg.
  split; [intros ->; reflexivity|]. split; [intros -> ->; reflexivity|].
  intros -> Hfit reads ->.
  destruct (parse_args_keeps strtol g args) as (Hl & Hc & Hs).
  pose proof (n_words_pos g n stream Hg) as Hn.
  set (o := with_defaults (parse_args strtol g args)) in *.
  unfold INT_MAX in Hfit.
  rewrite (print_words_returns g).
  2:{ destruct (opt_start_word o =? 0); repeat constructor; lia. }
  rewrite (wrap64_small (opt_length o * 4)) by lia.
  rewrite (wrap64_small (opt_length o * 3)) by lia.
  rewrite (wrap64_small (opt_length o * 10)) by lia.
  rewrite (wrap32_small (opt_length o * 3)) by lia.
  destruct (Z.ltb_spec INT_MAX (opt_length o * 4)) as [Hbad|_];
    [unfold INT_MAX in Hbad; lia|].
  destruct (rounds_spec g n stream Hg Hdec (opt_start_word o)
              (Z.to_nat (opt_length o)) ltac:(lia) (Z.to_nat (opt_count o)) reads
              (Banner (opt_count o) (opt_length o * 10)
               :: map Hook (map (word_of g)
                              (if opt_start_word o =? 0 then []
                               else [opt_start_word o]))
                  ++ [Heading (opt_length o * 3) (opt_length o * 4)]))
    as (lines & -> & F).
  exists lines. cbn [printed ending_of]. split; [|split; [exact F|reflexivity]].
  destruct (opt_start_word o =? 0); cbn [map app]; reflexivity.
Qed.

Lemma main_prints_count_passwords_witness :
  ending_of (main sample_strtol [[50]; [49]] (Some (Some 1025, sample_corpus))
               (Some [[7; 8]])) = Exit 0.
Proof.
  destruct (main_prints_count_passwords sample_strtol [[50]; [49]] 1025
              sample_corpus sample_graph (Some [[7; 8]])
              sample_graph_built sample_graph_decodes) as (_ & _ & H).
  destruct (H eq_refl ltac:(vm_compute; discriminate) [[7; 8]] eq_refl)
    as (lines & _ & _ & E).
  exact E.
Defined.

(* ================================================================== *)
(** * A round frees what it allocates *)

Section PointerProofs.

Variable g : WordGraph.

Lemma update_length h p x : length (Pointers.update h p x) = length h.
Proof.
  revert p. induction h as [|c h IH]; intros [|p]; cbn [Pointers.update length];
    auto.
Qed.

Lemma nth_error_update_eq h p x :
  (p < length h)%nat -> nth_error (Pointers.update h p x) p = Some x.
Proof.
  revert p. induction h as [|c h IH]; intros [|p] H; cbn [length] in H;
    cbn [Pointers.update nth_error]; try lia; [reflexivity|].
  apply IH. lia.
Qed.

Lemma nth_error_update_neq h p q x :
  q <> p -> nth_error (Pointers.update h p x) q = nth_error h q.
Proof.
  revert p q. induction h as [|c h IH]; intros [|p] [|q] H;
    cbn [Pointers.update nth_error]; try reflexivity; try congruence.
  apply IH. congruence.
Qed.

Lemma update_same h p x : nth_error h p = Some x -> Pointers.update h p x = h.
Proof.
  revert p. induction h as [|c h IH]; intros [|p] H; cbn [nth_error] in H;
    cbn [Pointers.update]; try discriminate.
  - now inversion H.
  - f_equal. now apply IH.
Qed.

Lemma update_update h p x y :
  Pointers.update (Pointers.update h p x) p y = Pointers.update h p y.
Proof.
  revert p. induction h as [|c h IH]; intros [|p]; cbn [Pointers.update];
    try reflexivity.
  f_equal. apply IH.
Qed.

Lemma update_app_l h t p x :
  (p < length h)%nat ->
  Pointers.update (h ++ t) p x = Pointers.update h p x ++ t.
Proof.
  revert p. induction h as [|c h IH]; intros [|p] H; cbn [length] in H;
    cbn [Pointers.update app]; try lia; [reflexivity|].
  f_equal. apply IH. lia.
Qed.

Lemma update_app_r h t p x :
  Pointers.update (h ++ t) (length h + p) x = h ++ Pointers.update t p x.
Proof.
  induction h as [|c h IH]; cbn [length app Nat.add Pointers.update];
    [reflexivity|].
  f_equal. apply IH.
Qed.

Lemma live_lt h p v : live h p v -> (p < length h)%nat.
Proof. unfold live. intros H. apply nth_error_Some. congruence. Qed.

Lemma live_app h t q v :
  live (h ++ t) q v <->
  live h q v \/ ((length h <= q)%nat /\ live t (q - length h) v).
Proof.
  unfold live. destruct (Nat.lt_ge_cases q (length h)) as [Hlt|Hge].
  - rewrite nth_error_app1 by assumption. split; [auto|].
    intros [?|[? _]]; [assumption|lia].
  - rewrite nth_error_app2 by assumption. split; [auto|].
    intros [H|[_ ?]]; [|assumption].
    assert (nth_error h q <> None) by congruence.
    apply nth_error_Some in H0. lia.
Qed.

Lemma live_app_l h t q v : live h q v -> live (h ++ t) q v.
Proof. intros H. apply live_app. now left. Qed.

Lemma live_update h p x q v :
  (p < length h)%nat ->
  (live (Pointers.update h p x) q v <->
   (q = p /\ x = Some v) \/ (q <> p /\ live h q v)).
Proof.
  intros Hp. unfold live. destruct (Nat.eq_dec q p) as [->|Hne].
  - rewrite nth_error_update_eq by assumption. split.
    + intros H. left. split; [reflexivity|congruence].
    + intros [[_ ->]|[? _]]; [reflexivity|congruence].
  - rewrite nth_error_update_neq by assumption. split; [auto|].
    intros [[? _]|[_ ?]]; [congruence|assumption].
Qed.

Lemma live_repeat_None k q v : ~ live (repeat None k) q v.
Proof.
  unfold live. intros H. apply nth_error_In in H. apply repeat_spec in H.
  discriminate.
Qed.

Lemma live_cons_None t q v :
  live (None :: t) q v <-> ((1 <= q)%nat /\ live t (q - 1) v).
Proof.
  unfold live. destruct q as [|q]; cbn [nth_error].
  - split; [discriminate|]. intros [? _]. lia.
  - replace (S q - 1)%nat with q by lia. split; [intros; split; [lia|assumption]|].
    now intros [_ ?].
Qed.

Lemma live_cons_Some x t q v :
  live (Some x :: t) q v <->
  (q = 0%nat /\ x = v) \/ ((1 <= q)%nat /\ live t (q - 1) v).
Proof.
  unfold live. destruct q as [|q]; cbn [nth_error].
  - split.
    + intros H. left. split; [reflexivity|congruence].
    + intros [[_ ->]|[? _]]; [reflexivity|lia].
  - replace (S q - 1)%nat with q by lia. split.
    + intros H. right. split; [lia|assumption].
    + intros [[? _]|[_ ?]]; [lia|assumption].
Qed.

(** ** The calls *)

Lemma bindM_ok {A B} (m : Pointers.M A) (k : A -> Pointers.M B) h a h' :
  m h = Ok (a, h') -> Pointers.bindM m k h = k a h'.
Proof. unfold Pointers.bindM. now intros ->. Qed.

Lemma deref_live h p v : live h p v -> Pointers.deref p h = Ok (v, h).
Proof. unfold live, Pointers.deref. now intros ->. Qed.

Lemma free_live h p v :
  live h p v -> Pointers.intvec_free p h = Ok (tt, Pointers.update h p None).
Proof. unfold live, Pointers.intvec_free. now intros ->. Qed.

Lemma len_live h p v :
  live h p v -> Pointers.intvec_len p h = Ok (intvec_len v, h).
Proof.
  intros H. unfold Pointers.intvec_len.
  now rewrite (bindM_ok _ _ _ _ _ (deref_live h p v H)).
Qed.

Lemma get_live h p v pos x :
  live h p v -> intvec_get v pos = Ok x ->
  Pointers.intvec_get p pos h = Ok (x, h).
Proof.
  intros H G. unfold Pointers.intvec_get.
  rewrite (bindM_ok _ _ _ _ _ (deref_live h p v H)).
  unfold Pointers.lift. now rewrite G.
Qed.

Lemma append_live h p v x :
  live h p v ->
  Pointers.intvec_append p x h =
    Ok (tt, Pointers.update h p (Some (intvec_append v x))).
Proof.
  intros H. unfold Pointers.intvec_append.
  rewrite (bindM_ok _ _ _ _ _ (deref_live h p v H)).
  unfold Pointers.assign. unfold live in H. now rewrite H.
Qed.

Lemma decode_heap enc f h :
  decode enc = Ok f ->
  Pointers.decode enc h = Ok (length h, h ++ [Some f]).
Proof.
  intros D. unfold Pointers.decode, Pointers.bindM, Pointers.lift.
  now rewrite D.
Qed.

Lemma intersect_heap h a b va vb :
  live h a va -> live h b vb ->
  Pointers.intvec_intersect a b h =
    Ok (length h, h ++ [Some (intvec_intersect va vb)]).
Proof.
  intros Ha Hb. unfold Pointers.intvec_intersect.
  rewrite (bindM_ok _ _ _ _ _ (deref_live h a va Ha)).
  now rewrite (bindM_ok _ _ _ _ _ (deref_live h b vb Hb)).
Qed.

Lemma intvec_get_nth vec j x :
  nth_error vec j = Some x -> intvec_get vec (Z.of_nat j) = Ok x.
Proof.
  intros H. unfold intvec_get, intvec_len.
  assert (j < length vec)%nat by (apply nth_error_Some; congruence).
  destruct (Z.ltb_spec (Z.of_nat j) 0); [lia|].
  destruct (Z.leb_spec (Z.of_nat (length vec)) (Z.of_nat j)); [lia|].
  cbn [orb]. rewrite Nat2Z.id. f_equal. now apply nth_error_nth.
Qed.

Lemma live_snoc_new h v : live (h ++ [Some v]) (length h) v.
Proof. unfold live. now rewrite nth_error_app2, Nat.sub_diag by lia. Qed.

(** ** The loops *)

Lemma narrow_heap nw words new vnw vw count : forall j h acc r,
  live h nw vnw -> live h words vw -> live h new acc ->
  new <> nw -> new <> words ->
  (j + count = length vw)%nat ->
  narrow g vnw (skipn j vw) acc = Ok r ->
  Pointers.narrow g nw words new (Z.of_nat j) count h =
    Ok (tt, Pointers.update h new (Some r) ++ repeat None (2 * count)).
Proof.
  induction count as [|count IH]; intros j h acc r Hnw Hw Hnew Hn1 Hn2 Hj N.
  - rewrite skipn_all2 in N by lia. cbn [narrow] in N. inversion N; subst r.
    cbn [Pointers.narrow repeat Nat.mul]. unfold Pointers.ret.
    rewrite (update_same h new (Some acc) Hnew), app_nil_r. reflexivity.
  - destruct (nth_error vw j) as [word|] eqn:E;
      [|apply nth_error_None in E; lia].
    rewrite (skipn_cons_nth vw j word E), narrow_cons in N.
    destruct (followers_of g word) as [f| |] eqn:Ff; cbn [bind] in N;
      try discriminate.
    unfold followers_of in Ff.
    destruct (lookup (followers_compressed g) word) as [enc| |] eqn:L;
      cbn [bind] in Ff; try discriminate.
    cbn [Pointers.narrow].
    rewrite (bindM_ok _ _ _ _ _ (get_live h words vw _ word Hw (intvec_get_nth vw j word E))).
    unfold Pointers.lift at 1. rewrite L. unfold Pointers.bindM at 1.
    rewrite (bindM_ok _ _ _ _ _ (decode_heap enc f h Ff)).
    rewrite (bindM_ok _ _ _ _ _
               (intersect_heap (h ++ [Some f]) nw (length h) vnw f
                  (live_app_l _ _ _ _ Hnw) (live_snoc_new h f))).
    set (x := intvec_intersect vnw f) in *.
    assert (Lx : live ((h ++ [Some f]) ++ [Some x]) (length (h ++ [Some f])) x)
      by apply live_snoc_new.
    rewrite (bindM_ok _ _ _ _ _ (len_live _ _ _ Lx)).
    set (acc' := if negb (intvec_len x =? 0) then intvec_append acc word else acc) in *.
    assert (Hnl : (new < length h)%nat) by now apply live_lt in Hnew.
    assert (Step : (if negb (intvec_len x =? 0)
                    then Pointers.intvec_append new word else Pointers.ret tt)
                     ((h ++ [Some f]) ++ [Some x]) =
                   Ok (tt, Pointers.update h new (Some acc') ++ [Some f; Some x])).
    { rewrite <- app_assoc. cbn [app]. subst acc'.
      destruct (negb (intvec_len x =? 0)).
      - rewrite (append_live _ new acc word (live_app_l _ _ _ _ Hnew)).
        now rewrite update_app_l by assumption.
      - unfold Pointers.ret. now rewrite (update_same h new (Some acc) Hnew). }
    rewrite (bindM_ok _ _ _ _ _ Step).
    set (H := Pointers.update h new (Some acc')) in *.
    assert (HL : length H = length h) by apply update_length.
    rewrite length_app. cbn [length]. rewrite Nat.add_1_r.
    assert (F1 : Pointers.intvec_free (S (length h)) (H ++ [Some f; Some x]) =
                 Ok (tt, H ++ [Some f; None])).
    { rewrite (free_live _ _ x).
      - replace (S (length h)) with (length H + 1)%nat by lia.
        now rewrite update_app_r.
      - unfold live. rewrite nth_error_app2 by lia.
        replace (S (length h) - length H)%nat with 1%nat by lia. reflexivity. }
    rewrite (bindM_ok _ _ _ _ _ F1).
    assert (F2 : Pointers.intvec_free (length h) (H ++ [Some f; None]) =
                 Ok (tt, H ++ [None; None])).
    { rewrite (free_live _ _ f).
      - replace (length h) with (length H + 0)%nat by lia.
        now rewrite update_app_r.
      - unfold live. rewrite nth_error_app2 by lia.
        replace (length h - length H)%nat with 0%nat by lia. reflexivity. }
    rewrite (bindM_ok _ _ _ _ _ F2).
    replace (Z.of_nat j + 1) with (Z.of_nat (S j)) by lia.
    assert (LH : forall p v, p <> new -> live h p v -> live (H ++ [None; None]) p v).
    { intros p v Hp Hl. apply live_app_l. apply live_update; [assumption|].
      right. now split. }
    rewrite (IH (S j) (H ++ [None; None]) acc' r).
    + rewrite update_app_l by lia. subst H. rewrite update_update.
      rewrite <- app_assoc. do 2 f_equal.
      replace (2 * S count)%nat with (S (S (2 * count))) by lia. reflexivity.
    + apply LH; auto.
    + apply LH; auto.
    + apply live_app_l. apply live_update; [assumption|]. left. now split.
    + assumption.
    + assumption.
    + lia.
    + exact N.
Qed.

Lemma forward_heap : forall ws sets lw chosen h,
  Forall2 (live h) ws sets ->
  forward g lw sets = Ok chosen ->
  Pointers.forward g lw ws h = Ok (chosen, h ++ repeat None (2 * length ws)).
Proof.
  induction ws as [|set ws IH]; intros sets lw chosen h F Hf;
    inversion F as [|? vset ? vlater Hset Hlater]; subst.
  - cbn [forward] in Hf. inversion Hf; subst.
    cbn [Pointers.forward length Nat.mul repeat]. unfold Pointers.ret.
    now rewrite app_nil_r.
  - rewrite forward_cons in Hf.
    destruct (followers_of g lw) as [f| |] eqn:Ff; cbn [bind] in Hf;
      try discriminate.
    unfold followers_of in Ff.
    destruct (lookup (followers_compressed g) lw) as [enc| |] eqn:L;
      cbn [bind] in Ff; try discriminate.
    set (x := intvec_intersect vset f) in *.
    destruct (intvec_get (if negb (intvec_len x =? 0) then x else vset) 0)
      as [lw'| |] eqn:G; cbn [bind] in Hf; try discriminate.
    destruct (forward g lw' vlater) as [rest| |] eqn:R; cbn [bind] in Hf;
      try discriminate.
    inversion Hf; subst chosen. clear Hf.
    cbn [Pointers.forward].
    unfold Pointers.lift at 1. rewrite L. unfold Pointers.bindM at 1.
    rewrite (bindM_ok _ _ _ _ _ (decode_heap enc f h Ff)).
    rewrite (bindM_ok _ _ _ _ _
               (intersect_heap (h ++ [Some f]) set (length h) vset f
                  (live_app_l _ _ _ _ Hset) (live_snoc_new h f))).
    fold x.
    assert (Lx : live ((h ++ [Some f]) ++ [Some x]) (length (h ++ [Some f])) x)
      by apply live_snoc_new.
    rewrite (bindM_ok _ _ _ _ _ (len_live _ _ _ Lx)).
    assert (Get : Pointers.intvec_get
                    (if negb (intvec_len x =? 0) then length (h ++ [Some f]) else set)
                    0 ((h ++ [Some f]) ++ [Some x]) =
                  Ok (lw', (h ++ [Some f]) ++ [Some x])).
    { destruct (negb (intvec_len x =? 0)).
      - now apply (get_live _ _ x).
      - apply (get_live _ _ vset); [|assumption].
        now do 2 apply live_app_l. }
    rewrite (bindM_ok _ _ _ _ _ Get).
    rewrite length_app. cbn [length]. rewrite Nat.add_1_r.
    rewrite <- app_assoc. cbn [app].
    assert (F1 : Pointers.intvec_free (length h) (h ++ [Some f; Some x]) =
                 Ok (tt, h ++ [None; Some x])).
    { rewrite (free_live _ _ f).
      - pose proof (update_app_r h [Some f; Some x] 0 None) as U.
        rewrite Nat.add_0_r in U. now rewrite U.
      - unfold live. now rewrite nth_error_app2, Nat.sub_diag by lia. }
    rewrite (bindM_ok _ _ _ _ _ F1).
    assert (F2 : Pointers.intvec_free (S (length h)) (h ++ [None; Some x]) =
                 Ok (tt, h ++ [None; None])).
    { rewrite (free_live _ _ x).
      - replace (S (length h)) with (length h + 1)%nat by lia.
        now rewrite update_app_r.
      - unfold live. rewrite nth_error_app2 by lia.
        replace (S (length h) - length h)%nat with 1%nat by lia. reflexivity. }
    rewrite (bindM_ok _ _ _ _ _ F2).
    rewrite (bindM_ok _ _ _ _ _ (IH vlater lw' rest (h ++ [None; None])
               ltac:(eapply Forall2_impl; [|exact Hlater];
                     intros; now apply live_app_l) R)).
    unfold Pointers.ret. rewrite <- app_assoc. do 3 f_equal.
    cbn [length]. replace (2 * S (length ws))%nat with (S (S (2 * length ws))) by lia.
    reflexivity.
Qed.

Lemma choose_heap : forall pc ps sets h,
  choose_word_sets g pc = Ok (ps, sets) ->
  Pointers.choose_word_sets g pc h =
    Ok ((ps, seq (length h) (length sets)), h ++ map Some sets).
Proof.
  induction pc as [|r pc IH]; intros ps sets h H; cbn [choose_word_sets] in H.
  - inversion H; subst. cbn [Pointers.choose_word_sets length seq map].
    unfold Pointers.ret. now rewrite app_nil_r.
  - cbv zeta in H.
    destruct (lookup (prefixes g) (Z.land r (MAX_PREFIXES - 1))) as [cell| |] eqn:L;
      cbn [bind] in H; try discriminate.
    destruct (choose_word_sets g pc) as [[ps0 sets0]| |] eqn:C; cbn [bind] in H;
      try discriminate.
    inversion H; subst ps sets. clear H.
    cbn [Pointers.choose_word_sets]. cbv zeta.
    unfold Pointers.lift at 1. rewrite L. unfold Pointers.bindM at 1.
    unfold Pointers.intvec_copy, Pointers.build. unfold Pointers.bindM at 1.
    rewrite (bindM_ok _ _ _ _ _ (IH ps0 sets0 _ eq_refl)).
    unfold Pointers.ret. rewrite length_app. cbn [length seq map].
    rewrite Nat.add_1_r, <- app_assoc. reflexivity.
Qed.

Lemma live_seq h sets :
  Forall2 (live (h ++ map Some sets)) (seq (length h) (length sets)) sets.
Proof.
  revert h. induction sets as [|v sets IH]; intros h; cbn [length seq map];
    [constructor|].
  constructor.
  - unfold live. now rewrite nth_error_app2, Nat.sub_diag by lia.
  - specialize (IH (h ++ [Some v])).
    rewrite length_app, <- app_assoc in IH. cbn [length app] in IH.
    now rewrite Nat.add_1_r in IH.
Qed.

Lemma Forall2_live_frame h h' ws sets :
  Forall2 (live h) ws sets ->
  (forall p v, In p ws -> live h p v -> live h' p v) ->
  Forall2 (live h') ws sets.
Proof.
  induction 1 as [|p v ws sets Hp _ IH]; intros Hf; constructor.
  - apply Hf; [now left|assumption].
  - apply IH. intros q u Hq. apply Hf. now right.
Qed.

Lemma free_all_heap : forall ws sets h,
  Forall2 (live h) ws sets -> NoDup ws ->
  exists h',
    Pointers.free_all ws h = Ok (tt, h') /\ length h' = length h /\
    forall p v, live h' p v <-> (~ In p ws /\ live h p v).
Proof.
  induction ws as [|w ws IH]; intros sets h F Hnd;
    inversion F as [|? vw ? vs Hw Hs]; subst.
  - exists h. split; [reflexivity|]. split; [reflexivity|].
    intros p v. cbn [In]. tauto.
  - inversion Hnd as [|? ? Hnot Hnd']; subst.
    cbn [Pointers.free_all].
    rewrite (bindM_ok _ _ _ _ _ (free_live h w vw Hw)).
    pose proof (live_lt _ _ _ Hw) as Hlt.
    destruct (IH vs (Pointers.update h w None)) as (h' & -> & Hlen & Hlive).
    + apply (Forall2_live_frame h); [assumption|].
      intros p v Hp Hl. apply live_update; [assumption|]. right.
      split; [|assumption]. intros ->. contradiction.
    + assumption.
    + exists h'. split; [reflexivity|]. split; [now rewrite Hlen, update_length|].
      intros p v. rewrite Hlive, live_update by assumption. cbn [In].
      split.
      * intros (Hp & [[_ ?]|[Hpw Hl]]); [discriminate|]. split; [|assumption].
        intros [?|?]; [congruence|contradiction].
      * intros (Hp & Hl). split; [tauto|]. right. split; [|assumption].
        intros ->. apply Hp. now left.
Qed.

Lemma backward_step_heap words nwo vw vnwo m0 set m' ht :
  live ht words vw ->
  match nwo, vnwo with
  | Some nw, Some vnw => live ht nw vnw /\ nw <> words
  | None, None => True
  | _, _ => False
  end ->
  backward_step g vw vnwo m0 = Ok (set, m') ->
  exists k,
    (Pointers.backward_step g words nwo m0 ht =
       Ok ((length ht, m'),
           Pointers.update ht words None ++ Some set :: repeat None k)) \/
    (set = vw /\
     Pointers.backward_step g words nwo m0 ht =
       Ok ((words, m'), ht ++ None :: repeat None k)).
Proof.
  intros Hw Hnw E. unfold backward_step in E.
  pose proof (live_lt _ _ _ Hw) as Hwl.
  assert (Nar : exists r k,
            match vnwo with
            | Some nw => narrow g nw vw intvec_alloc
            | None => Ok intvec_alloc
            end = Ok r /\
            match nwo with
            | Some nw =>
                Pointers.bindM (Pointers.intvec_len words)
                  (fun len => Pointers.narrow g nw words (length ht) 0 (Z.to_nat len))
            | None => Pointers.ret tt
            end (ht ++ [Some []]) = Ok (tt, ht ++ Some r :: repeat None k)).
  { destruct nwo as [nw|], vnwo as [vnw|]; try contradiction.
    - destruct Hnw as [Hn Hne].
      destruct (narrow g vnw vw intvec_alloc) as [r| |] eqn:N; cbn [bind] in E;
        try discriminate.
      exists r, (2 * length vw)%nat. split; [reflexivity|].
      rewrite (bindM_ok _ _ _ _ _ (len_live _ _ _ (live_app_l _ [Some []] _ _ Hw))).
      unfold intvec_len. rewrite Nat2Z.id.
      pose proof (live_lt _ _ _ Hn) as Hnl.
      pose proof (narrow_heap nw words (length ht) vnw vw (length vw) 0
                    (ht ++ [Some []]) intvec_alloc r
                    (live_app_l _ _ _ _ Hn) (live_app_l _ _ _ _ Hw)
                    (live_snoc_new ht []) ltac:(lia) ltac:(lia) ltac:(lia) N) as NH.
      cbn [Z.of_nat] in NH. rewrite NH.
      pose proof (update_app_r ht [Some []] 0 (Some r)) as U.
      rewrite Nat.add_0_r in U. rewrite U. cbn [Pointers.update].
      now rewrite <- app_assoc.
    - exists [], 0%nat. split; [reflexivity|]. reflexivity. }
  destruct Nar as (r & k & Nl & Np). rewrite Nl in E. cbn [bind] in E.
  assert (Lr : live (ht ++ Some r :: repeat None k) (length ht) r).
  { unfold live. now rewrite nth_error_app2, Nat.sub_diag by lia. }
  exists k.
  destruct (negb (intvec_len r =? 0)) eqn:Ne; inversion E; subst set m';
    [left|right; split; [reflexivity|]];
    unfold Pointers.backward_step, Pointers.intvec_alloc, Pointers.build;
    unfold Pointers.bindM at 1; rewrite (bindM_ok _ _ _ _ _ Np);
    rewrite (bindM_ok _ _ _ _ _ (len_live _ _ _ Lr)); rewrite Ne.
  - rewrite (bindM_ok _ _ _ _ _ (free_live _ words vw (live_app_l _ _ _ _ Hw))).
    unfold Pointers.ret. now rewrite update_app_l by assumption.
  - rewrite (bindM_ok _ _ _ _ _ (free_live _ _ _ Lr)).
    unfold Pointers.ret.
    pose proof (update_app_r ht (Some r :: repeat None k) 0 None) as U.
    rewrite Nat.add_0_r in U. now rewrite U.
Qed.

Lemma Forall2_live_lt h ws sets q :
  Forall2 (live h) ws sets -> In q ws -> (q < length h)%nat.
Proof.
  induction 1 as [|p v ws sets Hp _ IH]; intros Hq; [destruct Hq|].
  destruct Hq as [->|Hq]; [|auto]. now apply live_lt in Hp.
Qed.

Lemma backward_heap : forall ws sets sets' m h,
  Forall2 (live h) ws sets -> NoDup ws ->
  backward g sets = Ok (sets', m) ->
  exists ws' h',
    Pointers.backward g ws h = Ok ((ws', m), h') /\
    Forall2 (live h') ws' sets' /\ NoDup ws' /\
    (length h <= length h')%nat /\
    Forall (fun p => In p ws \/ (length h <= p)%nat) ws' /\
    (forall p v, ~ In p ws' -> (live h' p v <-> (~ In p ws /\ live h p v))).
Proof.
  induction ws as [|words later IH]; intros sets sets' m h F Hnd B;
    inversion F as [|? vw ? vlater Hw Hlater]; subst.
  - cbn [backward] in B. inversion B; subst. exists [], h.
    split; [reflexivity|]. split; [constructor|]. split; [constructor|].
    split; [lia|]. split; [constructor|]. intros p v _. cbn [In]. tauto.
  - inversion Hnd as [|? ? Hnot Hnd']; subst.
    cbn [backward] in B.
    destruct (backward g vlater) as [[vlater' m0]| |] eqn:B0; cbn [bind] in B;
      try discriminate.
    destruct (backward_step g vw (hd_error vlater') m0) as [[set m']| |] eqn:E;
      cbn [bind] in B; try discriminate.
    inversion B; subst sets' m. clear B.
    destruct (IH vlater vlater' m0 h Hlater Hnd' B0)
      as (later' & ht & Hb & F' & Hnd2 & Hlen & Hin & Hframe).
    cbn [Pointers.backward]. rewrite (bindM_ok _ _ _ _ _ Hb).
    pose proof (live_lt _ _ _ Hw) as Hwl.
    assert (Hwn : ~ In words later').
    { intros Hi. rewrite Forall_forall in Hin.
      destruct (Hin words Hi); [contradiction|lia]. }
    assert (Hwt : live ht words vw) by (apply Hframe; [assumption|now split]).
    pose proof (live_lt _ _ _ Hwt) as Hwtl.
    assert (Hnext : match hd_error later', hd_error vlater' with
                    | Some nw, Some vnw => live ht nw vnw /\ nw <> words
                    | None, None => True
                    | _, _ => False
                    end).
    { destruct F' as [|nw vnw later2 vlater2 Hn _]; cbn [hd_error]; [exact I|].
      split; [assumption|]. intros ->. apply Hwn. now left. }
    destruct (backward_step_heap words (hd_error later') vw (hd_error vlater')
                m0 set m' ht Hwt Hnext E) as (k & [Hs|[-> Hs]]);
      rewrite (bindM_ok _ _ _ _ _ Hs); unfold Pointers.ret.
    + (* the narrowed set replaces the sampled one *)
      eexists (length ht :: later'), _. split; [reflexivity|].
      assert (Hq : forall q u, In q later' -> live ht q u ->
                     live (Pointers.update ht words None ++ Some set :: repeat None k) q u).
      { intros q u Hq Hl. apply live_app_l. apply live_update; [assumption|].
        right. split; [|assumption]. intros ->. contradiction. }
      split; [|split; [|split; [|split]]].
      * constructor.
        -- unfold live. rewrite nth_error_app2 by (rewrite update_length; lia).
           now rewrite update_length, Nat.sub_diag.
        -- now apply (Forall2_live_frame ht).
      * constructor; [|assumption]. intros Hi.
        pose proof (Forall2_live_lt _ _ _ _ F' Hi). lia.
      * rewrite length_app, update_length. lia.
      * constructor; [right; lia|].
        eapply Forall_impl; [|exact Hin]. cbn [In]. intros q [?|?]; auto.
      * intros p v Hp. cbn [In] in Hp.
        rewrite live_app, update_length, live_update by assumption.
        rewrite live_cons_Some. cbn [In]. split.
        -- intros [[[_ ?]|[Hpw Hl]]|[Hge [[H0 _]|[H1 Hl]]]].
           ++ discriminate.
           ++ apply Hframe in Hl; [|tauto]. destruct Hl as [Hl1 Hl2].
              split; [|assumption]. intros [?|?]; [congruence|contradiction].
           ++ exfalso. apply Hp. left. lia.
           ++ exfalso. now apply live_repeat_None in Hl.
        -- intros [Hn Hl]. left. right. split; [intros ->; tauto|].
           apply Hframe; [tauto|]. split; [tauto|assumption].
    + (* the sampled set stays *)
      eexists (words :: later'), _. split; [reflexivity|].
      split; [|split; [|split; [|split]]].
      * constructor; [now apply live_app_l|].
        apply (Forall2_live_frame ht); [assumption|].
        intros q u _ Hl. now apply live_app_l.
      * constructor; assumption.
      * rewrite length_app. lia.
      * constructor; [left; now left|].
        eapply Forall_impl; [|exact Hin]. cbn [In]. intros q [?|?]; auto.
      * intros p v Hp. cbn [In] in Hp.
        rewrite live_app, live_cons_None. cbn [In]. split.
        -- intros [Hl|[_ [_ Hl]]].
           ++ apply Hframe in Hl; [|tauto]. destruct Hl as [Hl1 Hl2].
              split; [|assumption]. intros [?|?]; [|contradiction].
              apply Hp. now left.
           ++ exfalso. now apply live_repeat_None in Hl.
        -- intros [Hn Hl]. left. apply Hframe; [tauto|]. split; [tauto|assumption].
Qed.

End PointerProofs.

(** A round on the heap.  Whenever the round (as the lists compute it)
    ends, the round with its calls of [intvec_alloc] and [intvec_free]
    ends with the same sampled cells, counter and words; it uses no vector
    that was freed and frees none twice; and when it ends the vectors that
    are allocated are those that were before it, unchanged: every vector a
    round allocates, it frees. *)
Theorem round_frees_its_vectors (g : WordGraph) (start_word : Z)
    (prefixes_chosen : list Z) (r : Round) (h : Pointers.heap) :
  generate_round g start_word prefixes_chosen = Ok r ->
  exists h',
    Pointers.round g start_word prefixes_chosen h =
      Ok ((round_prefixes r, round_mismatch r, round_words r), h') /\
    (length h <= length h')%nat /\
    forall p vec, live h' p vec <-> live h p vec.
Proof.
  intros H. unfold generate_round in H.
  destruct (choose_word_sets g prefixes_chosen) as [[ps sets]| |] eqn:C;
    cbn [bind] in H; try discriminate.
  destruct (backward g sets) as [[sets' m]| |] eqn:B; cbn [bind] in H;
    try discriminate.
  destruct (forward g start_word sets') as [chosen| |] eqn:F; cbn [bind] in H;
    try discriminate.
  inversion H; subst r. clear H. cbn [round_prefixes round_mismatch round_words].
  unfold Pointers.round.
  rewrite (bindM_ok _ _ _ _ _ (choose_heap g _ _ _ h C)).
  set (h1 := h ++ map Some sets). set (ws := seq (length h) (length sets)).
  destruct (backward_heap g ws sets sets' m h1 (live_seq h sets)
              (seq_NoDup _ _) B)
    as (ws' & h2 & Hb & F2 & Hnd & Hlen & Hin & Hframe).
  rewrite (bindM_ok _ _ _ _ _ Hb).
  rewrite (bindM_ok _ _ _ _ _ (forward_heap g ws' sets' start_word chosen h2 F2 F)).
  destruct (free_all_heap ws' sets' (h2 ++ repeat None (2 * length ws')))
    as (h' & Hf & Hlen' & Hlive).
  { apply (Forall2_live_frame h2); [assumption|].
    intros p v _ Hl. now apply live_app_l. }
  { assumption. }
  rewrite (bindM_ok _ _ _ _ _ Hf). unfold Pointers.ret.
  exists h'. split; [reflexivity|].
  assert (L1 : length h1 = (length h + length sets)%nat).
  { unfold h1. now rewrite length_app, length_map. }
  split; [rewrite Hlen', length_app; lia|].
  intros p v. rewrite Hlive, live_app. split.
  - intros (Hp & [Hl|[_ Hl]]); [|exfalso; now apply live_repeat_None in Hl].
    apply Hframe in Hl; [|assumption]. destruct Hl as [Hpw Hl].
    unfold h1 in Hl. apply live_app in Hl. destruct Hl as [Hl|[Hge Hl]];
      [assumption|].
    exfalso. apply Hpw. unfold ws. apply in_seq.
    apply live_lt in Hl. rewrite length_map in Hl. lia.
  - intros Hl. pose proof (live_lt _ _ _ Hl) as Hlt.
    assert (Hpw : ~ In p ws) by (unfold ws; rewrite in_seq; lia).
    assert (Hp : ~ In p ws').
    { intros Hi. rewrite Forall_forall in Hin.
      destruct (Hin p Hi); [contradiction|lia]. }
    split; [assumption|]. left. apply Hframe; [assumption|].
    split; [assumption|]. unfold h1. now apply live_app_l.
Qed.

Lemma round_frees_its_vectors_witness :
  exists h',
    Pointers.round two_word_graph 1 [0; 1] [Some [42]; None] =
      Ok (([0; 1], 1, [1; 2]), h') /\
    (2 <= length h')%nat /\
    forall p vec, live h' p vec <-> live [Some [42]; None] p vec.
Proof.
  apply (round_frees_its_vectors two_word_graph 1 [0; 1]
           {| round_prefixes := [0; 1]; round_word_sets := [[1]; [2]];
              round_mismatch := 1; round_words := [1; 2] |}
           [Some [42]; None]).
  vm_compute. reflexivity.
Defined.
